(** * Filtered Space-Saving top-k sketch (topk.go): model and properties

    A shallow embedding of [topk.go].  Go's [int] is a 64-bit two's
    complement integer and is modelled by [Z] with the wrap-around written
    out ([wrap64]); [uint32]/[uint64] conversions are the corresponding
    residues.  Slices are lists, the fixed array [[nPartitions]keys] is a
    vector of length six, and [map[string]int] is a [gmap string Z].

    A method with receiver [s *Stream] is a function from the state before
    the call to an [outcome]: either the call returns (with its results and
    the state after it) or it panics (index out of range, negative slice
    bound or length). *)

From Stdlib Require Import ZArith String Ascii List Lia Sorting.Sorted.
From stdpp Require Import base option list vector gmap strings sorting.

Local Open Scope Z_scope.
#[local] Set Warnings "-clear-no-such-hyp".

(** ** Machine integers *)

Definition min_int : Z := - 2 ^ 63.
Definition max_int : Z := 2 ^ 63 - 1.

(** The value of a Go [int] expression whose exact result is [z]. *)
Definition wrap64 (z : Z) : Z := (z + 2 ^ 63) mod 2 ^ 64 - 2 ^ 63.

(** [a + b] on [int]. *)
Definition add64 (a b : Z) : Z := wrap64 (a + b).

Definition uint32 (z : Z) : Z := z mod 2 ^ 32.
Definition uint64 (z : Z) : Z := z mod 2 ^ 64.

Definition is_int (z : Z) : Prop := min_int <= z <= max_int.

(** ** Outcomes of a call *)

Inductive outcome (A : Type) : Type :=
| Returned (a : A)
| Panicked.
Arguments Returned {A} a.
Arguments Panicked {A}.

(** Sequencing: a panic ends the call. *)
#[global] Instance outcome_bind : MBind outcome := fun A B k o =>
  match o with
  | Returned a => k a
  | Panicked => Panicked
  end.

(** [l[i]] for an [int] (or [uint32]) index [i]: panics out of range. *)
Definition index {A} (l : list A) (i : Z) : outcome A :=
  if i <? 0 then Panicked
  else match l !! Z.to_nat i with
       | Some a => Returned a
       | None => Panicked
       end.

(** ** Data model *)

(** [type Element struct { Key string; Count int; Error int }] *)
Record Element : Type := mkElement {
  Key : string;
  Count : Z;
  Error : Z
}.

(** [type keys struct { m map[string]int; elts []Element }];
    the fields are [tk_m] and [tk_elts] after the receiver name [tk]. *)
Record keys : Type := mkKeys {
  tk_m : gmap string Z;
  tk_elts : list Element
}.

Definition nPartitions : nat := 6.

(** [type partitions [nPartitions]keys] *)
Abbreviation partitions := (vec keys nPartitions).

(** [type Stream struct { n int; p partitions; alphas []int }];
    the fields are [s_n], [s_p] and [s_alphas] after the receiver name [s]. *)
Record Stream : Type := mkStream {
  s_n : Z;
  s_p : partitions;
  s_alphas : list Z
}.

#[global] Instance Element_eq_dec : EqDecision Element.
Proof. solve_decision. Defined.

(** ** [elementsByCountDescending] and [sort.Sort] *)

(** [elementsByCountDescending.Less], on the two elements compared:
    [a.Count > b.Count || (a.Count == b.Count && a.Key < b.Key)]. *)
Definition byCount_Less (a b : Element) : bool :=
  (Count b <? Count a) || ((Count a =? Count b) && String.ltb (Key a) (Key b)).

(** [a] may stand before [b] in a slice sorted with [byCount_Less]:
    [b] is not less than [a]. *)
Definition byCount_le (a b : Element) : Prop := byCount_Less b a = false.

#[global] Instance byCount_le_dec : RelDecision byCount_le.
Proof. intros a b. unfold byCount_le. apply _. Defined.

(** [sort.Sort(elementsByCountDescending(elts))].  The library routine is
    any comparison sort; it is modelled by a merge sort on the order induced
    by [Less] (see [sort_Sort_unique]: on elements with pairwise different
    keys every sorted rearrangement is this one). *)
Definition sort_Sort (elts : list Element) : list Element :=
  merge_sort byCount_le elts.

(** ** The heap interface of [keys] and [container/heap] *)

(** [keys.Less], on the two elements compared:
    [a.Count < b.Count || (a.Count == b.Count && a.Error > b.Error)]. *)
Definition elt_Less (a b : Element) : bool :=
  (Count a <? Count b) || ((Count a =? Count b) && (Error b <? Error a)).

(** [tk.Less(i, j)]; the heap routines below only call it in range. *)
Definition Less (tk : keys) (i j : nat) : bool :=
  match tk_elts tk !! i, tk_elts tk !! j with
  | Some a, Some b => elt_Less a b
  | _, _ => false
  end.

(** [tk.Swap(i, j)]: exchange the two slots, then record slot [i] for the
    key now at [i] and slot [j] for the key now at [j], in this order. *)
Definition Swap (tk : keys) (i j : nat) : keys :=
  match tk_elts tk !! i, tk_elts tk !! j with
  | Some ei, Some ej =>
      {| tk_m := <[Key ei := Z.of_nat j]> (<[Key ej := Z.of_nat i]> (tk_m tk));
         tk_elts := <[j := ei]> (<[i := ej]> (tk_elts tk)) |}
  | _, _ => tk
  end.

(** [tk.Push(x)]: [tk.m[e.Key] = len(tk.elts); tk.elts = append(tk.elts, e)]. *)
Definition Push (tk : keys) (e : Element) : keys :=
  {| tk_m := <[Key e := Z.of_nat (length (tk_elts tk))]> (tk_m tk);
     tk_elts := tk_elts tk ++ [e] |}.

(** [heap.up(h, j)]: the loop
    [for { i := (j-1)/2; if i == j || !h.Less(j, i) { break }; h.Swap(i, j); j = i }].
    Go's [(j-1)/2] truncates towards zero, so it is [0] at [j = 0], as is
    the expression on [nat].  [fuel] bounds the number of iterations;
    [up_fuel_enough] shows that [S j] iterations always suffice. *)
Fixpoint up_loop (fuel : nat) (tk : keys) (j : nat) : keys :=
  match fuel with
  | O => tk
  | S fuel' =>
      let i := ((j - 1) / 2)%nat in
      if (i =? j)%nat || negb (Less tk j i) then tk
      else up_loop fuel' (Swap tk i j) i
  end.

Definition up (tk : keys) (j : nat) : keys := up_loop (S j) tk j.

(** [heap.down(h, i0, n)]: the loop
    [for { j1 := 2*i+1; if j1 >= n { break }; j := j1;
           if j2 := j1+1; j2 < n && h.Less(j2, j1) { j = j2 };
           if !h.Less(j, i) { break }; h.Swap(i, j); i = j }],
    returning the heap and the final [i] (Go returns [i > i0]).
    [down_fuel_enough] shows that [n] iterations always suffice. *)
Fixpoint down_loop (fuel : nat) (tk : keys) (i n : nat) : keys * nat :=
  match fuel with
  | O => (tk, i)
  | S fuel' =>
      let j1 := (2 * i + 1)%nat in
      if (n <=? j1)%nat then (tk, i)
      else
        let j2 := (j1 + 1)%nat in
        let j := if (j2 <? n)%nat && Less tk j2 j1 then j2 else j1 in
        if negb (Less tk j i) then (tk, i)
        else down_loop fuel' (Swap tk i j) j n
  end.

Definition down (tk : keys) (i0 n : nat) : keys * bool :=
  let '(tk', i) := down_loop n tk i0 n in (tk', (i0 <? i)%nat).

(** [heap.Fix(h, i)]: [if !down(h, i, h.Len()) { up(h, i) }]. *)
Definition heap_Fix (tk : keys) (i : nat) : keys :=
  let '(tk', moved) := down tk i (length (tk_elts tk)) in
  if moved then tk' else up tk' i.

(** [heap.Push(h, x)]: [h.Push(x); up(h, h.Len()-1)]. *)
Definition heap_Push (tk : keys) (e : Element) : keys :=
  let tk' := Push tk e in
  up tk' (length (tk_elts tk') - 1).

(** [tk.Pop()]:
    [e, tk.elts = tk.elts[len(tk.elts)-1], tk.elts[:len(tk.elts)-1];
     delete(tk.m, e.Key); return e].  Indexing an empty slice panics. *)
Definition Pop (tk : keys) : outcome (Element * keys) :=
  e ← index (tk_elts tk) (Z.of_nat (length (tk_elts tk)) - 1);
  Returned (e, {| tk_m := delete (Key e) (tk_m tk);
                  tk_elts := take (length (tk_elts tk) - 1) (tk_elts tk) |}).

(** *** Heap order *)

(** The order [container/heap] maintains: no element is less (by
    [keys.Less]) than its parent, the element at [(k-1)/2]. *)
Definition heap_ok (elts : list Element) : Prop :=
  ∀ k c p, (0 < k)%nat ->
    elts !! k = Some c -> elts !! ((k - 1) / 2)%nat = Some p ->
    elt_Less c p = false.

(** Heap order everywhere except around slot [i]: the slots other than [i]
    and its children are in order with their parents, and the children of
    [i] are in order with the parent of [i]. *)
Definition heap_hole (elts : list Element) (i : nat) : Prop :=
  (∀ k c p, (0 < k)%nat -> k ≠ i -> ((k - 1) / 2)%nat ≠ i ->
     elts !! k = Some c -> elts !! ((k - 1) / 2)%nat = Some p ->
     elt_Less c p = false) ∧
  (∀ k c g, (0 < i)%nat -> (0 < k)%nat -> ((k - 1) / 2)%nat = i ->
     elts !! k = Some c -> elts !! ((i - 1) / 2)%nat = Some g ->
     elt_Less c g = false).

(** The children of slot [i] are in order with [i]. *)
Definition heap_kids (elts : list Element) (i : nat) : Prop :=
  ∀ k c v, (0 < k)%nat -> ((k - 1) / 2)%nat = i ->
    elts !! k = Some c -> elts !! i = Some v -> elt_Less c v = false.

(** ** The sketch *)

(** [reduce(x uint64, n int) uint32]:
    [uint32(uint64(uint32(x)) * uint64(n) >> 32)]. *)
Definition reduce (x : Z) (n : Z) : Z :=
  uint32 (Z.shiftr (uint64 (uint32 x * uint64 n)) 32).

(** [h % uint64(len(s.p))] as an index into the six partitions. *)
Definition partition_of (h : Z) : fin nPartitions :=
  match h mod 6 with
  | 0 => 0%fin
  | 1 => 1%fin
  | 2 => 2%fin
  | 3 => 3%fin
  | 4 => 4%fin
  | _ => 5%fin
  end.

(** The indices of [for i := range s.p], in order. *)
Definition partition_indices : list (fin nPartitions) :=
  [0%fin; 1%fin; 2%fin; 3%fin; 4%fin; 5%fin].

Definition empty_keys : keys := {| tk_m := ∅; tk_elts := [] |}.

Definition len {A} (l : list A) : Z := Z.of_nat (length l).

(** [New(n)].  [make([]int, n*nPartitions)] panics when the length is
    negative; for [n * 6 > max_int] the capacity [1 + n/6] asked for each
    partition's slice is beyond any allocation and [make] panics too. *)
Definition New (n : Z) : outcome Stream :=
  if (n <? 0) || (max_int <? n * 6) then Panicked
  else Returned {| s_n := n;
                   s_p := vreplicate nPartitions empty_keys;
                   s_alphas := replicate (Z.to_nat (n * 6)) 0 |}.

(** Errors returned by [Merge]: [fmt.Errorf("expected stream of size n %d, got %d", ...)]. *)
Inductive error : Type :=
| SizeMismatch (expected got : Z).

Section Sketch.

(** [metro.Hash64Str(x, 0)]: the 64-bit hash of a key, supplied from
    outside; only its value as a [uint64] is used. *)
Variable metro_Hash64Str : string -> Z.

Definition Hash64Str (x : string) : Z := uint64 (metro_Hash64Str x).

(** The index [reduce(metro.Hash64Str(x, 0), len(s.alphas))] into the
    error table. *)
Definition bucket_of (s : Stream) (x : string) : Z :=
  reduce (Hash64Str x) (len (s_alphas s)).

(** [Stream.Insert(x, count)]. *)
Definition Insert (x : string) (count : Z) (s : Stream)
  : outcome (Element * Stream) :=
  let strHash := Hash64Str x in
  let xhash := reduce strHash (len (s_alphas s)) in
  let i := partition_of strHash in
  let tk := s_p s !!! i in
  match tk_m tk !! x with
  | Some idx =>
      (* are we tracking this element? *)
      e0 ← index (tk_elts tk) idx;
      let e := {| Key := Key e0; Count := add64 (Count e0) count;
                  Error := Error e0 |} in
      let tk1 := {| tk_m := tk_m tk;
                    tk_elts := <[Z.to_nat idx := e]> (tk_elts tk) |} in
      Returned (e, {| s_n := s_n s;
                      s_p := vinsert i (heap_Fix tk1 (Z.to_nat idx)) (s_p s);
                      s_alphas := s_alphas s |})
  | None =>
      if len (tk_elts tk) <? s_n s then
        (* can we track more elements? *)
        let e := {| Key := x; Count := count; Error := 0 |} in
        Returned (e, {| s_n := s_n s;
                        s_p := vinsert i (heap_Push tk e) (s_p s);
                        s_alphas := s_alphas s |})
      else
        a ← index (s_alphas s) xhash;
        minElement ← index (tk_elts tk) 0;
        if add64 a count <? Count minElement then
          let e := {| Key := x; Count := add64 a count; Error := a |} in
          Returned (e, {| s_n := s_n s;
                          s_p := s_p s;
                          s_alphas := <[Z.to_nat xhash := add64 a count]>
                                        (s_alphas s) |})
        else
          (* replace the current minimum element *)
          let mkhash :=
            reduce (Hash64Str (Key minElement)) (len (s_alphas s)) in
          _ ← index (s_alphas s) mkhash;
          let alphas1 :=
            <[Z.to_nat mkhash := Count minElement]> (s_alphas s) in
          a1 ← index alphas1 xhash;
          let e := {| Key := x; Count := add64 a1 count; Error := a1 |} in
          let tk1 :=
            {| tk_m := <[x := 0]> (delete (Key minElement) (tk_m tk));
               tk_elts := <[0%nat := e]> (tk_elts tk) |} in
          Returned (e, {| s_n := s_n s;
                          s_p := vinsert i (heap_Fix tk1 0) (s_p s);
                          s_alphas := alphas1 |})
  end.

(** [Stream.Estimate(x)]; the sketch is only read. *)
Definition Estimate (x : string) (s : Stream) : outcome (Element * Stream) :=
  let strHash := Hash64Str x in
  let xhash := reduce strHash (len (s_alphas s)) in
  let i := partition_of strHash in
  let tk := s_p s !!! i in
  match tk_m tk !! x with
  | Some idx =>
      e ← index (tk_elts tk) idx;
      Returned (e, s)
  | None =>
      count ← index (s_alphas s) xhash;
      Returned ({| Key := x; Count := count; Error := count |}, s)
  end.

(** [elts[:n]] when [len(elts) > n]: panics for a negative bound. *)
Definition trim (n : Z) (elts : list Element) : outcome (list Element) :=
  if n <? len elts then
    if n <? 0 then Panicked else Returned (take (Z.to_nat n) elts)
  else Returned elts.

(** [Stream.Keys()]; the result is a fresh slice (of capacity
    [(1 + s.n/6) * 6], negative capacities panic), the sketch is only read. *)
Definition Keys (s : Stream) : outcome (list Element * Stream) :=
  let l := 1 + Z.quot (s_n s) 6 in
  if wrap64 (l * 6) <? 0 then Panicked
  else
    let elts := concat (tk_elts <$> vec_to_list (s_p s)) in
    (elts1 ← trim (s_n s) (sort_Sort elts);
     Returned (elts1, s)).

(** The body of [for k := range eKeys] in [Merge]: the combined element
    for key [k], if [k] is in one of the two maps. *)
Definition merge_key (s_tk o_tk : keys) (s_alphas_len : Z)
    (o_alphas : list Z) (k : string) : outcome (option Element) :=
  let xhash := reduce (Hash64Str k) s_alphas_len in
  min1 ← index o_alphas xhash;
  let min2 := min1 in
  match tk_m s_tk !! k, tk_m o_tk !! k with
  | Some idx1, Some idx2 =>
      e1 ← index (tk_elts s_tk) idx1;
      e2 ← index (tk_elts o_tk) idx2;
      Returned (Some {| Key := k; Count := add64 (Count e1) (Count e2);
                        Error := add64 (Error e1) (Error e2) |})
  | Some idx1, None =>
      e1 ← index (tk_elts s_tk) idx1;
      Returned (Some {| Key := k; Count := add64 (Count e1) min2;
                        Error := add64 (Error e1) min2 |})
  | None, Some idx2 =>
      e2 ← index (tk_elts o_tk) idx2;
      Returned (Some {| Key := k; Count := add64 (Count e2) min1;
                        Error := add64 (Error e2) min1 |})
  | None, None => Returned None
  end.

(** The loop over [eKeys], collecting [eMap]'s values.  Go ranges over the
    two maps in an unspecified order; the values are sorted right after. *)
Fixpoint merge_keys (s_tk o_tk : keys) (s_alphas_len : Z)
    (o_alphas : list Z) (eKeys : list string) : outcome (list Element) :=
  match eKeys with
  | [] => Returned []
  | k :: ks =>
      oe ← merge_key s_tk o_tk s_alphas_len o_alphas k;
      es ← merge_keys s_tk o_tk s_alphas_len o_alphas ks;
      Returned (match oe with Some e => e :: es | None => es end)
  end.

(** [for i, v := range other.alphas { s.alphas[i] += v }]. *)
Definition add_alphas (alphas o_alphas : list Z) : outcome (list Z) :=
  if (length alphas <? length o_alphas)%nat then Panicked
  else Returned (zip_with add64 (take (length o_alphas) alphas) o_alphas
                 ++ drop (length o_alphas) alphas).

(** One iteration of [for i := range s.p] in [Merge]. *)
Definition merge_partition (other : Stream) (i : fin nPartitions)
    (s : Stream) : outcome Stream :=
  let s_tk := s_p s !!! i in
  let o_tk := s_p other !!! i in
  let eKeys := remove_dups ((Key <$> tk_elts s_tk) ++ (Key <$> tk_elts o_tk)) in
  elts0 ← merge_keys s_tk o_tk (len (s_alphas s)) (s_alphas other) eKeys;
  (* sort the elements, trim them, create the heap *)
  elts ← trim (s_n s) (sort_Sort elts0);
  let tk := fold_left heap_Push elts empty_keys in
  (* modify alphas *)
  alphas1 ← add_alphas (s_alphas s) (s_alphas other);
  Returned {| s_n := s_n s; s_p := vinsert i tk (s_p s); s_alphas := alphas1 |}.

Fixpoint merge_partitions (other : Stream) (idxs : list (fin nPartitions))
    (s : Stream) : outcome Stream :=
  match idxs with
  | [] => Returned s
  | i :: idxs' =>
      s1 ← merge_partition other i s;
      merge_partitions other idxs' s1
  end.

(** [s.Merge(other)] for two different sketches: the error returned (if
    any), [s] after the call and [other] after the call. *)
Definition Merge (other : Stream) (s : Stream)
  : outcome (option error * Stream * Stream) :=
  if negb (s_n s =? s_n other) then
    Returned (Some (SizeMismatch (s_n s) (s_n other)), s, other)
  else
    (s1 ← merge_partitions other partition_indices s;
     Returned (None, s1, other)).

(** *** Invariants of reachable sketches *)

(** The slot map mirrors the element array, whose keys are pairwise
    different. *)
Definition keys_wf (tk : keys) : Prop :=
  NoDup (Key <$> tk_elts tk) ∧
  ∀ k z, tk_m tk !! k = Some z ↔
         ∃ i e, z = Z.of_nat i ∧ tk_elts tk !! i = Some e ∧ Key e = k.

Definition elt_int (e : Element) : Prop := is_int (Count e) ∧ is_int (Error e).

(** The key of [e] is routed to partition [i]. *)
Definition routed (i : fin nPartitions) (e : Element) : Prop :=
  partition_of (Hash64Str (Key e)) = i.

Definition stream_wf (s : Stream) : Prop :=
  0 <= s_n s ∧ s_n s * 6 <= max_int ∧
  len (s_alphas s) = s_n s * 6 ∧
  Forall is_int (s_alphas s) ∧
  ∀ i, keys_wf (s_p s !!! i) ∧
       len (tk_elts (s_p s !!! i)) <= s_n s ∧
       Forall elt_int (tk_elts (s_p s !!! i)) ∧
       Forall (routed i) (tk_elts (s_p s !!! i)).

(** The sketches a program can build: [New], then [Insert] and successful
    [Merge] calls. *)
Inductive reachable : Stream -> Prop :=
| reachable_New n s :
    New n = Returned s -> reachable s
| reachable_Insert s x count e s' :
    reachable s -> is_int count ->
    Insert x count s = Returned (e, s') -> reachable s'
| reachable_Merge s other s' other' :
    reachable s -> reachable other ->
    Merge other s = Returned (None, s', other') -> reachable s'.

(** Reachable sketches together with a bound [B] on every count and
    error floor they can hold: the counts inserted add up, and a merge adds
    [other]'s error table once per partition.  While [B] fits an [int] no
    addition in the sketch wraps around. *)
Inductive reachable_within : Z -> Stream -> Prop :=
| within_New n s :
    New n = Returned s -> reachable_within 0 s
| within_Insert B s x count e s' :
    reachable_within B s -> is_int count -> 0 <= count ->
    Insert x count s = Returned (e, s') -> reachable_within (B + count) s'
| within_Merge B1 B2 s other s' other' :
    reachable_within B1 s -> reachable_within B2 other ->
    Merge other s = Returned (None, s', other') ->
    reachable_within (B1 + 6 * B2) s'.

End Sketch.

(** [0 <= e.Error <= e.Count <= B]. *)
Definition elt_bounded (B : Z) (e : Element) : Prop :=
  0 <= Error e ∧ Error e <= Count e ∧ Count e <= B.

Definition alpha_bounded (B : Z) (a : Z) : Prop := 0 <= a <= B.

Definition bounded (B : Z) (s : Stream) : Prop :=
  Forall (alpha_bounded B) (s_alphas s) ∧
  ∀ i, Forall (elt_bounded B) (tk_elts (s_p s !!! i)).

(** ** The codec *)

(** Bytes on the wire: integers in [[0, 256)]. *)
Abbreviation bytes := (list Z).

(** The primitives of [msgp.Writer] and [msgp.Reader] that the codec
    calls.  A writer appends to the output (the sink is a buffer in memory
    and does not fail); a reader returns the value read and the rest of the
    input, or fails. *)
Class Wire : Type := {
  WriteInt : Z -> bytes;
  ReadInt : bytes -> option (Z * bytes);
  WriteString : string -> bytes;
  ReadString : bytes -> option (string * bytes);
  WriteMapHeader : Z -> bytes;
  ReadMapHeader : bytes -> option (Z * bytes);
  WriteArrayHeader : Z -> bytes;
  ReadArrayHeader : bytes -> option (Z * bytes)
}.

(** A string the wire can carry. *)
Definition short_key (x : string) : Prop :=
  Z.of_nat (String.length x) < 2 ^ 32.

(** What the codec needs of the wire: a reader reads back what the
    matching writer wrote, for an [int], a string shorter than [2^32] and a
    [uint32] header. *)
Record Wire_laws (W : Wire) : Prop := {
  ReadInt_WriteInt z rest :
    is_int z -> ReadInt (WriteInt z ++ rest) = Some (z, rest);
  ReadString_WriteString x rest :
    short_key x ->
    ReadString (WriteString x ++ rest) = Some (x, rest);
  ReadMapHeader_WriteMapHeader sz rest :
    0 <= sz < 2 ^ 32 ->
    ReadMapHeader (WriteMapHeader sz ++ rest) = Some (sz, rest);
  ReadArrayHeader_WriteArrayHeader sz rest :
    0 <= sz < 2 ^ 32 ->
    ReadArrayHeader (WriteArrayHeader sz ++ rest) = Some (sz, rest)
}.

Section Codec.

Context {W : Wire}.

(** [keys.EncodeMsgp]; [kvs] lists the entries of [tk.m] in the order in
    which [for k, v := range tk.m] visits them. *)
Definition keys_EncodeMsgp (kvs : list (string * Z)) (tk : keys) : bytes :=
  WriteMapHeader (uint32 (Z.of_nat (size (tk_m tk)))) ++
  (kvs ≫= λ kv, WriteString kv.1 ++ WriteInt kv.2) ++
  WriteArrayHeader (uint32 (len (tk_elts tk))) ++
  (tk_elts tk ≫= λ e,
     WriteString (Key e) ++ WriteInt (Count e) ++ WriteInt (Error e)).

(** [partitions.EncodeMsgp]: the partitions in array order. *)
Definition partitions_EncodeMsgp
    (orders : fin nPartitions -> list (string * Z)) (p : partitions) : bytes :=
  partition_indices ≫= λ i, keys_EncodeMsgp (orders i) (p !!! i).

(** [Stream.EncodeMsgp]. *)
Definition Stream_EncodeMsgp
    (orders : fin nPartitions -> list (string * Z)) (s : Stream) : bytes :=
  WriteInt (s_n s) ++
  WriteArrayHeader (uint32 (len (s_alphas s))) ++
  (s_alphas s ≫= WriteInt) ++
  partitions_EncodeMsgp orders (s_p s).

(** [Stream.Encode(w)] writes [out]: Go visits the entries of each map in
    an order of its own choosing, any rearrangement of the entries. *)
Definition Encode (s : Stream) (out : bytes) : Prop :=
  ∃ orders : fin nPartitions -> list (string * Z),
    (∀ i, orders i ≡ₚ map_to_list (tk_m (s_p s !!! i))) ∧
    out = Stream_EncodeMsgp orders s.

(** [for i := range s.alphas { s.alphas[i], err = r.ReadInt() }]. *)
Fixpoint read_ints (n : nat) (r : bytes) : option (list Z * bytes) :=
  match n with
  | O => Some ([], r)
  | S n' =>
      '(a, r1) ← ReadInt r;
      '(l, r2) ← read_ints n' r1;
      Some (a :: l, r2)
  end.

(** [for i := uint32(0); i < sz; i++ { key, val := ...; tk.m[key] = val }]. *)
Fixpoint read_entries (n : nat) (m : gmap string Z) (r : bytes)
  : option (gmap string Z * bytes) :=
  match n with
  | O => Some (m, r)
  | S n' =>
      '(key, r1) ← ReadString r;
      '(val, r2) ← ReadInt r1;
      read_entries n' (<[key:=val]> m) r2
  end.

(** [for i := range tk.elts { tk.elts[i].Key, .Count, .Error = ... }]. *)
Fixpoint read_elts (n : nat) (r : bytes) : option (list Element * bytes) :=
  match n with
  | O => Some ([], r)
  | S n' =>
      '(k, r1) ← ReadString r;
      '(c, r2) ← ReadInt r1;
      '(e, r3) ← ReadInt r2;
      '(l, r4) ← read_elts n' r3;
      Some ({| Key := k; Count := c; Error := e |} :: l, r4)
  end.

(** [keys.DecodeMsgp]: the map and the array of the receiver are made
    anew. *)
Definition keys_DecodeMsgp (r : bytes) (tk : keys) : option (keys * bytes) :=
  '(sz, r1) ← ReadMapHeader r;
  '(m, r2) ← read_entries (Z.to_nat sz) ∅ r1;
  '(sz', r3) ← ReadArrayHeader r2;
  '(elts, r4) ← read_elts (Z.to_nat sz') r3;
  Some ({| tk_m := m; tk_elts := elts |}, r4).

(** [partitions.DecodeMsgp]: [for i := 0; i < 6; i++ { p[i].DecodeMsgp(r) }]. *)
Fixpoint partitions_DecodeMsgp (idxs : list (fin nPartitions)) (r : bytes)
    (p : partitions) : option (partitions * bytes) :=
  match idxs with
  | [] => Some (p, r)
  | i :: idxs' =>
      '(tk, r1) ← keys_DecodeMsgp r (p !!! i);
      partitions_DecodeMsgp idxs' r1 (vinsert i tk p)
  end.

(** [Stream.DecodeMsgp]. *)
Definition Stream_DecodeMsgp (r : bytes) (s : Stream)
  : option (Stream * bytes) :=
  '(n, r1) ← ReadInt r;
  '(sz, r2) ← ReadArrayHeader r1;
  '(alphas, r3) ← read_ints (Z.to_nat sz) r2;
  '(p, r4) ← partitions_DecodeMsgp partition_indices r3 (s_p s);
  Some ({| s_n := n; s_p := p; s_alphas := alphas |}, r4).

(** [s.Decode(r)]: the receiver after a call that returns no error;
    [None] when an error is returned.  Go then leaves the receiver partly
    overwritten ([s.n] and whatever had been assigned before the error);
    that state is not described here, and nothing below is said about
    it. *)
Definition Decode (r : bytes) (s : Stream) : option Stream :=
  '(s', _) ← Stream_DecodeMsgp r s; Some s'.

End Codec.

(** *** MessagePack, as [msgp] writes and reads it *)

(** The [k] bytes of [v], most significant first. *)
Fixpoint be (k : nat) (v : Z) : bytes :=
  match k with
  | O => []
  | S k' => (v / 256 ^ Z.of_nat k') mod 256 :: be k' v
  end.

Fixpoint from_be (bs : bytes) (acc : Z) : Z :=
  match bs with
  | [] => acc
  | b :: bs' => from_be bs' (acc * 256 + b)
  end.

(** Read [k] bytes as an unsigned number. *)
Definition read_be (k : nat) (r : bytes) : option (Z * bytes) :=
  if (length r <? k)%nat then None
  else Some (from_be (take k r) 0, drop k r).

(** Read [k] bytes as a two's complement number. *)
Definition read_signed (k : nat) (r : bytes) : option (Z * bytes) :=
  '(v, r') ← read_be k r;
  Some (if v <? 256 ^ Z.of_nat k / 2 then v else v - 256 ^ Z.of_nat k, r').

(** [Writer.WriteInt]: the shortest signed form. *)
Definition msgp_WriteInt (i : Z) : bytes :=
  if 0 <=? i then
    if i <=? 127 then [i]
    else if i <=? 32767 then 209 :: be 2 i
    else if i <=? 2147483647 then 210 :: be 4 i
    else 211 :: be 8 i
  else
    if -32 <=? i then [i + 256]
    else if -128 <=? i then 208 :: be 1 (i + 256)
    else if -32768 <=? i then 209 :: be 2 (i + 2 ^ 16)
    else if -2147483648 <=? i then 210 :: be 4 (i + 2 ^ 32)
    else 211 :: be 8 (i + 2 ^ 64).

(** [Reader.ReadInt]: any integer form whose value fits an [int]. *)
Definition msgp_ReadInt (r : bytes) : option (Z * bytes) :=
  match r with
  | [] => None
  | b :: r' =>
      if b <=? 127 then Some (b, r')
      else if 224 <=? b then Some (b - 256, r')
      else if b =? 208 then read_signed 1 r'
      else if b =? 209 then read_signed 2 r'
      else if b =? 210 then read_signed 4 r'
      else if b =? 211 then read_signed 8 r'
      else if b =? 204 then read_be 1 r'
      else if b =? 205 then read_be 2 r'
      else if b =? 206 then read_be 4 r'
      else if b =? 207 then
        '(v, r'') ← read_be 8 r';
        if max_int <? v then None else Some (v, r'')
      else None
  end.

Definition string_bytes (x : string) : bytes :=
  (λ c, Z.of_N (N_of_ascii c)) <$> list_ascii_of_string x.

Definition bytes_string (bs : bytes) : string :=
  string_of_list_ascii ((λ b, ascii_of_N (Z.to_N b)) <$> bs).

(** [Writer.WriteString]: the length as a [uint32], then the bytes. *)
Definition msgp_WriteString (x : string) : bytes :=
  let sz := uint32 (Z.of_nat (String.length x)) in
  (if sz <=? 31 then [160 + sz]
   else if sz <=? 255 then 217 :: be 1 sz
   else if sz <=? 65535 then 218 :: be 2 sz
   else 219 :: be 4 sz) ++ string_bytes x.

Definition read_bytes (k : Z) (r : bytes) : option (string * bytes) :=
  if (length r <? Z.to_nat k)%nat then None
  else Some (bytes_string (take (Z.to_nat k) r), drop (Z.to_nat k) r).

(** [Reader.ReadString]. *)
Definition msgp_ReadString (r : bytes) : option (string * bytes) :=
  match r with
  | [] => None
  | b :: r' =>
      if (160 <=? b) && (b <=? 191) then read_bytes (b - 160) r'
      else if b =? 217 then '(sz, r'') ← read_be 1 r'; read_bytes sz r''
      else if b =? 218 then '(sz, r'') ← read_be 2 r'; read_bytes sz r''
      else if b =? 219 then '(sz, r'') ← read_be 4 r'; read_bytes sz r''
      else None
  end.

(** [Writer.WriteMapHeader] and [Writer.WriteArrayHeader]: [m4] is the
    first byte of the short form, [m16] and [m32] the marks of the long
    ones. *)
Definition msgp_WriteHeader (m4 m16 m32 : Z) (sz : Z) : bytes :=
  if sz <=? 15 then [m4 + sz]
  else if sz <=? 65535 then m16 :: be 2 sz
  else m32 :: be 4 sz.

Definition msgp_ReadHeader (m4 m16 m32 : Z) (r : bytes)
  : option (Z * bytes) :=
  match r with
  | [] => None
  | b :: r' =>
      if (m4 <=? b) && (b <=? m4 + 15) then Some (b - m4, r')
      else if b =? m16 then read_be 2 r'
      else if b =? m32 then read_be 4 r'
      else None
  end.

Definition msgpack : Wire := {|
  WriteInt := msgp_WriteInt;
  ReadInt := msgp_ReadInt;
  WriteString := msgp_WriteString;
  ReadString := msgp_ReadString;
  WriteMapHeader := msgp_WriteHeader 128 222 223;
  ReadMapHeader := msgp_ReadHeader 128 222 223;
  WriteArrayHeader := msgp_WriteHeader 144 220 221;
  ReadArrayHeader := msgp_ReadHeader 144 220 221
|}.

(** ** Programs used in the examples *)

(** A stand-in for the hash in worked examples: the code of the key's
    first byte.  All such values fall into bucket 0 of a short error table,
    and the partition is the byte modulo six. *)
Definition demo_hash (x : string) : Z :=
  match x with
  | String c _ => Z.of_N (N_of_ascii c)
  | EmptyString => 0
  end.

(** [for _, (x, count) := range ops { s.Insert(x, count) }]. *)
Fixpoint inserts (hash : string -> Z) (ops : list (string * Z)) (s : Stream)
  : outcome Stream :=
  match ops with
  | [] => Returned s
  | (x, count) :: ops' =>
      r ← Insert hash x count s;
      inserts hash ops' r.2
  end.

(** [s := New(n)] followed by the insertions [ops]. *)
Definition build (hash : string -> Z) (n : Z) (ops : list (string * Z))
  : outcome Stream :=
  s ← New n; inserts hash ops s.

(** A hash whose upper and lower halves differ: every key hashes to
    [2^63] (upper half [2^31], lower half [0]). *)
Definition high_hash (x : string) : Z := 2 ^ 63.

(** The exact count of [x] in a stream of insertions: the sum of the
    counts inserted for [x]. *)
Fixpoint exact_count (x : string) (ops : list (string * Z)) : Z :=
  match ops with
  | [] => 0
  | (k, count) :: ops' =>
      (if String.eqb k x then count else 0) + exact_count x ops'
  end.

(** The capacity [ceil(n / P)] of the specification, [P = 6]. *)
Definition spec_capacity (n : Z) : Z := (n + 5) / 6.

(** The bucket of the specification: [high32(hash) * len(alphas) >> 32]. *)
Definition spec_bucket (h : Z) (alphas_len : Z) : Z :=
  Z.shiftr (Z.shiftr h 32 * alphas_len) 32.

(** A sketch built with [New(2)] and two keys of the same partition. *)
Definition two_in_one_partition : Stream :=
  Eval vm_compute in
    match build demo_hash 2 [("a", 5); ("g", 3)] with
    | Returned s => s
    | Panicked => mkStream 0 (vreplicate nPartitions empty_keys) []
    end.

(** [New(1)], then ["a"] with count 9 fills partition 1. *)
Definition one_full_partition : Stream :=
  Eval vm_compute in
    match build demo_hash 1 [("a", 9)] with
    | Returned s => s
    | Panicked => mkStream 0 (vreplicate nPartitions empty_keys) []
    end.

(** [New(2)] and one key. *)
Definition another_sketch : Stream :=
  Eval vm_compute in
    match build demo_hash 2 [("b", 4)] with
    | Returned s => s
    | Panicked => mkStream 0 (vreplicate nPartitions empty_keys) []
    end.

(** [New(1)], then ["a"] (count 9) fills a partition and ["b"] (count 4)
    raises a bucket floor, under [high_hash]. *)
Definition floor_raised : Stream :=
  Eval vm_compute in
    match build high_hash 1 [("a", 9); ("b", 4)] with
    | Returned s => s
    | Panicked => mkStream 0 (vreplicate nPartitions empty_keys) []
    end.

(** The stream [Insert("a",100); Insert("g",50); Insert("b",5);
    Insert("h",10)] into [New(1)]: under [demo_hash] the keys ["a"] and
    ["g"] share partition 1, ["b"] and ["h"] share partition 2, and all four
    share bucket 0. *)
Definition crossing_stream : list (string * Z) :=
  [("a", 100); ("g", 50); ("b", 5); ("h", 10)].

(** [New(1)], ["a"] with count 9 and ["g"] with count 4: the floor of
    bucket 0 is 4. *)
Definition floor_four : Stream :=
  Eval vm_compute in
    match build demo_hash 1 [("a", 9); ("g", 4)] with
    | Returned s => s
    | Panicked => mkStream 0 (vreplicate nPartitions empty_keys) []
    end.

(** [New(0)]: no capacity and an empty error table. *)
Definition no_capacity : Stream :=
  {| s_n := 0; s_p := vreplicate nPartitions empty_keys; s_alphas := [] |}.

(** The sum of the counts of a stream of insertions. *)
Definition total_count (ops : list (string * Z)) : Z :=
  foldr (λ op acc, op.2 + acc) 0 ops.

(** [New(2)]. *)
Definition new_two : Stream :=
  {| s_n := 2; s_p := vreplicate nPartitions empty_keys;
     s_alphas := replicate 12 0 |}.

(** [two_in_one_partition.Merge(another_sketch)]: the receiver after the
    call. *)
Definition merged_sketch : Stream :=
  Eval vm_compute in
    match Merge demo_hash another_sketch two_in_one_partition with
    | Returned (_, s, _) => s
    | Panicked => mkStream 0 (vreplicate nPartitions empty_keys) []
    end.

(** [two_in_one_partition] after [Insert("z", 7)]. *)
Definition three_keys : Stream :=
  Eval vm_compute in
    match build demo_hash 2 [("a", 5); ("g", 3); ("z", 7)] with
    | Returned s => s
    | Panicked => mkStream 0 (vreplicate nPartitions empty_keys) []
    end.

(** [New(715827883)]: the error table has [2^32 + 2] entries, more than a
    [uint32] header can announce. *)
Definition wide_sketch : Stream :=
  {| s_n := 715827883; s_p := vreplicate nPartitions empty_keys;
     s_alphas := replicate (Z.to_nat (715827883 * 6)) 0 |}.

(** [New(1)], then ["a"] with the largest [int] and once more with 1: the
    counter wraps around. *)
Definition overflowed : Stream :=
  Eval vm_compute in
    match build demo_hash 1 [("a", max_int); ("a", 1)] with
    | Returned s => s
    | Panicked => mkStream 0 (vreplicate nPartitions empty_keys) []
    end.

(** ** Properties *)

#[local] Arguments Nat.div : simpl never.
#[local] Arguments Nat.mul : simpl never.
#[local] Arguments Z.mul : simpl never.
#[local] Arguments Z.pow : simpl never.

(** ** Machine integers *)

Lemma wrap64_small z : is_int z -> wrap64 z = z.
Proof.
  unfold is_int, wrap64, min_int, max_int. intros Hz.
  rewrite Z.mod_small by lia. lia.
Qed.

Lemma wrap64_int z : is_int (wrap64 z).
Proof.
  unfold is_int, wrap64, min_int, max_int.
  pose proof (Z.mod_pos_bound (z + 2 ^ 63) (2 ^ 64) ltac:(lia)). lia.
Qed.

Lemma add64_int a b : is_int (add64 a b).
Proof. apply wrap64_int. Qed.

Lemma add64_exact a b : is_int (a + b) -> add64 a b = a + b.
Proof. apply wrap64_small. Qed.

Lemma is_int_0 : is_int 0.
Proof. unfold is_int, min_int, max_int. lia. Qed.

(** [reduce] maps into [[0, n)] for every positive length [n]. *)
Lemma reduce_range x n : 0 < n -> 0 <= reduce x n < n.
Proof.
  intros Hn. unfold reduce, uint32, uint64.
  rewrite Z.shiftr_div_pow2 by lia.
  pose proof (Z.mod_pos_bound x (2 ^ 32) ltac:(lia)) as Hx.
  destruct (Z_lt_le_dec n (2 ^ 32)) as [Hlt|Hge].
  - rewrite (Z.mod_small n) by lia.
    rewrite (Z.mod_small (_ * n)) by nia.
    assert (0 <= x mod 2 ^ 32 * n / 2 ^ 32 < n) as Hq.
    { split; [apply Z.div_pos; nia|].
      apply Z.div_lt_upper_bound; nia. }
    rewrite Z.mod_small by lia. lia.
  - pose proof (Z.mod_pos_bound
      ((x mod 2 ^ 32 * (n mod 2 ^ 64)) mod 2 ^ 64 / 2 ^ 32) (2 ^ 32) ltac:(lia)).
    lia.
Qed.

(** For a table shorter than [2^32] nothing wraps in [reduce]: it is the
    multiply-shift reduction of the low 32 bits of [x]. *)
Lemma reduce_low32 x n :
  0 <= n < 2 ^ 32 -> reduce x n = (x mod 2 ^ 32) * n / 2 ^ 32.
Proof.
  intros Hn. unfold reduce, uint32, uint64.
  rewrite Z.shiftr_div_pow2 by lia.
  pose proof (Z.mod_pos_bound x (2 ^ 32) ltac:(lia)) as Hx.
  rewrite (Z.mod_small n) by lia.
  rewrite (Z.mod_small (_ * n)) by nia.
  apply Z.mod_small. split; [apply Z.div_pos; nia|].
  apply Z.div_lt_upper_bound; nia.
Qed.

(** In general the product wraps around at [2^64]; the final conversion to
    [uint32] cuts nothing off. *)
Lemma reduce_wrap x n :
  reduce x n = uint64 (uint32 x * uint64 n) / 2 ^ 32.
Proof.
  unfold reduce. rewrite Z.shiftr_div_pow2 by lia.
  set (y := uint64 (uint32 x * uint64 n)).
  assert (0 <= y < 2 ^ 64) as Hy by (apply Z.mod_pos_bound; lia).
  unfold uint32. apply Z.mod_small.
  split; [apply Z.div_pos; lia|]. apply Z.div_lt_upper_bound; lia.
Qed.

Lemma partition_of_mod h : Z.of_nat (fin_to_nat (partition_of h)) = h mod 6.
Proof.
  unfold partition_of. pose proof (Z.mod_pos_bound h 6 ltac:(lia)) as Hr.
  set (r := h mod 6) in *.
  assert (r = 0 ∨ r = 1 ∨ r = 2 ∨ r = 3 ∨ r = 4 ∨ r = 5) as Hcases by lia.
  destruct Hcases as [->|[->|[->|[->|[->| ->]]]]]; reflexivity.
Qed.

Lemma index_Returned {A} (l : list A) i a :
  index l i = Returned a <-> 0 <= i ∧ l !! Z.to_nat i = Some a.
Proof.
  unfold index. destruct (Z.ltb_spec i 0).
  - split; [done|lia].
  - destruct (l !! Z.to_nat i); split; intros H'; try done.
    + by inversion H'.
    + destruct H' as [_ H']. by inversion H'.
    + by destruct H'.
Qed.

Lemma index_in_range {A} (l : list A) i :
  0 <= i < len l -> ∃ a, index l i = Returned a.
Proof.
  unfold len. intros Hi. destruct (lookup_lt_is_Some_2 l (Z.to_nat i)) as [a Ha]; [lia|].
  exists a. apply index_Returned. split; [lia|done].
Qed.

(** From here on the integer operations are used through the lemmas above. *)
#[local] Opaque reduce wrap64.

(** ** Order on keys and on [elementsByCountDescending] *)

Lemma string_compare_refl s : String.compare s s = Eq.
Proof.
  induction s as [|c s IH]; simpl; [done|].
  unfold Ascii.compare. by rewrite N.compare_refl.
Qed.

Lemma string_compare_lt_trans s1 s2 s3 :
  String.compare s1 s2 = Lt -> String.compare s2 s3 = Lt ->
  String.compare s1 s3 = Lt.
Proof.
  revert s2 s3. induction s1 as [|c1 s1 IH]; intros [|c2 s2] [|c3 s3];
    simpl; try done.
  unfold Ascii.compare.
  destruct (N.compare_spec (N_of_ascii c1) (N_of_ascii c2)) as [E12|L12|G12];
    try done;
  destruct (N.compare_spec (N_of_ascii c2) (N_of_ascii c3)) as [E23|L23|G23];
    try done; intros H12 H23.
  - rewrite E12, E23, N.compare_refl. eauto.
  - rewrite E12. by apply N.compare_lt_iff in L23 as ->.
  - rewrite <- E23. by apply N.compare_lt_iff in L12 as ->.
  - assert (N_of_ascii c1 < N_of_ascii c3)%N as L13 by lia.
    by apply N.compare_lt_iff in L13 as ->.
Qed.

Lemma string_ltb_asym a b : String.ltb a b = true -> String.ltb b a = false.
Proof.
  unfold String.ltb. rewrite (String.compare_antisym b a).
  by destruct (String.compare a b).
Qed.

Lemma string_ltb_irrefl a : String.ltb a a = false.
Proof. unfold String.ltb. by rewrite string_compare_refl. Qed.

Lemma string_ltb_total a b :
  a ≠ b -> String.ltb a b = true ∨ String.ltb b a = true.
Proof.
  intros Hne. unfold String.ltb. rewrite (String.compare_antisym b a).
  destruct (String.compare a b) eqn:E; simpl; auto.
  by apply String.compare_eq_iff in E.
Qed.

Lemma string_not_ltb_trans a b c :
  String.ltb b a = false -> String.ltb c b = false -> String.ltb c a = false.
Proof.
  unfold String.ltb.
  rewrite (String.compare_antisym b a), (String.compare_antisym c b),
    (String.compare_antisym c a).
  destruct (String.compare a b) eqn:Eab; simpl; try done;
  destruct (String.compare b c) eqn:Ebc; simpl; try done; intros _ _.
  - apply String.compare_eq_iff in Eab, Ebc. subst.
    by rewrite string_compare_refl.
  - apply String.compare_eq_iff in Eab. subst. by rewrite Ebc.
  - apply String.compare_eq_iff in Ebc. subst. by rewrite Eab.
  - by rewrite (string_compare_lt_trans _ _ _ Eab Ebc).
Qed.

(** [byCount_le] spelled out: descending counts, ties by ascending key. *)
Lemma byCount_le_spec a b :
  byCount_le a b <->
  Count b < Count a ∨ (Count a = Count b ∧ String.ltb (Key b) (Key a) = false).
Proof.
  unfold byCount_le, byCount_Less.
  rewrite orb_false_iff, andb_false_iff, Z.ltb_ge, Z.eqb_neq.
  destruct (String.ltb (Key b) (Key a)).
  - split; [intros [? [?|?]]; [left; lia|done]|].
    intros [?|[? ?]]; [|done]. split; [lia|left; lia].
  - split; [intros [? _]; lia|].
    intros [?|[? _]]; (split; [lia|by right]).
Qed.

#[global] Instance byCount_le_trans : Transitive byCount_le.
Proof.
  intros a b c. rewrite !byCount_le_spec.
  intros [?|[? Hab]] [?|[? Hbc]]; try (left; lia).
  right. split; [lia|]. eauto using string_not_ltb_trans.
Qed.

#[global] Instance byCount_le_total : Total byCount_le.
Proof.
  intros a b. rewrite !byCount_le_spec.
  destruct (Z.lt_trichotomy (Count a) (Count b)) as [?|[?|?]]; auto.
  destruct (String.ltb (Key b) (Key a)) eqn:E.
  - right. right. split; [lia|]. by apply string_ltb_asym.
  - left. right. done.
Qed.

Lemma byCount_le_antisym a b :
  byCount_le a b -> byCount_le b a -> Count a = Count b ∧ Key a = Key b.
Proof.
  rewrite !byCount_le_spec. intros [?|[? Hab]] [?|[? Hba]]; try lia.
  split; [done|]. destruct (decide (Key a = Key b)) as [|Hne]; [done|].
  destruct (string_ltb_total _ _ Hne); congruence.
Qed.

(** With pairwise different keys the order is strict. *)
Lemma byCount_le_strict a b :
  byCount_le a b -> Key a ≠ Key b -> byCount_Less a b = true.
Proof.
  rewrite byCount_le_spec. unfold byCount_Less. intros [?|[-> Hab]] Hne.
  - apply orb_true_iff. left. by apply Z.ltb_lt.
  - rewrite Z.eqb_refl, Z.ltb_irrefl. simpl.
    destruct (string_ltb_total _ _ Hne); congruence.
Qed.

Lemma sort_Sort_Permutation elts : sort_Sort elts ≡ₚ elts.
Proof. apply merge_sort_Permutation. Qed.

Lemma sort_Sort_sorted elts : StronglySorted byCount_le (sort_Sort elts).
Proof. apply StronglySorted_merge_sort; apply _. Qed.

(** The order of a slice of elements with pairwise different keys is
    fixed by [Less]: whatever rearrangement a sort returns, if it is sorted
    it is [sort_Sort]'s. *)
Lemma sort_Sort_unique elts elts' :
  NoDup (Key <$> elts) ->
  elts' ≡ₚ elts -> Sorted byCount_le elts' -> elts' = sort_Sort elts.
Proof.
  intros Hnd Hperm Hsorted.
  apply (Sorted_unique_strong byCount_le); [|done| |].
  - intros x1 x2 Hx1 Hx2 H12 H21.
    destruct (byCount_le_antisym _ _ H12 H21) as [_ HK].
    rewrite Hperm in Hx1. rewrite sort_Sort_Permutation in Hx2.
    apply list_elem_of_lookup in Hx1 as [i1 Hi1].
    apply list_elem_of_lookup in Hx2 as [i2 Hi2].
    assert (i1 = i2) as ->; [|congruence].
    eapply NoDup_lookup; [done|..]; rewrite list_lookup_fmap.
    + by rewrite Hi1.
    + rewrite Hi2. simpl. by rewrite HK.
  - apply Sorted_merge_sort; apply _.
  - by rewrite sort_Sort_Permutation.
Qed.

(** ** The heap routines keep the slot map in step with the array *)

Lemma swap_lookup {A} (l : list A) i j x y t :
  l !! i = Some x -> l !! j = Some y ->
  <[j:=x]> (<[i:=y]> l) !! t =
    if decide (t = j) then Some x
    else if decide (t = i) then Some y else l !! t.
Proof.
  intros Hi Hj.
  pose proof (lookup_lt_Some _ _ _ Hi). pose proof (lookup_lt_Some _ _ _ Hj).
  case_decide as Hj'; [subst|].
  { by rewrite list_lookup_insert_eq by (by rewrite length_insert). }
  rewrite list_lookup_insert_ne by done.
  case_decide as Hi'; [subst|].
  - by rewrite list_lookup_insert_eq.
  - by rewrite list_lookup_insert_ne.
Qed.

Lemma keys_wf_key_inj tk a b ea eb :
  keys_wf tk -> tk_elts tk !! a = Some ea -> tk_elts tk !! b = Some eb ->
  Key ea = Key eb -> a = b.
Proof.
  intros [Hnd _] Ha Hb HK.
  eapply NoDup_lookup; [exact Hnd|..]; rewrite list_lookup_fmap.
  - by rewrite Ha.
  - rewrite Hb. simpl. by rewrite HK.
Qed.

Lemma Swap_Permutation tk i j : tk_elts (Swap tk i j) ≡ₚ tk_elts tk.
Proof.
  unfold Swap.
  destruct (tk_elts tk !! i) as [ei|] eqn:Hi; [|done].
  destruct (tk_elts tk !! j) as [ej|] eqn:Hj; [|done].
  simpl. by apply Permutation_insert_swap.
Qed.

Lemma Swap_wf tk i j : keys_wf tk -> keys_wf (Swap tk i j).
Proof.
  intros Hwf. pose proof Hwf as [Hnd Hm]. unfold Swap.
  destruct (tk_elts tk !! i) as [ei|] eqn:Hi; [|done].
  destruct (tk_elts tk !! j) as [ej|] eqn:Hj; [|done].
  split; simpl.
  - rewrite !list_fmap_insert.
    rewrite Permutation_insert_swap; [done|..]; rewrite list_lookup_fmap.
    + by rewrite Hi.
    + by rewrite Hj.
  - intros k z. rewrite !lookup_insert.
    setoid_rewrite (swap_lookup _ _ _ _ _ _ Hi Hj).
    pose proof (λ a b ea eb, keys_wf_key_inj tk a b ea eb Hwf) as Hinj.
    case_decide as Hk1; [subst k|case_decide as Hk2; [subst k|]].
    + split.
      * intros [= <-]. exists j, ei. by rewrite decide_True.
      * intros (t & e & -> & Ht & HK). do 2 f_equal.
        repeat case_decide; simplify_eq; naive_solver.
    + split.
      * intros [= <-]. exists i, ej.
        rewrite decide_False by (intros ->; congruence).
        by rewrite decide_True.
      * intros (t & e & -> & Ht & HK). do 2 f_equal.
        repeat case_decide; simplify_eq; naive_solver.
    + rewrite Hm. split; intros (t & e & -> & Ht & HK); exists t, e.
      * repeat case_decide; simplify_eq; naive_solver.
      * repeat case_decide; simplify_eq; naive_solver.
Qed.

Lemma up_loop_Permutation fuel tk j :
  tk_elts (up_loop fuel tk j) ≡ₚ tk_elts tk.
Proof.
  revert tk j. induction fuel as [|fuel IH]; intros tk j; simpl; [done|].
  destruct (_ || _); [done|]. by rewrite IH, Swap_Permutation.
Qed.

Lemma up_loop_wf fuel tk j : keys_wf tk -> keys_wf (up_loop fuel tk j).
Proof.
  revert tk j. induction fuel as [|fuel IH]; intros tk j Hwf; simpl; [done|].
  destruct (_ || _); [done|]. by apply IH, Swap_wf.
Qed.

Lemma down_loop_Permutation fuel tk i n :
  tk_elts (down_loop fuel tk i n).1 ≡ₚ tk_elts tk.
Proof.
  revert tk i. induction fuel as [|fuel IH]; intros tk i; simpl; [done|].
  destruct (_ <=? _)%nat; [done|].
  destruct (negb _); [done|]. by rewrite IH, Swap_Permutation.
Qed.

Lemma down_loop_wf fuel tk i n :
  keys_wf tk -> keys_wf (down_loop fuel tk i n).1.
Proof.
  revert tk i. induction fuel as [|fuel IH]; intros tk i Hwf; simpl; [done|].
  destruct (_ <=? _)%nat; [done|].
  destruct (negb _); [done|]. by apply IH, Swap_wf.
Qed.

(** The loops stop on their own: more iterations than [S j] (for [up]) or
    [n - i] (for [down]) change nothing. *)
Lemma up_loop_fuel f1 f2 tk j :
  (j < f1)%nat -> (j < f2)%nat -> up_loop f1 tk j = up_loop f2 tk j.
Proof.
  revert f2 tk j. induction f1 as [|f1 IH]; intros f2 tk j H1 H2; [lia|].
  destruct f2 as [|f2]; [lia|]. simpl.
  destruct (Nat.eqb_spec ((j - 1) / 2) j) as [|Hne]; simpl; [done|].
  destruct (negb _); [done|].
  assert ((j - 1) / 2 <= j - 1)%nat.
  { apply Nat.Div0.div_le_upper_bound. lia. }
  apply IH; lia.
Qed.

Lemma up_fuel_enough fuel tk j :
  (j < fuel)%nat -> up_loop fuel tk j = up tk j.
Proof. intros. apply up_loop_fuel; lia. Qed.

Lemma down_loop_fuel f1 f2 tk i n :
  (n - i <= f1)%nat -> (n - i <= f2)%nat ->
  down_loop f1 tk i n = down_loop f2 tk i n.
Proof.
  revert f2 tk i. induction f1 as [|f1 IH]; intros f2 tk i H1 H2.
  - destruct f2 as [|f2]; simpl; [done|].
    destruct (Nat.leb_spec n (2 * i + 1)); [done|lia].
  - destruct f2 as [|f2]; simpl.
    + destruct (Nat.leb_spec n (2 * i + 1)); [done|lia].
    + destruct (Nat.leb_spec n (2 * i + 1)); [done|].
      destruct (negb _); [done|].
      destruct (_ && _); apply IH; lia.
Qed.

Lemma down_fuel_enough fuel tk i n :
  (n - i <= fuel)%nat -> down_loop fuel tk i n = down_loop n tk i n.
Proof. intros. apply down_loop_fuel; lia. Qed.

Lemma up_Permutation tk j : tk_elts (up tk j) ≡ₚ tk_elts tk.
Proof. apply up_loop_Permutation. Qed.

Lemma up_wf tk j : keys_wf tk -> keys_wf (up tk j).
Proof. apply up_loop_wf. Qed.

Lemma down_Permutation tk i n : tk_elts (down tk i n).1 ≡ₚ tk_elts tk.
Proof.
  unfold down. pose proof (down_loop_Permutation n tk i n) as Hd.
  by destruct (down_loop _ _ _ _).
Qed.

Lemma down_wf tk i n : keys_wf tk -> keys_wf (down tk i n).1.
Proof.
  intros Hwf. unfold down. pose proof (down_loop_wf n tk i n Hwf) as Hd.
  by destruct (down_loop _ _ _ _).
Qed.

Lemma heap_Fix_Permutation tk i : tk_elts (heap_Fix tk i) ≡ₚ tk_elts tk.
Proof.
  unfold heap_Fix.
  pose proof (down_Permutation tk i (length (tk_elts tk))) as Hd.
  destruct (down _ _ _) as [tk' [|]]; [done|].
  by rewrite up_Permutation.
Qed.

Lemma heap_Fix_wf tk i : keys_wf tk -> keys_wf (heap_Fix tk i).
Proof.
  intros Hwf. unfold heap_Fix.
  pose proof (down_wf tk i (length (tk_elts tk)) Hwf) as Hd.
  destruct (down _ _ _) as [tk' [|]]; [done|].
  by apply up_wf.
Qed.

Lemma Push_wf tk e :
  keys_wf tk -> Key e ∉ Key <$> tk_elts tk -> keys_wf (Push tk e).
Proof.
  intros [Hnd Hm] Hfresh. split; simpl.
  - rewrite fmap_app. simpl. apply NoDup_app. split; [done|].
    split; [|apply NoDup_singleton].
    intros k Hk ->%list_elem_of_singleton. done.
  - intros k z. rewrite lookup_insert. case_decide as Hk; [subst k|].
    + split.
      * intros [= <-]. exists (length (tk_elts tk)), e.
        split; [done|]. split; [|done]. by rewrite lookup_app_r, Nat.sub_diag.
      * intros (t & e' & -> & Ht & HK). do 2 f_equal.
        apply lookup_snoc_Some in Ht as [[Hlt Ht]|[? ?]]; [|done].
        exfalso. apply Hfresh. rewrite <- HK.
        apply list_elem_of_fmap. exists e'. split; [done|].
        by eapply list_elem_of_lookup_2.
    + rewrite Hm. split; intros (t & e' & -> & Ht & HK); exists t, e'.
      * split; [done|]. split; [|done]. by apply lookup_app_l_Some.
      * split; [done|]. split; [|done].
        apply lookup_snoc_Some in Ht as [[Hlt Ht]|[? ?]]; [done|].
        congruence.
Qed.

Lemma heap_Push_Permutation tk e :
  tk_elts (heap_Push tk e) ≡ₚ e :: tk_elts tk.
Proof.
  unfold heap_Push. rewrite up_Permutation. simpl.
  by rewrite Permutation_app_comm.
Qed.

Lemma heap_Push_wf tk e :
  keys_wf tk -> Key e ∉ Key <$> tk_elts tk -> keys_wf (heap_Push tk e).
Proof. intros. unfold heap_Push. by apply up_wf, Push_wf. Qed.

(** ** The slot map in [Insert] *)

Lemma keys_wf_tracked tk x idx :
  keys_wf tk -> tk_m tk !! x = Some idx ->
  ∃ e, 0 <= idx ∧ tk_elts tk !! Z.to_nat idx = Some e ∧ Key e = x.
Proof.
  intros [_ Hm] (t & e & -> & Ht & HK)%Hm. exists e.
  rewrite Nat2Z.id. split; [lia|done].
Qed.

Lemma keys_wf_untracked tk x :
  keys_wf tk -> tk_m tk !! x = None -> x ∉ Key <$> tk_elts tk.
Proof.
  intros [_ Hm] Hx (e & -> & [t Ht]%list_elem_of_lookup)%list_elem_of_fmap.
  assert (tk_m tk !! Key e = Some (Z.of_nat t)) as Hs by (apply Hm; eauto).
  congruence.
Qed.

Lemma slots_fst (elts : list Element) :
  (imap (λ i e, (Key e, Z.of_nat i)) elts).*1 = Key <$> elts.
Proof. rewrite fmap_imap. exact (imap_const Key elts). Qed.

(** The slot map is determined by the element array. *)
Lemma keys_wf_map tk :
  keys_wf tk ->
  tk_m tk = list_to_map (imap (λ i e, (Key e, Z.of_nat i)) (tk_elts tk)).
Proof.
  intros [Hnd Hm]. apply map_eq. intros k. apply option_eq. intros z.
  rewrite Hm, <- elem_of_list_to_map by (by rewrite slots_fst).
  rewrite elem_of_lookup_imap. naive_solver.
Qed.

Lemma keys_wf_size tk : keys_wf tk -> size (tk_m tk) = length (tk_elts tk).
Proof.
  intros Hwf. rewrite (keys_wf_map tk Hwf). destruct Hwf as [Hnd _].
  rewrite <- (length_fmap Key (tk_elts tk)).
  rewrite <- (size_dom (D := gset string)), dom_list_to_map_L, slots_fst.
  by rewrite size_list_to_set.
Qed.

(** [tk.elts[idx].Count += count]: the key at the slot stays. *)
Lemma keys_wf_update tk i e0 e :
  keys_wf tk -> tk_elts tk !! i = Some e0 -> Key e = Key e0 ->
  keys_wf {| tk_m := tk_m tk; tk_elts := <[i:=e]> (tk_elts tk) |}.
Proof.
  intros [Hnd Hm] Hi HK. pose proof (lookup_lt_Some _ _ _ Hi).
  split; simpl.
  - rewrite list_fmap_insert, HK, list_insert_id; [done|].
    by rewrite list_lookup_fmap, Hi.
  - intros k z. rewrite Hm.
    split; intros (t & e' & -> & Ht & HK'); exists t.
    + destruct (decide (t = i)) as [->|].
      * exists e. rewrite list_lookup_insert_eq by done. naive_solver.
      * exists e'. by rewrite list_lookup_insert_ne.
    + destruct (decide (t = i)) as [->|].
      * exists e0. rewrite list_lookup_insert_eq in Ht by done. naive_solver.
      * exists e'. by rewrite list_lookup_insert_ne in Ht.
Qed.

(** The eviction: [tk.elts[0] = e; delete(tk.m, min.Key); tk.m[x] = 0]. *)
Lemma keys_wf_replace_min tk minElement e :
  keys_wf tk -> tk_elts tk !! 0%nat = Some minElement ->
  tk_m tk !! Key e = None ->
  keys_wf {| tk_m := <[Key e := 0]> (delete (Key minElement) (tk_m tk));
             tk_elts := <[0%nat:=e]> (tk_elts tk) |}.
Proof.
  intros Hwf H0 Hx. pose proof (keys_wf_untracked _ _ Hwf Hx) as Hfresh.
  pose proof (λ a b ea eb, keys_wf_key_inj tk a b ea eb Hwf) as Hinj.
  destruct Hwf as [Hnd Hm].
  destruct (tk_elts tk) as [|e0 elts] eqn:Helts; [done|].
  injection H0 as ->. simpl in *.
  apply NoDup_cons in Hnd as [Hmin Hnd].
  apply not_elem_of_cons in Hfresh as [Hne Hfresh].
  split; simpl.
  - apply NoDup_cons. done.
  - intros k z. rewrite lookup_insert. case_decide as Hk; [subst k|].
    + split.
      * intros [= <-]. by exists 0%nat, e.
      * intros ([|t] & e' & -> & Ht & HK); [done|]. simpl in Ht.
        exfalso. apply Hfresh. rewrite <- HK. apply list_elem_of_fmap.
        exists e'. split; [done|]. by eapply list_elem_of_lookup_2.
    + rewrite lookup_delete. case_decide as Hk'; [subst k|].
      * split; [done|].
        intros ([|t] & e' & -> & Ht & HK); simpl in Ht; [naive_solver|].
        exfalso. apply Hmin. rewrite <- HK. apply list_elem_of_fmap.
        exists e'. split; [done|]. by eapply list_elem_of_lookup_2.
      * rewrite Hm.
        split; intros ([|t] & e' & -> & Ht & HK); simpl in Ht;
          try naive_solver; by exists (S t), e'.
Qed.

(** ** Invariants of the sketch *)

Lemma Returned_inj {A} (a a' : A) : Returned a = Returned a' -> a = a'.
Proof. by intros [= ->]. Qed.

Lemma Returned_pair {A B} (a a' : A) (b b' : B) :
  Returned (a, b) = Returned (a', b') -> a = a' ∧ b = b'.
Proof. by intros [= -> ->]. Qed.

Lemma bind_Returned {A B} (o : outcome A) (k : A -> outcome B) b :
  (o ≫= k) = Returned b <-> ∃ a, o = Returned a ∧ k a = Returned b.
Proof. destruct o; simpl; naive_solver. Qed.

Lemma len_insert {A} (l : list A) i x : len (<[i:=x]> l) = len l.
Proof. unfold len. by rewrite length_insert. Qed.

Lemma len_nonneg {A} (l : list A) : 0 <= len l.
Proof. unfold len. lia. Qed.

(** *** Parts of [Merge] that do not depend on the hash *)

Lemma trim_take n elts :
  0 <= n -> trim n elts = Returned (take (Z.to_nat n) elts).
Proof.
  intros Hn. unfold trim, len.
  destruct (Z.ltb_spec n (Z.of_nat (length elts))).
  - destruct (Z.ltb_spec n 0); [lia|done].
  - rewrite take_ge by lia. done.
Qed.

Lemma trim_Returned n elts elts' :
  trim n elts = Returned elts' ->
  elts' `sublist_of` elts ∧ (0 <= n -> len elts' <= n) ∧
  (len elts <= n -> elts' = elts).
Proof.
  unfold trim, len.
  destruct (Z.ltb_spec n (Z.of_nat (length elts))).
  - destruct (Z.ltb_spec n 0); [done|]. intros [= <-].
    split; [apply sublist_take|]. rewrite length_take. split; lia.
  - intros [= <-]. split; [done|]. split; [lia|done].
Qed.

Lemma add64_zip_int l k : Forall is_int (zip_with add64 l k).
Proof.
  revert k. induction l as [|a l IH]; intros [|b k]; simpl; constructor.
  - apply add64_int.
  - apply IH.
Qed.

Lemma add_alphas_Returned alphas o_alphas alphas' :
  add_alphas alphas o_alphas = Returned alphas' ->
  length alphas' = length alphas ∧
  (Forall is_int alphas -> Forall is_int alphas').
Proof.
  unfold add_alphas.
  destruct (Nat.ltb_spec (length alphas) (length o_alphas)); [done|].
  intros [= <-]. split.
  - rewrite length_app, length_zip_with, length_take, length_drop. lia.
  - intros Hal. apply Forall_app. split; [apply add64_zip_int|].
    by apply Forall_drop.
Qed.

Lemma add_alphas_same_length alphas o_alphas :
  length alphas = length o_alphas ->
  add_alphas alphas o_alphas = Returned (zip_with add64 alphas o_alphas).
Proof.
  intros Hl. unfold add_alphas.
  destruct (Nat.ltb_spec (length alphas) (length o_alphas)); [lia|].
  rewrite <- Hl, take_ge, drop_ge, app_nil_r by lia. done.
Qed.

(** Building the heap of a merged partition: [heap.Push] of each element
    in turn. *)
Lemma fold_heap_Push elts tk :
  keys_wf tk -> NoDup (Key <$> (tk_elts tk ++ elts)) ->
  keys_wf (fold_left heap_Push elts tk) ∧
  tk_elts (fold_left heap_Push elts tk) ≡ₚ tk_elts tk ++ elts.
Proof.
  revert tk. induction elts as [|e elts IH]; intros tk Hwf Hnd; simpl.
  { by rewrite app_nil_r. }
  assert (Key e ∉ Key <$> tk_elts tk) as Hfresh.
  { rewrite fmap_app in Hnd. apply NoDup_app in Hnd as (_ & Hd & _).
    intros Hin. apply (Hd _ Hin). simpl. left. }
  destruct (IH (heap_Push tk e)) as [Hwf' Hperm].
  - by apply heap_Push_wf.
  - rewrite heap_Push_Permutation. simpl.
    rewrite fmap_app in *. simpl in *.
    by rewrite <- Permutation_middle in Hnd.
  - split; [done|]. rewrite Hperm, heap_Push_Permutation. simpl.
    by rewrite <- Permutation_middle.
Qed.

Section SketchProperties.

Variable H : string -> Z.

Lemma New_wf n s : New n = Returned s -> stream_wf H s.
Proof.
  unfold New. destruct (_ || _) eqn:Hn; [done|]. intros [= <-].
  apply orb_false_iff in Hn as [Hn1%Z.ltb_ge Hn2%Z.ltb_ge].
  split; [done|]. split; [done|]. cbn [s_n s_p s_alphas].
  split; [unfold len; rewrite length_replicate; lia|].
  split; [apply Forall_replicate, is_int_0|].
  intros i.
  change [# empty_keys; empty_keys; empty_keys; empty_keys; empty_keys;
            empty_keys] with (vreplicate nPartitions empty_keys).
  rewrite vlookup_replicate. unfold keys_wf. cbn [empty_keys tk_m tk_elts].
  split; [|split; [unfold len; simpl; lia|split; constructor]].
  split; [apply NoDup_nil_2|]. intros k z. rewrite lookup_empty.
  split; [done|]. by intros (t & e & _ & Ht & _).
Qed.

(** Replacing one partition and the error table keeps the invariant if
    the new parts satisfy it. *)
Lemma stream_wf_put s i tk alphas' :
  stream_wf H s ->
  keys_wf tk -> len (tk_elts tk) <= s_n s ->
  Forall elt_int (tk_elts tk) -> Forall (routed H i) (tk_elts tk) ->
  len alphas' = len (s_alphas s) -> Forall is_int alphas' ->
  stream_wf H {| s_n := s_n s; s_p := vinsert i tk (s_p s);
                 s_alphas := alphas' |}.
Proof.
  intros (Hn0 & Hn6 & Hlen & Hints & Hp) Hwf Hcap Hei Hrt Hlen' Hints'.
  split; [done|]. split; [done|]. cbn [s_n s_p s_alphas].
  split; [lia|]. split; [done|].
  intros j. destruct (decide (i = j)) as [<-|Hne].
  - by rewrite vlookup_insert.
  - rewrite vlookup_insert_ne by done. apply Hp.
Qed.

Lemma bucket_range s x :
  stream_wf H s -> 1 <= s_n s ->
  0 <= reduce (Hash64Str H x) (len (s_alphas s)) < len (s_alphas s).
Proof. intros (_ & _ & Hlen & _) Hn. apply reduce_range. lia. Qed.

(** The four paths through [Insert]: the key is tracked; it is not and
    the partition has room; the partition is full and the bucket floor is
    raised; the partition is full and its minimum is replaced. *)
Lemma Insert_cases x count s e s' :
  Insert H x count s = Returned (e, s') ->
  let i := partition_of (Hash64Str H x) in
  let tk := s_p s !!! i in
  let xhash := reduce (Hash64Str H x) (len (s_alphas s)) in
  (∃ idx e0,
      tk_m tk !! x = Some idx ∧ 0 <= idx ∧
      tk_elts tk !! Z.to_nat idx = Some e0 ∧
      e = {| Key := Key e0; Count := add64 (Count e0) count;
             Error := Error e0 |} ∧
      s' = {| s_n := s_n s;
              s_p := vinsert i
                       (heap_Fix {| tk_m := tk_m tk;
                                    tk_elts := <[Z.to_nat idx:=e]> (tk_elts tk) |}
                                 (Z.to_nat idx)) (s_p s);
              s_alphas := s_alphas s |})
  ∨ (tk_m tk !! x = None ∧ len (tk_elts tk) < s_n s ∧
     e = {| Key := x; Count := count; Error := 0 |} ∧
     s' = {| s_n := s_n s; s_p := vinsert i (heap_Push tk e) (s_p s);
             s_alphas := s_alphas s |})
  ∨ (∃ a minElement,
      tk_m tk !! x = None ∧ s_n s <= len (tk_elts tk) ∧ 0 <= xhash ∧
      s_alphas s !! Z.to_nat xhash = Some a ∧
      tk_elts tk !! 0%nat = Some minElement ∧
      add64 a count < Count minElement ∧
      e = {| Key := x; Count := add64 a count; Error := a |} ∧
      s' = {| s_n := s_n s; s_p := s_p s;
              s_alphas := <[Z.to_nat xhash:=add64 a count]> (s_alphas s) |})
  ∨ (∃ a minElement a1,
      let mkhash := reduce (Hash64Str H (Key minElement)) (len (s_alphas s)) in
      let alphas1 := <[Z.to_nat mkhash:=Count minElement]> (s_alphas s) in
      tk_m tk !! x = None ∧ s_n s <= len (tk_elts tk) ∧ 0 <= xhash ∧
      s_alphas s !! Z.to_nat xhash = Some a ∧
      tk_elts tk !! 0%nat = Some minElement ∧
      Count minElement <= add64 a count ∧
      0 <= mkhash ∧ is_Some (s_alphas s !! Z.to_nat mkhash) ∧
      alphas1 !! Z.to_nat xhash = Some a1 ∧
      e = {| Key := x; Count := add64 a1 count; Error := a1 |} ∧
      s' = {| s_n := s_n s;
              s_p := vinsert i
                       (heap_Fix {| tk_m := <[x:=0]> (delete (Key minElement) (tk_m tk));
                                    tk_elts := <[0%nat:=e]> (tk_elts tk) |} 0)
                       (s_p s);
              s_alphas := alphas1 |}).
Proof.
  unfold Insert. intros Hins. cbv zeta.
  destruct (tk_m _ !! x) as [idx|] eqn:Hlook.
  - apply bind_Returned in Hins as (e0 & [? He0]%index_Returned & Hins).
    apply Returned_pair in Hins as [<- <-].
    left. by exists idx, e0.
  - right. destruct (len _ <? s_n s) eqn:Hlt.
    + left. apply Returned_pair in Hins as [<- <-]. by apply Z.ltb_lt in Hlt.
    + right. apply Z.ltb_ge in Hlt.
      apply bind_Returned in Hins as (a & [? Ha]%index_Returned & Hins).
      apply bind_Returned in Hins as (mn & [? Hmn]%index_Returned & Hins).
      change (Z.to_nat 0) with 0%nat in Hmn.
      destruct (add64 a count <? Count mn) eqn:Hflt.
      * left. apply Returned_pair in Hins as [<- <-]. apply Z.ltb_lt in Hflt.
        exists a, mn. auto 10.
      * right. apply Z.ltb_ge in Hflt.
        apply bind_Returned in Hins as (a0 & [? Ha0]%index_Returned & Hins).
        apply bind_Returned in Hins as (a1 & [? Ha1]%index_Returned & Hins).
        apply Returned_pair in Hins as [<- <-]. exists a, mn, a1.
        cbv zeta. eauto 15.
Qed.

Lemma Insert_wf x count s e s' :
  stream_wf H s -> is_int count ->
  Insert H x count s = Returned (e, s') -> stream_wf H s'.
Proof.
  intros Hwf Hc Hins. pose proof Hwf as (Hn0 & Hn6 & Hlen & Hints & Hp).
  apply Insert_cases in Hins. cbv zeta in Hins.
  set (i := partition_of (Hash64Str H x)) in *.
  destruct (Hp i) as (Hkwf & Hcap & Hei & Hrt).
  destruct Hins as [(idx & e0 & Hlook & Hidx & He0 & -> & ->)
    |[(Hlook & Hroom & -> & ->)
    |[(a & mn & Hlook & Hfull & Hx0 & Ha & Hmn & Hlt & -> & ->)
    |(a & mn & a1 & Hlook & Hfull & Hx0 & Ha & Hmn & Hge & Hm0 & Hma & Ha1
        & -> & ->)]]].
  - (* the key is tracked *)
    apply stream_wf_put; try assumption.
    + apply heap_Fix_wf. by eapply keys_wf_update.
    + unfold len. rewrite heap_Fix_Permutation. cbn [tk_elts].
      rewrite length_insert. apply Hcap.
    + rewrite heap_Fix_Permutation. cbn [tk_elts].
      apply Forall_insert; [assumption|].
      split; cbn [Count Error]; [apply add64_int|].
      apply (Forall_lookup_1 _ _ _ _ Hei He0).
    + rewrite heap_Fix_Permutation. cbn [tk_elts].
      apply Forall_insert; [assumption|].
      apply (Forall_lookup_1 _ _ _ _ Hrt He0).
    + reflexivity.
  - (* free space *)
    apply stream_wf_put; try assumption.
    + apply heap_Push_wf; [assumption|]. by apply keys_wf_untracked.
    + unfold len in *. rewrite heap_Push_Permutation. cbn [length]. lia.
    + rewrite heap_Push_Permutation. constructor; [|assumption].
      split; cbn [Count Error]; [assumption|apply is_int_0].
    + rewrite heap_Push_Permutation. constructor; [|assumption]. reflexivity.
    + reflexivity.
  - (* the bucket floor is raised *)
    rewrite <- (vlookup_insert_self i (s_p s)).
    apply stream_wf_put; try assumption.
    + apply len_insert.
    + apply Forall_insert; [assumption|apply add64_int].
  - (* the minimum is replaced *)
    assert (Forall is_int (<[Z.to_nat (reduce (Hash64Str H (Key mn))
              (len (s_alphas s))):=Count mn]> (s_alphas s))) as Hal.
    { apply Forall_insert; [assumption|].
      apply (Forall_lookup_1 _ _ _ _ Hei Hmn). }
    apply stream_wf_put; try assumption.
    + apply heap_Fix_wf.
      by apply (keys_wf_replace_min _ mn
                  {| Key := x; Count := add64 a1 count; Error := a1 |}).
    + unfold len. rewrite heap_Fix_Permutation. cbn [tk_elts].
      rewrite length_insert. apply Hcap.
    + rewrite heap_Fix_Permutation. cbn [tk_elts].
      apply Forall_insert; [assumption|].
      split; cbn [Count Error]; [apply add64_int|].
      apply (Forall_lookup_1 _ _ _ _ Hal Ha1).
    + rewrite heap_Fix_Permutation. cbn [tk_elts].
      apply Forall_insert; [assumption|]. reflexivity.
    + apply len_insert.
Qed.

(** The other paths of [Insert] and [Estimate], as equations. *)
Lemma Insert_admit x count s :
  let i := partition_of (Hash64Str H x) in
  let e := {| Key := x; Count := count; Error := 0 |} in
  tk_m (s_p s !!! i) !! x = None ->
  len (tk_elts (s_p s !!! i)) < s_n s ->
  Insert H x count s =
    Returned (e, {| s_n := s_n s;
                    s_p := vinsert i (heap_Push (s_p s !!! i) e) (s_p s);
                    s_alphas := s_alphas s |}).
Proof.
  intros i e Hx Hroom. unfold Insert. fold i. rewrite Hx.
  by apply Z.ltb_lt in Hroom as ->.
Qed.

Lemma Insert_filter x count s a minElement :
  let i := partition_of (Hash64Str H x) in
  let b := bucket_of H s x in
  tk_m (s_p s !!! i) !! x = None ->
  s_n s <= len (tk_elts (s_p s !!! i)) ->
  index (s_alphas s) b = Returned a ->
  index (tk_elts (s_p s !!! i)) 0 = Returned minElement ->
  add64 a count < Count minElement ->
  Insert H x count s =
    Returned ({| Key := x; Count := add64 a count; Error := a |},
              {| s_n := s_n s; s_p := s_p s;
                 s_alphas := <[Z.to_nat b:=add64 a count]> (s_alphas s) |}).
Proof.
  intros i b Hx Hfull Ha Hmin Hlt.
  unfold Insert. fold i. rewrite Hx.
  apply Z.ltb_ge in Hfull as ->.
  unfold bucket_of in b. fold b. rewrite Ha. cbn [mbind outcome_bind].
  rewrite Hmin. cbn [mbind outcome_bind].
  by apply Z.ltb_lt in Hlt as ->.
Qed.

Lemma Insert_other_partitions x count s e s' j :
  Insert H x count s = Returned (e, s') ->
  j ≠ partition_of (Hash64Str H x) ->
  s_p s' !!! j = s_p s !!! j ∧ s_n s' = s_n s.
Proof.
  intros Hins Hj. apply Insert_cases in Hins. cbv zeta in Hins.
  destruct Hins as [(idx & e0 & _ & _ & _ & _ & ->)
    |[(_ & _ & _ & ->)
    |[(a & mn & _ & _ & _ & _ & _ & _ & _ & ->)
    |(a & mn & a1 & _ & _ & _ & _ & _ & _ & _ & _ & _ & _ & ->)]]];
    cbn [s_p s_n]; rewrite ?vlookup_insert_ne by done; done.
Qed.

Lemma Estimate_untracked x s a :
  tk_m (s_p s !!! partition_of (Hash64Str H x)) !! x = None ->
  index (s_alphas s) (bucket_of H s x) = Returned a ->
  Estimate H x s = Returned ({| Key := x; Count := a; Error := a |}, s).
Proof.
  intros Hx Ha. unfold Estimate. rewrite Hx.
  unfold bucket_of in Ha. by rewrite Ha.
Qed.

Lemma heap_Push_empty e :
  heap_Push empty_keys e = {| tk_m := <[Key e:=0]> ∅; tk_elts := [e] |}.
Proof. reflexivity. Qed.

(** On a well-formed sketch with [n >= 1], [Insert] does not panic. *)
Lemma Insert_returns x count s :
  stream_wf H s -> 1 <= s_n s ->
  ∃ e s', Insert H x count s = Returned (e, s').
Proof.
  intros Hwf Hn1. pose proof Hwf as (Hn0 & Hn6 & Hlen & Hints & Hp).
  pose proof (bucket_range s x Hwf Hn1) as Hb.
  unfold Insert.
  set (i := partition_of (Hash64Str H x)).
  destruct (Hp i) as (Hkwf & Hcap & Hei & Hrt).
  destruct (tk_m _ !! x) as [idx|] eqn:Hlook.
  - destruct (keys_wf_tracked _ _ _ Hkwf Hlook) as (e0 & Hidx & He0 & _).
    rewrite (proj2 (index_Returned _ _ _) (conj Hidx He0)).
    cbn [mbind outcome_bind]. eauto.
  - destruct (len _ <? s_n s) eqn:Hroom; [eauto|]. apply Z.ltb_ge in Hroom.
    destruct (index_in_range (s_alphas s) _ Hb) as [a ->].
    assert (0 <= 0 < len (tk_elts (s_p s !!! i))) as Hne by lia.
    destruct (index_in_range _ _ Hne) as [mn ->].
    cbn [mbind outcome_bind].
    destruct (add64 a count <? Count mn); [eauto|].
    pose proof (bucket_range s (Key mn) Hwf Hn1) as Hmb.
    destruct (index_in_range (s_alphas s) _ Hmb) as [a0 ->].
    cbn [mbind outcome_bind].
    destruct (index_in_range
      (<[Z.to_nat (reduce (Hash64Str H (Key mn)) (len (s_alphas s))):=Count mn]>
         (s_alphas s)) (reduce (Hash64Str H x) (len (s_alphas s)))) as [a1 ->].
    { by rewrite len_insert. }
    cbn [mbind outcome_bind]. eauto.
Qed.

(** On a well-formed sketch with [n >= 1], [Estimate] does not panic. *)
Lemma Estimate_returns x s :
  stream_wf H s -> 1 <= s_n s -> ∃ e, Estimate H x s = Returned (e, s).
Proof.
  intros Hwf Hn1. pose proof Hwf as (Hn0 & Hn6 & Hlen & Hints & Hp).
  pose proof (bucket_range s x Hwf Hn1) as Hb.
  unfold Estimate.
  set (i := partition_of (Hash64Str H x)).
  destruct (Hp i) as (Hkwf & Hcap & Hei & Hrt).
  destruct (tk_m _ !! x) as [idx|] eqn:Hlook.
  - destruct (keys_wf_tracked _ _ _ Hkwf Hlook) as (e0 & Hidx & He0 & _).
    rewrite (proj2 (index_Returned _ _ _) (conj Hidx He0)).
    cbn [mbind outcome_bind]. eauto.
  - destruct (index_in_range (s_alphas s) _ Hb) as [a ->].
    cbn [mbind outcome_bind]. eauto.
Qed.

(** *** [Merge] *)

Lemma merge_key_Returned s_tk o_tk n o_alphas k e :
  merge_key H s_tk o_tk n o_alphas k = Returned (Some e) ->
  Key e = k ∧ elt_int e.
Proof.
  unfold merge_key. intros Hm.
  apply bind_Returned in Hm as (min1 & _ & Hm).
  destruct (tk_m s_tk !! k), (tk_m o_tk !! k).
  - apply bind_Returned in Hm as (e1 & _ & Hm).
    apply bind_Returned in Hm as (e2 & _ & [= <-]).
    split; [done|]. split; apply add64_int.
  - apply bind_Returned in Hm as (e1 & _ & [= <-]).
    split; [done|]. split; apply add64_int.
  - apply bind_Returned in Hm as (e2 & _ & [= <-]).
    split; [done|]. split; apply add64_int.
  - discriminate Hm.
Qed.

Lemma merge_keys_Returned s_tk o_tk n o_alphas ks es :
  merge_keys H s_tk o_tk n o_alphas ks = Returned es ->
  (Key <$> es) `sublist_of` ks ∧ Forall elt_int es.
Proof.
  revert es. induction ks as [|k ks IH]; intros es; simpl.
  { intros [= <-]. split; constructor. }
  intros Hm.
  apply bind_Returned in Hm as (oe & Hk & Hm).
  apply bind_Returned in Hm as (es' & Hks & [= <-]).
  destruct (IH _ Hks) as [Hsub Hint].
  destruct oe as [e|].
  - destruct (merge_key_Returned _ _ _ _ _ _ Hk) as [<- He].
    split; [by apply sublist_skip|by constructor].
  - split; [by apply sublist_cons|done].
Qed.

Lemma merge_key_returns s_tk o_tk n o_alphas k :
  keys_wf s_tk -> keys_wf o_tk -> 0 < n -> n = len o_alphas ->
  ∃ oe, merge_key H s_tk o_tk n o_alphas k = Returned oe.
Proof.
  intros Hs Ho Hn Hlen. unfold merge_key.
  destruct (index_in_range o_alphas (reduce (Hash64Str H k) n)) as [a ->].
  { rewrite <- Hlen. by apply reduce_range. }
  cbn [mbind outcome_bind].
  destruct (tk_m s_tk !! k) as [idx1|] eqn:H1;
    destruct (tk_m o_tk !! k) as [idx2|] eqn:H2;
    try (destruct (keys_wf_tracked _ _ _ Hs H1) as (e1 & Hi1 & He1 & _);
         rewrite (proj2 (index_Returned _ _ _) (conj Hi1 He1)));
    try (destruct (keys_wf_tracked _ _ _ Ho H2) as (e2 & Hi2 & He2 & _);
         rewrite (proj2 (index_Returned _ _ _) (conj Hi2 He2)));
    cbn [mbind outcome_bind]; eauto.
Qed.

Lemma merge_keys_returns s_tk o_tk n o_alphas ks :
  keys_wf s_tk -> keys_wf o_tk -> (ks ≠ [] -> 0 < n) -> n = len o_alphas ->
  ∃ es, merge_keys H s_tk o_tk n o_alphas ks = Returned es.
Proof.
  intros Hs Ho Hn Hlen. induction ks as [|k ks IH]; simpl; [eauto|].
  destruct (merge_key_returns s_tk o_tk n o_alphas k) as [oe ->]; try done.
  { by apply Hn. }
  cbn [mbind outcome_bind].
  destruct IH as [es ->]; [intros; by apply Hn|].
  cbn [mbind outcome_bind]. eauto.
Qed.

(** One iteration of the loop over the partitions keeps the invariant,
    keeps [n] and the other partitions, and does not panic. *)
Lemma merge_partition_wf other i s :
  stream_wf H s -> stream_wf H other -> s_n s = s_n other ->
  ∃ s', merge_partition H other i s = Returned s' ∧
        stream_wf H s' ∧ s_n s' = s_n s ∧
        s_alphas s' = zip_with add64 (s_alphas s) (s_alphas other) ∧
        ∀ j, j ≠ i -> s_p s' !!! j = s_p s !!! j.
Proof.
  intros Hwf Hwfo Hn. pose proof Hwf as (Hn0 & Hn6 & Hlen & Hints & Hp).
  pose proof Hwfo as (_ & _ & Hleno & Hintso & Hpo).
  destruct (Hp i) as (Hkwf & Hcap & Hei & Hrt).
  destruct (Hpo i) as (Hkwfo & Hcapo & Heio & Hrto).
  unfold merge_partition.
  set (eKeys := remove_dups _).
  destruct (merge_keys_returns (s_p s !!! i) (s_p other !!! i)
              (len (s_alphas s)) (s_alphas other) eKeys) as [es Hes];
    try done.
  { intros Hne. destruct eKeys as [|k ?] eqn:HeK; [done|].
    assert (k ∈ eKeys) as Hk by (rewrite HeK; left).
    unfold eKeys in Hk. apply elem_of_remove_dups, elem_of_app in Hk.
    rewrite Hlen. unfold len in *.
    destruct Hk as [Hk|Hk]; apply list_elem_of_fmap in Hk as (e & _ & He);
      apply list_elem_of_lookup in He as [t Ht];
      apply lookup_lt_Some in Ht; lia. }
  { lia. }
  rewrite Hes. cbn [mbind outcome_bind].
  rewrite trim_take by done. cbn [mbind outcome_bind].
  rewrite add_alphas_same_length by (unfold len in *; lia).
  cbn [mbind outcome_bind].
  eexists. split; [reflexivity|].
  destruct (merge_keys_Returned _ _ _ _ _ _ Hes) as [Hsub Hint].
  set (elts := take (Z.to_nat (s_n s)) (sort_Sort es)).
  assert (elts `sublist_of` sort_Sort es) as Hsub' by apply sublist_take.
  assert (NoDup (Key <$> es)) as Hnd.
  { apply (sublist_NoDup _ eKeys); [apply NoDup_remove_dups|done]. }
  assert (NoDup (Key <$> elts)) as Hnd'.
  { apply (sublist_NoDup _ (Key <$> sort_Sort es)); [|by apply fmap_sublist].
    by rewrite sort_Sort_Permutation. }
  destruct (fold_heap_Push elts empty_keys) as [Hwf' Hperm].
  { split; [apply NoDup_nil_2|]. intros k z. simpl. rewrite lookup_empty.
    split; [done|]. by intros (t & e & _ & Ht & _). }
  { done. }
  simpl in Hperm.
  assert (∀ e, e ∈ elts -> e ∈ es) as Hin.
  { intros e He. rewrite <- (sort_Sort_Permutation es).
    by eapply elem_of_sublist. }
  split; [|split; [done|split; [done|]]].
  - apply stream_wf_put; try done.
    + unfold len. rewrite Hperm. unfold elts. rewrite length_take. lia.
    + rewrite Hperm. apply Forall_forall. intros e He.
      by apply (proj1 (Forall_forall _ _) Hint), Hin.
    + rewrite Hperm. apply Forall_forall. intros e He%Hin.
      assert (Key e ∈ eKeys) as Hk.
      { eapply elem_of_sublist; [|exact Hsub]. by apply list_elem_of_fmap_2. }
      unfold eKeys in Hk. apply elem_of_remove_dups, elem_of_app in Hk.
      destruct Hk as [Hk|Hk]; apply list_elem_of_fmap in Hk as (e' & HK & He').
      * unfold routed. rewrite HK.
        by apply (proj1 (Forall_forall _ _) Hrt).
      * unfold routed. rewrite HK.
        by apply (proj1 (Forall_forall _ _) Hrto).
    + unfold len. rewrite length_zip_with. unfold len in *. lia.
    + apply add64_zip_int.
  - intros j Hj. simpl. by rewrite vlookup_insert_ne.
Qed.

(** The whole loop: every iteration adds [other]'s error table to the
    receiver's. *)
Lemma merge_partitions_wf other idxs s :
  stream_wf H s -> stream_wf H other -> s_n s = s_n other ->
  ∃ s', merge_partitions H other idxs s = Returned s' ∧
        stream_wf H s' ∧ s_n s' = s_n s ∧
        s_alphas s' =
          Nat.iter (length idxs)
            (λ alphas, zip_with add64 alphas (s_alphas other)) (s_alphas s).
Proof.
  revert s. induction idxs as [|i idxs IH]; intros s Hwf Hwfo Hn; simpl.
  { by exists s. }
  destruct (merge_partition_wf other i s Hwf Hwfo Hn)
    as (s1 & -> & Hwf1 & Hn1 & Hal1 & _).
  cbn [mbind outcome_bind].
  destruct (IH s1) as (s' & -> & Hwf' & Hn' & Hal'); [done|done|congruence|].
  exists s'. split; [done|]. split; [done|]. split; [congruence|].
  rewrite Hal', Hal1. symmetry.
  exact (Nat.iter_succ_r (length idxs)
           (λ alphas, zip_with add64 alphas (s_alphas other)) (s_alphas s)).
Qed.

Lemma Merge_mismatch other s :
  s_n s ≠ s_n other ->
  Merge H other s =
    Returned (Some (SizeMismatch (s_n s) (s_n other)), s, other).
Proof.
  intros Hne. unfold Merge.
  by destruct (Z.eqb_spec (s_n s) (s_n other)).
Qed.

Lemma Merge_returns other s :
  stream_wf H s -> stream_wf H other -> s_n s = s_n other ->
  ∃ s', Merge H other s = Returned (None, s', other) ∧
        stream_wf H s' ∧ s_n s' = s_n s ∧
        s_alphas s' =
          Nat.iter 6 (λ alphas, zip_with add64 alphas (s_alphas other))
            (s_alphas s).
Proof.
  intros Hwf Hwfo Hn. unfold Merge.
  destruct (Z.eqb_spec (s_n s) (s_n other)); [|done]. cbn [negb].
  destruct (merge_partitions_wf other partition_indices s Hwf Hwfo Hn)
    as (s' & -> & Hwf' & Hn' & Hal).
  cbn [mbind outcome_bind]. by exists s'.
Qed.

Lemma Merge_wf other s s' other' :
  stream_wf H s -> stream_wf H other ->
  Merge H other s = Returned (None, s', other') -> stream_wf H s'.
Proof.
  intros Hwf Hwfo Hm.
  destruct (Z.eq_dec (s_n s) (s_n other)) as [Hn|Hn].
  - destruct (Merge_returns other s Hwf Hwfo Hn) as (s1 & Hm1 & Hwf1 & _).
    congruence.
  - rewrite Merge_mismatch in Hm by done. discriminate Hm.
Qed.

(** Every reachable sketch satisfies the invariant. *)
Lemma reachable_wf s : reachable H s -> stream_wf H s.
Proof.
  induction 1 as [n s Hnew|s x count e s' _ IH Hc Hins
                  |s other s' other' _ IH _ IHo Hm].
  - exact (New_wf _ _ Hnew).
  - exact (Insert_wf _ _ _ _ _ IH Hc Hins).
  - exact (Merge_wf _ _ _ _ IH IHo Hm).
Qed.

Lemma inserts_reachable ops s s' :
  reachable H s -> Forall (λ op, is_int op.2) ops ->
  inserts H ops s = Returned s' -> reachable H s'.
Proof.
  revert s. induction ops as [|[x count] ops IH]; intros s Hs Hops; simpl.
  { by intros [= <-]. }
  intros Hr. apply bind_Returned in Hr as ([e s1] & Hins & Hr).
  apply Forall_cons in Hops as [Hc Hops].
  apply (IH s1); [|done|done].
  by apply (reachable_Insert H s x count e s1).
Qed.

Lemma inserts_snoc ops x count s s1 e s' :
  inserts H ops s = Returned s1 ->
  Insert H x count s1 = Returned (e, s') ->
  inserts H (ops ++ [(x, count)]) s = Returned s'.
Proof.
  revert s. induction ops as [|[y c] ops IH]; intros s; simpl.
  - intros <-%Returned_inj ->. reflexivity.
  - intros Hr Hins. apply bind_Returned in Hr as ([e0 s0] & -> & Hr).
    cbn [mbind outcome_bind snd]. by apply IH.
Qed.

Lemma build_snoc n ops x count s e s' :
  build H n ops = Returned s ->
  Insert H x count s = Returned (e, s') ->
  build H n (ops ++ [(x, count)]) = Returned s'.
Proof.
  unfold build. intros Hb Hins.
  apply bind_Returned in Hb as (s0 & -> & Hb). cbn [mbind outcome_bind].
  by eapply inserts_snoc.
Qed.

Lemma build_reachable n ops s :
  Forall (λ op, is_int op.2) ops ->
  build H n ops = Returned s -> reachable H s.
Proof.
  intros Hops Hb. apply bind_Returned in Hb as (s0 & Hnew & Hb).
  eapply inserts_reachable; [|done|done]. by eapply reachable_New.
Qed.

End SketchProperties.

(** ** Capacity of a partition *)

Section Capacity.

Variable H : string -> Z.


End Capacity.

Lemma small_counts_int (ops : list (string * Z)) :
  forallb (λ op, (min_int <=? op.2) && (op.2 <=? max_int)) ops = true ->
  Forall (λ op, is_int op.2) ops.
Proof.
  intros Hall. apply Forall_forall. intros op Hop.
  apply list_elem_of_In in Hop.
  pose proof (proj1 (forallb_forall _ _) Hall op Hop) as Hb.
  apply andb_true_iff in Hb as [?%Z.leb_le ?%Z.leb_le]. by split.
Qed.

Lemma two_in_one_partition_reachable :
  reachable demo_hash two_in_one_partition.
Proof.
  apply (build_reachable demo_hash 2 [("a", 5); ("g", 3)]).
  - apply small_counts_int. vm_compute. reflexivity.
  - vm_compute. reflexivity.
Defined.


(** Whatever the hash, two keys of one partition are both admitted by a
    sketch made with [New(2)], although [ceil(2/6) = 1]. *)
Lemma two_keys_one_partition (H : string -> Z) k1 k2 :
  k1 ≠ k2 ->
  partition_of (Hash64Str H k1) = partition_of (Hash64Str H k2) ->
  ∃ s, build H 2 [(k1, 1); (k2, 1)] = Returned s ∧
       len (tk_elts (s_p s !!! partition_of (Hash64Str H k1))) = 2 ∧
       spec_capacity (s_n s) = 1.
Proof.
  intros Hne HA.
  set (iA := partition_of (Hash64Str H k1)) in *.
  set (e1 := {| Key := k1; Count := 1; Error := 0 |}).
  set (e2 := {| Key := k2; Count := 1; Error := 0 |}).
  set (p0 := vreplicate nPartitions empty_keys).
  set (s0 := {| s_n := 2; s_p := p0; s_alphas := replicate 12 0 |}).
  set (tkA := {| tk_m := <[k1:=0]> ∅; tk_elts := [e1] |}).
  set (s1 := {| s_n := 2; s_p := vinsert iA tkA p0;
                s_alphas := replicate 12 0 |}).
  assert (New 2 = Returned s0) as HNew by reflexivity.
  assert (Insert H k1 1 s0 = Returned (e1, s1)) as Hi1.
  { rewrite Insert_admit.
    - cbn [s_p s0]. fold iA. unfold p0. rewrite vlookup_replicate.
      by rewrite heap_Push_empty.
    - cbn [s_p s0]. unfold p0. by rewrite vlookup_replicate.
    - cbn [s_p s_n s0]. unfold p0. by rewrite vlookup_replicate. }
  eexists. split.
  - unfold build. rewrite HNew. cbn [mbind outcome_bind inserts].
    rewrite Hi1. cbn [mbind outcome_bind inserts snd].
    rewrite Insert_admit.
    + reflexivity.
    + cbn [s_p s1]. rewrite <- HA. fold iA. rewrite vlookup_insert.
      cbn [tk_m tkA]. by rewrite lookup_insert_ne, lookup_empty.
    + cbn [s_p s_n s1]. rewrite <- HA. fold iA. by rewrite vlookup_insert.
  - cbn [s_p s_n snd]. rewrite <- HA. fold iA.
    rewrite !vlookup_insert. unfold len. rewrite heap_Push_Permutation.
    cbn [s_p s_n s1]. rewrite vlookup_insert. split; reflexivity.
Qed.


(** ** The filter branch of [Insert] *)

Section Filter.

Variable H : string -> Z.

(** C6: if [Insert(x, count)] finds the target partition full, the key
    untracked, and [alphas[b] + count] (Go's [int] addition, [add64])
    below the count of the partition's minimum [elts[0]], then no partition
    changes (element arrays and slot maps stay as they are), [n] stays, the
    error table changes at bucket [b] only, where it becomes
    [alphas[b] + count], and the element returned is
    [{x, alphas[b] + count, alphas[b]}] with the old [alphas[b]]. *)
Theorem Insert_filter_frame x count s a minElement :
  let i := partition_of (Hash64Str H x) in
  let b := bucket_of H s x in
  tk_m (s_p s !!! i) !! x = None ->
  s_n s <= len (tk_elts (s_p s !!! i)) ->
  index (s_alphas s) b = Returned a ->
  index (tk_elts (s_p s !!! i)) 0 = Returned minElement ->
  add64 a count < Count minElement ->
  ∃ s',
    Insert H x count s =
      Returned ({| Key := x; Count := add64 a count; Error := a |}, s') ∧
    s_p s' = s_p s ∧ s_n s' = s_n s ∧
    s_alphas s' = <[Z.to_nat b:=add64 a count]> (s_alphas s) ∧
    s_alphas s' !! Z.to_nat b = Some (add64 a count) ∧
    length (s_alphas s') = length (s_alphas s) ∧
    ∀ j, j ≠ Z.to_nat b -> s_alphas s' !! j = s_alphas s !! j.
Proof.
  intros i b Hx Hfull Ha Hmin Hlt.
  eexists. split.
  - by apply (Insert_filter H x count s a minElement).
  - cbn [s_p s_n s_alphas].
    apply index_Returned in Ha as [Hb0 Ha].
    pose proof (lookup_lt_Some _ _ _ Ha).
    split; [done|]. split; [done|]. split; [done|].
    split; [by apply list_lookup_insert_eq|].
    split; [by rewrite length_insert|].
    intros j Hj. by apply list_lookup_insert_ne.
Qed.

End Filter.

Lemma Insert_filter_frame_witness :
  ∃ s',
    Insert demo_hash "g" 4 one_full_partition =
      Returned ({| Key := "g"; Count := add64 0 4; Error := 0 |}, s') ∧
    s_p s' = s_p one_full_partition ∧ s_n s' = s_n one_full_partition ∧
    s_alphas s' =
      <[Z.to_nat (bucket_of demo_hash one_full_partition "g"):=add64 0 4]>
        (s_alphas one_full_partition) ∧
    s_alphas s' !! Z.to_nat (bucket_of demo_hash one_full_partition "g")
      = Some (add64 0 4) ∧
    length (s_alphas s') = length (s_alphas one_full_partition) ∧
    ∀ j, j ≠ Z.to_nat (bucket_of demo_hash one_full_partition "g") ->
         s_alphas s' !! j = s_alphas one_full_partition !! j.
Proof.
  apply (Insert_filter_frame demo_hash "g" 4 one_full_partition 0
           {| Key := "a"; Count := 9; Error := 0 |}).
  - vm_compute. reflexivity.
  - vm_compute. discriminate.
  - vm_compute. reflexivity.
  - vm_compute. reflexivity.
  - vm_compute. reflexivity.
Defined.

(** ** The precondition of [Merge] *)

Section MergePrecondition.

Variable H : string -> Z.

(** C7: [Merge] between sketches of different [n] returns the
    size-mismatch error and leaves the receiver and [other] as they were;
    between reachable sketches of equal [n] it returns no error (and does
    not panic), and [other] is as it was. *)
Theorem Merge_size_check s other :
  (s_n s ≠ s_n other ->
   Merge H other s =
     Returned (Some (SizeMismatch (s_n s) (s_n other)), s, other)) ∧
  (reachable H s -> reachable H other -> s_n s = s_n other ->
   ∃ s', Merge H other s = Returned (None, s', other)).
Proof.
  split.
  - apply Merge_mismatch.
  - intros Hs Ho Hn.
    destruct (Merge_returns H other s (reachable_wf H s Hs)
                (reachable_wf H other Ho) Hn) as (s' & Hm & _).
    by exists s'.
Qed.

End MergePrecondition.

Lemma another_sketch_reachable : reachable demo_hash another_sketch.
Proof.
  apply (build_reachable demo_hash 2 [("b", 4)]).
  - apply small_counts_int. vm_compute. reflexivity.
  - vm_compute. reflexivity.
Defined.

Lemma Merge_size_check_witness :
  Merge demo_hash one_full_partition two_in_one_partition =
    Returned (Some (SizeMismatch (s_n two_in_one_partition)
                      (s_n one_full_partition)),
              two_in_one_partition, one_full_partition) ∧
  ∃ s', Merge demo_hash another_sketch two_in_one_partition
        = Returned (None, s', another_sketch).
Proof.
  split.
  - apply (Merge_size_check demo_hash two_in_one_partition one_full_partition).
    vm_compute. discriminate.
  - apply (Merge_size_check demo_hash two_in_one_partition another_sketch).
    + apply two_in_one_partition_reachable.
    + apply another_sketch_reachable.
    + vm_compute. reflexivity.
Defined.

(** ** [Keys] *)

Lemma partitions_to_list {A} (v : vec A nPartitions) :
  vec_to_list v = (λ i, v !!! i) <$> partition_indices.
Proof. unfold nPartitions in v. inv_vec v. reflexivity. Qed.

Lemma fmap_concat_bind {A B C} (f : A -> list B) (g : B -> C) (l : list A) :
  g <$> concat (f <$> l) = l ≫= (λ a, g <$> f a).
Proof.
  induction l as [|a l IH]; [done|].
  cbn [fmap list_fmap concat mbind list_bind]. rewrite fmap_app. by f_equal.
Qed.

Lemma partition_indices_NoDup : NoDup partition_indices.
Proof. apply (bool_decide_unpack _). by vm_compute. Qed.

Lemma StronglySorted_lookup {A} (R : relation A) l i j a b :
  StronglySorted R l -> (i < j)%nat ->
  l !! i = Some a -> l !! j = Some b -> R a b.
Proof.
  intros Hs. revert i j.
  induction Hs as [|x l Hs IH Hx]; intros i j Hij Ha Hb; [done|].
  destruct j as [|j]; [lia|]. destruct i as [|i]; simpl in *.
  - injection Ha as <-. apply (proj1 (Forall_forall _ _) Hx).
    by eapply list_elem_of_lookup_2.
  - apply (IH i j); [lia|done|done].
Qed.

Section KeysOrder.

Variable H : string -> Z.

(** No key is held twice, within a partition or across partitions. *)
Lemma all_keys_NoDup s :
  stream_wf H s ->
  NoDup (Key <$> concat (tk_elts <$> vec_to_list (s_p s))).
Proof.
  intros (_ & _ & _ & _ & Hp).
  rewrite partitions_to_list, <- list_fmap_compose, fmap_concat_bind.
  apply NoDup_bind; [| |apply partition_indices_NoDup].
  - intros i1 i2 k _ _ (e1 & -> & He1)%list_elem_of_fmap
      (e2 & HK & He2)%list_elem_of_fmap.
    destruct (Hp i1) as (_ & _ & _ & Hr1). destruct (Hp i2) as (_ & _ & _ & Hr2).
    pose proof (proj1 (Forall_forall _ _) Hr1 _ He1) as R1.
    pose proof (proj1 (Forall_forall _ _) Hr2 _ He2) as R2.
    unfold routed in *. congruence.
  - intros i _. apply Hp.
Qed.

(** C8: on every reachable sketch [Keys()] returns (it does not panic),
    leaves the sketch as it was, and the slice returned has at most [n]
    elements and is sorted: of two elements, the earlier one has the
    larger count, or the same count and the smaller key. *)
Theorem Keys_sorted s :
  reachable H s ->
  ∃ elts,
    Keys s = Returned (elts, s) ∧
    len elts <= s_n s ∧
    ∀ i j a b, (i < j)%nat -> elts !! i = Some a -> elts !! j = Some b ->
      Count b < Count a ∨
      (Count a = Count b ∧ String.ltb (Key a) (Key b) = true).
Proof.
  intros Hr. pose proof (reachable_wf H s Hr) as Hwf.
  pose proof Hwf as (Hn0 & Hn6 & _).
  unfold Keys.
  assert (is_int ((1 + s_n s ÷ 6) * 6)) as Hcap.
  { rewrite Z.quot_div_nonneg by lia.
    assert (0 <= s_n s / 6) by (apply Z.div_pos; lia).
    pose proof (Z.mul_div_le (s_n s) 6 ltac:(lia)).
    unfold is_int, min_int, max_int in *. lia. }
  rewrite (wrap64_small _ Hcap).
  destruct (Z.ltb_spec ((1 + s_n s ÷ 6) * 6) 0) as [Hneg|_].
  { unfold is_int, min_int in Hcap. rewrite Z.quot_div_nonneg in Hneg by lia.
    assert (0 <= s_n s / 6) by (apply Z.div_pos; lia). lia. }
  rewrite trim_take by done. cbn [mbind outcome_bind].
  eexists. split; [reflexivity|].
  set (all := concat (tk_elts <$> vec_to_list (s_p s))).
  split.
  { unfold len. rewrite length_take. lia. }
  intros i j a b Hij Ha Hb.
  apply lookup_take_Some in Ha as [Ha _]. apply lookup_take_Some in Hb as [Hb _].
  pose proof (sort_Sort_sorted all) as Hsorted.
  assert (byCount_le a b) as Hab.
  { apply (StronglySorted_lookup byCount_le _ i j a b Hsorted Hij Ha Hb). }
  assert (Key a ≠ Key b) as Hne.
  { intros HK. assert (i = j); [|lia].
    assert (NoDup (Key <$> sort_Sort all)) as Hnd.
    { rewrite sort_Sort_Permutation. by apply all_keys_NoDup. }
    eapply NoDup_lookup; [exact Hnd|..]; rewrite list_lookup_fmap.
    - by rewrite Ha.
    - rewrite Hb. simpl. by rewrite HK. }
  pose proof (byCount_le_strict _ _ Hab Hne) as Hless.
  unfold byCount_Less in Hless.
  apply orb_true_iff in Hless as [?%Z.ltb_lt|[?%Z.eqb_eq ?]%andb_true_iff];
    auto.
Qed.

End KeysOrder.

Lemma Keys_sorted_witness :
  ∃ elts,
    Keys two_in_one_partition = Returned (elts, two_in_one_partition) ∧
    len elts <= s_n two_in_one_partition ∧
    ∀ i j a b, (i < j)%nat -> elts !! i = Some a -> elts !! j = Some b ->
      Count b < Count a ∨
      (Count a = Count b ∧ String.ltb (Key a) (Key b) = true).
Proof.
  apply (Keys_sorted demo_hash two_in_one_partition).
  apply two_in_one_partition_reachable.
Defined.

(** ** Counts and errors while nothing overflows *)

Lemma elt_bounded_mono B B' e : B <= B' -> elt_bounded B e -> elt_bounded B' e.
Proof. unfold elt_bounded. lia. Qed.

Lemma alpha_bounded_mono B B' a :
  B <= B' -> alpha_bounded B a -> alpha_bounded B' a.
Proof. unfold alpha_bounded. lia. Qed.

Lemma bounded_mono B B' s : B <= B' -> bounded B s -> bounded B' s.
Proof.
  intros HB [Hal Hp]. split.
  - eapply Forall_impl; [exact Hal|]. intros a. by apply alpha_bounded_mono.
  - intros i. eapply Forall_impl; [apply Hp|]. intros e.
    by apply elt_bounded_mono.
Qed.

Lemma add64_bounded a b B :
  0 <= a <= B -> 0 <= b -> B + b <= max_int -> add64 a b = a + b.
Proof.
  intros Ha Hb HB. apply add64_exact. unfold is_int, min_int, max_int in *. lia.
Qed.

Lemma bounded_put B s i tk alphas' n :
  bounded B s -> Forall (elt_bounded B) (tk_elts tk) ->
  Forall (alpha_bounded B) alphas' ->
  bounded B {| s_n := n; s_p := vinsert i tk (s_p s); s_alphas := alphas' |}.
Proof.
  intros [Hal Hp] Htk Hal'. split; [done|]. intros j. cbn [s_p].
  destruct (decide (i = j)) as [<-|Hne].
  - by rewrite vlookup_insert.
  - rewrite vlookup_insert_ne by done. apply Hp.
Qed.

Section Bounds.

Variable H : string -> Z.

Lemma Insert_bounded B x count s e s' :
  bounded B s -> 0 <= B -> 0 <= count -> B + count <= max_int ->
  Insert H x count s = Returned (e, s') ->
  bounded (B + count) s' ∧ elt_bounded (B + count) e.
Proof.
  intros Hb HB Hc Hmax Hins.
  assert (bounded (B + count) s) as Hb' by (apply (bounded_mono B); [lia|done]).
  destruct Hb as [Hal Hp]. destruct Hb' as [Hal' Hp'].
  apply Insert_cases in Hins. cbv zeta in Hins.
  set (i := partition_of (Hash64Str H x)) in *.
  destruct Hins as [(idx & e0 & Hlook & Hidx & He0 & -> & ->)
    |[(Hlook & Hroom & -> & ->)
    |[(a & mn & Hlook & Hfull & Hx0 & Ha & Hmn & Hlt & -> & ->)
    |(a & mn & a1 & Hlook & Hfull & Hx0 & Ha & Hmn & Hge & Hm0 & Hma & Ha1
        & -> & ->)]]].
  - pose proof (Forall_lookup_1 _ _ _ _ (Hp i) He0) as (E0 & E1 & E2).
    assert (elt_bounded (B + count)
              {| Key := Key e0; Count := add64 (Count e0) count;
                 Error := Error e0 |}) as Hnew.
    { unfold elt_bounded. cbn [Count Error].
      rewrite (add64_bounded _ _ B) by lia. lia. }
    split; [|done].
    apply bounded_put; [done| |done].
    rewrite heap_Fix_Permutation. cbn [tk_elts].
    apply Forall_insert; [apply Hp'|done].
  - assert (elt_bounded (B + count) {| Key := x; Count := count; Error := 0 |})
      as Hnew by (unfold elt_bounded; cbn [Count Error]; lia).
    split; [|done].
    apply bounded_put; [done| |done].
    rewrite heap_Push_Permutation. constructor; [done|apply Hp'].
  - pose proof (Forall_lookup_1 _ _ _ _ Hal Ha) as Ha'.
    unfold alpha_bounded in Ha'.
    rewrite (add64_bounded _ _ B) by lia.
    split.
    + split; [|apply Hp']. cbn [s_alphas].
      apply Forall_insert; [done|]. unfold alpha_bounded. lia.
    + unfold elt_bounded. cbn [Count Error]. lia.
  - pose proof (Forall_lookup_1 _ _ _ _ (Hp i) Hmn) as (M0 & M1 & M2).
    assert (Forall (alpha_bounded B)
              (<[Z.to_nat (reduce (Hash64Str H (Key mn)) (len (s_alphas s))):=
                 Count mn]> (s_alphas s))) as Hal1.
    { apply Forall_insert; [done|]. unfold alpha_bounded. lia. }
    pose proof (Forall_lookup_1 _ _ _ _ Hal1 Ha1) as Ha1'.
    unfold alpha_bounded in Ha1'.
    rewrite (add64_bounded _ _ B) by lia.
    assert (elt_bounded (B + count)
              {| Key := x; Count := a1 + count; Error := a1 |}) as Hnew
      by (unfold elt_bounded; cbn [Count Error]; lia).
    split; [|done].
    apply bounded_put; [done| |].
    + rewrite heap_Fix_Permutation. cbn [tk_elts].
      apply Forall_insert; [apply Hp'|done].
    + eapply Forall_impl; [exact Hal1|]. intros ?.
      apply alpha_bounded_mono. lia.
Qed.

Lemma Estimate_bounded B x s e s' :
  bounded B s -> Estimate H x s = Returned (e, s') -> elt_bounded B e.
Proof.
  intros [Hal Hp]. unfold Estimate.
  destruct (tk_m _ !! x) as [idx|]; intros He.
  - apply bind_Returned in He as (e0 & [_ He0]%index_Returned & He).
    apply Returned_pair in He as [<- _].
    apply (Forall_lookup_1 _ _ _ _ (Hp _) He0).
  - apply bind_Returned in He as (a & [_ Ha]%index_Returned & He).
    apply Returned_pair in He as [<- _].
    pose proof (Forall_lookup_1 _ _ _ _ Hal Ha) as Ha'.
    unfold alpha_bounded in Ha'. unfold elt_bounded. cbn [Count Error]. lia.
Qed.

Lemma fold_heap_Push_Permutation elts tk :
  tk_elts (fold_left heap_Push elts tk) ≡ₚ tk_elts tk ++ elts.
Proof.
  revert tk. induction elts as [|e elts IH]; intros tk; simpl.
  { by rewrite app_nil_r. }
  rewrite IH, heap_Push_Permutation. simpl. by rewrite <- Permutation_middle.
Qed.

(** What one iteration of the loop in [Merge] leaves behind. *)
Lemma merge_partition_inv other i s s' :
  merge_partition H other i s = Returned s' ->
  ∃ es,
    merge_keys H (s_p s !!! i) (s_p other !!! i) (len (s_alphas s))
      (s_alphas other)
      (remove_dups ((Key <$> tk_elts (s_p s !!! i)) ++
                    (Key <$> tk_elts (s_p other !!! i)))) = Returned es ∧
    (∀ e, e ∈ tk_elts (s_p s' !!! i) -> e ∈ es) ∧
    (∀ j, j ≠ i -> s_p s' !!! j = s_p s !!! j) ∧
    s_n s' = s_n s ∧
    add_alphas (s_alphas s) (s_alphas other) = Returned (s_alphas s').
Proof.
  unfold merge_partition. intros Hm.
  apply bind_Returned in Hm as (es & Hes & Hm).
  apply bind_Returned in Hm as (elts & Htrim & Hm).
  apply bind_Returned in Hm as (alphas1 & Hal & [= <-]).
  exists es. split; [done|]. cbn [s_p s_n s_alphas].
  split; [|split; [|done]].
  - intros e. rewrite vlookup_insert, fold_heap_Push_Permutation. simpl.
    intros He. apply trim_Returned in Htrim as [Hsub _].
    rewrite <- (sort_Sort_Permutation es). by eapply elem_of_sublist.
  - intros j Hj. by rewrite vlookup_insert_ne.
Qed.

Lemma merge_key_bounded B1 B2 s_tk o_tk n o_alphas k e :
  Forall (elt_bounded B1) (tk_elts s_tk) ->
  Forall (elt_bounded B2) (tk_elts o_tk) ->
  Forall (alpha_bounded B2) o_alphas ->
  0 <= B1 -> 0 <= B2 -> B1 + 2 * B2 <= max_int ->
  merge_key H s_tk o_tk n o_alphas k = Returned (Some e) ->
  elt_bounded (B1 + 2 * B2) e.
Proof.
  intros Hs Ho Hal HB1 HB2 Hmax. unfold merge_key. intros Hm.
  apply bind_Returned in Hm as (min1 & [_ Hmin]%index_Returned & Hm).
  pose proof (Forall_lookup_1 _ _ _ _ Hal Hmin) as Hmin'.
  unfold alpha_bounded in Hmin'.
  destruct (tk_m s_tk !! k), (tk_m o_tk !! k).
  - apply bind_Returned in Hm as (e1 & [_ He1]%index_Returned & Hm).
    apply bind_Returned in Hm as (e2 & [_ He2]%index_Returned & [= <-]).
    pose proof (Forall_lookup_1 _ _ _ _ Hs He1) as (? & ? & ?).
    pose proof (Forall_lookup_1 _ _ _ _ Ho He2) as (? & ? & ?).
    unfold elt_bounded. cbn [Count Error].
    rewrite !(add64_bounded _ _ B1) by lia. lia.
  - apply bind_Returned in Hm as (e1 & [_ He1]%index_Returned & [= <-]).
    pose proof (Forall_lookup_1 _ _ _ _ Hs He1) as (? & ? & ?).
    unfold elt_bounded. cbn [Count Error].
    rewrite !(add64_bounded _ _ B1) by lia. lia.
  - apply bind_Returned in Hm as (e2 & [_ He2]%index_Returned & [= <-]).
    pose proof (Forall_lookup_1 _ _ _ _ Ho He2) as (? & ? & ?).
    unfold elt_bounded. cbn [Count Error].
    rewrite !(add64_bounded _ _ B2) by lia. lia.
  - discriminate Hm.
Qed.

Lemma merge_keys_Forall (P : Element -> Prop) s_tk o_tk n o_alphas ks es :
  (∀ k e, merge_key H s_tk o_tk n o_alphas k = Returned (Some e) -> P e) ->
  merge_keys H s_tk o_tk n o_alphas ks = Returned es -> Forall P es.
Proof.
  intros HP. revert es. induction ks as [|k ks IH]; intros es; simpl.
  { intros [= <-]. constructor. }
  intros Hm.
  apply bind_Returned in Hm as (oe & Hk & Hm).
  apply bind_Returned in Hm as (es' & Hks & [= <-]).
  destruct oe as [e|]; [|by apply IH].
  constructor; [by eapply HP|by apply IH].
Qed.

Lemma zip_add64_bounded A B l k :
  Forall (alpha_bounded A) l -> Forall (alpha_bounded B) k ->
  A + B <= max_int ->
  Forall (alpha_bounded (A + B)) (zip_with add64 l k).
Proof.
  intros Hl. revert k. induction Hl as [|a l Ha Hl IH]; intros k Hk Hmax.
  { constructor. }
  destruct Hk as [|b k Hb Hk]; simpl; constructor.
  - unfold alpha_bounded in *. rewrite (add64_bounded _ _ A) by lia. lia.
  - by apply IH.
Qed.

Lemma add_alphas_bounded A B alphas o_alphas alphas' :
  Forall (alpha_bounded A) alphas -> Forall (alpha_bounded B) o_alphas ->
  0 <= B -> A + B <= max_int ->
  add_alphas alphas o_alphas = Returned alphas' ->
  Forall (alpha_bounded (A + B)) alphas'.
Proof.
  intros Hal Ho HB Hmax. unfold add_alphas.
  destruct (_ <? _)%nat; [done|]. intros [= <-].
  apply Forall_app. split.
  - apply zip_add64_bounded; [by apply Forall_take|done|done].
  - apply Forall_drop. eapply Forall_impl; [exact Hal|]. intros a.
    apply alpha_bounded_mono. lia.
Qed.

(** The loop of [Merge]: the partitions still to come hold the receiver's
    elements, the others are merged; every iteration adds [other]'s error
    table. *)
Lemma merge_partitions_bounded B1 B2 A other idxs s s' :
  bounded B2 other -> 0 <= B1 -> 0 <= B2 ->
  NoDup idxs ->
  (∀ i, i ∈ idxs -> Forall (elt_bounded B1) (tk_elts (s_p s !!! i))) ->
  (∀ i, Forall (elt_bounded (B1 + 2 * B2)) (tk_elts (s_p s !!! i))) ->
  Forall (alpha_bounded A) (s_alphas s) ->
  B1 + 2 * B2 <= max_int -> A + Z.of_nat (length idxs) * B2 <= max_int ->
  merge_partitions H other idxs s = Returned s' ->
  (∀ i, Forall (elt_bounded (B1 + 2 * B2)) (tk_elts (s_p s' !!! i))) ∧
  Forall (alpha_bounded (A + Z.of_nat (length idxs) * B2)) (s_alphas s').
Proof.
  intros [Hoal Hop] HB1 HB2. revert A s.
  induction idxs as [|i idxs IH]; intros A s Hnd Hrest Hall Hal Hmax HA; simpl.
  { intros [= <-]. split; [done|].
    eapply Forall_impl; [exact Hal|]. intros a. apply alpha_bounded_mono. lia. }
  intros Hm. apply bind_Returned in Hm as (s1 & Hstep & Hm).
  apply NoDup_cons in Hnd as [Hi Hnd].
  destruct (merge_partition_inv _ _ _ _ Hstep)
    as (es & Hes & Hin & Hother & Hn & Hadd).
  assert (Forall (elt_bounded (B1 + 2 * B2)) es) as Hbes.
  { eapply merge_keys_Forall; [|exact Hes].
    intros k e. apply merge_key_bounded; try done.
    apply Hrest. left. }
  cbn [length] in HA.
  apply (IH (A + B2) s1) in Hm; try done.
  - destruct Hm as [Hp' Hal']. split; [done|].
    eapply Forall_impl; [exact Hal'|]. intros a. apply alpha_bounded_mono. lia.
  - intros j Hj. rewrite Hother by (intros ->; done). apply Hrest. by right.
  - intros j. destruct (decide (j = i)) as [->|Hne].
    + apply Forall_forall. intros e He%Hin.
      by apply (proj1 (Forall_forall _ _) Hbes).
    + rewrite Hother by done. apply Hall.
  - eapply add_alphas_bounded; [exact Hal|exact Hoal|done|lia|done].
  - lia.
Qed.

Lemma Merge_bounded B1 B2 other s s' other' :
  bounded B1 s -> bounded B2 other -> 0 <= B1 -> 0 <= B2 ->
  B1 + 6 * B2 <= max_int ->
  Merge H other s = Returned (None, s', other') ->
  bounded (B1 + 6 * B2) s'.
Proof.
  intros [Hal Hp] Hbo HB1 HB2 Hmax. unfold Merge.
  destruct (negb _); [done|]. intros Hm.
  apply bind_Returned in Hm as (s1 & Hm & [= <- _]).
  apply (merge_partitions_bounded B1 B2 B1) in Hm; try done.
  - destruct Hm as [Hp' Hal']. split; [done|].
    intros i. eapply Forall_impl; [apply Hp'|]. intros e.
    apply elt_bounded_mono. lia.
  - apply partition_indices_NoDup.
  - intros i. eapply Forall_impl; [apply Hp|]. intros e.
    apply elt_bounded_mono. lia.
  - lia.
Qed.

Lemma reachable_within_reachable B s :
  reachable_within H B s -> reachable H s.
Proof.
  induction 1 as [n s Hnew|B s x count e s' _ IH Hc _ Hins
                  |B1 B2 s other s' other' _ IH _ IHo Hm].
  - exact (reachable_New H n s Hnew).
  - exact (reachable_Insert H s x count e s' IH Hc Hins).
  - exact (reachable_Merge H s other s' other' IH IHo Hm).
Qed.

Lemma reachable_within_nonneg B s : reachable_within H B s -> 0 <= B.
Proof. induction 1; lia. Qed.

Lemma New_bounded n s : New n = Returned s -> bounded 0 s.
Proof.
  unfold New. destruct (_ || _); [done|]. intros <-%Returned_inj. split.
  - cbn [s_alphas]. apply Forall_replicate. unfold alpha_bounded. lia.
  - intros i. cbn [s_p]. rewrite vlookup_replicate. constructor.
Qed.

(** While the bound fits an [int], it bounds every count and floor. *)
Lemma reachable_within_bounded B s :
  reachable_within H B s -> B <= max_int -> bounded B s.
Proof.
  induction 1 as [n s Hnew|B s x count e s' Hr IH Hc Hc0 Hins
                  |B1 B2 s other s' other' Hr IH Hro IHo Hm]; intros Hmax.
  - by eapply New_bounded.
  - pose proof (reachable_within_nonneg _ _ Hr).
    eapply Insert_bounded; [apply IH; lia|done|done|done|exact Hins].
  - pose proof (reachable_within_nonneg _ _ Hr).
    pose proof (reachable_within_nonneg _ _ Hro).
    eapply Merge_bounded; [apply IH; lia|apply IHo; lia|done|done|done|exact Hm].
Qed.

Lemma inserts_within B ops s s' :
  reachable_within H B s ->
  Forall (λ op, is_int op.2 ∧ 0 <= op.2) ops ->
  inserts H ops s = Returned s' ->
  reachable_within H (B + foldr (λ op acc, op.2 + acc) 0 ops) s'.
Proof.
  revert B s. induction ops as [|[x count] ops IH]; intros B s Hs Hops.
  { cbn [inserts foldr]. intros <-%Returned_inj. by rewrite Z.add_0_r. }
  cbn [inserts foldr snd]. intros Hr.
  apply bind_Returned in Hr as ([e s1] & Hins & Hr).
  apply Forall_cons in Hops as [[Hc Hc0] Hops].
  rewrite Z.add_assoc. apply (IH _ s1); [|done|done].
  by apply (within_Insert H B s x count e s1).
Qed.

Lemma build_within n ops s :
  Forall (λ op, is_int op.2 ∧ 0 <= op.2) ops ->
  build H n ops = Returned s ->
  reachable_within H (foldr (λ op acc, op.2 + acc) 0 ops) s.
Proof.
  intros Hops Hb. apply bind_Returned in Hb as (s0 & Hnew & Hb).
  rewrite <- (Z.add_0_l (foldr _ _ _)).
  eapply inserts_within; [|done|done]. by eapply within_New.
Qed.

(** C10 (amended): in a sketch reached by [New], [Insert] with
    [count >= 0] and successful [Merge] calls, as long as no addition can
    wrap around (the counts inserted, and six times the total of every
    sketch merged in, add up to a bound [B] that fits an [int]), every
    stored element has [0 <= Error <= Count], and so has every element
    returned by [Insert] (with [count >= 0] and [B + count] an [int]) and
    by [Estimate]. *)
Theorem Error_le_Count B s :
  reachable_within H B s -> B <= max_int ->
  (∀ i e, e ∈ tk_elts (s_p s !!! i) -> 0 <= Error e <= Count e) ∧
  (∀ x count e s',
      0 <= count -> B + count <= max_int ->
      Insert H x count s = Returned (e, s') -> 0 <= Error e <= Count e) ∧
  (∀ x e s', Estimate H x s = Returned (e, s') -> 0 <= Error e <= Count e).
Proof.
  intros Hr Hmax. pose proof (reachable_within_bounded B s Hr Hmax) as Hb.
  pose proof (reachable_within_nonneg _ _ Hr) as HB.
  split; [|split].
  - intros i e He. destruct Hb as [_ Hp].
    destruct (proj1 (Forall_forall _ _) (Hp i) e He) as (? & ? & ?). lia.
  - intros x count e s' Hc Hmax' Hins.
    destruct (Insert_bounded B x count s e s' Hb HB Hc Hmax' Hins)
      as [_ (? & ? & ?)]. lia.
  - intros x e s' He.
    destruct (Estimate_bounded B x s e s' Hb He) as (? & ? & ?). lia.
Qed.

End Bounds.

Lemma two_in_one_partition_within :
  reachable_within demo_hash 8 two_in_one_partition.
Proof.
  apply (build_within demo_hash 2 [("a", 5); ("g", 3)]).
  - repeat constructor; cbn [snd]; vm_compute; discriminate.
  - vm_compute. reflexivity.
Defined.

Lemma Error_le_Count_witness :
  reachable_within demo_hash 8 two_in_one_partition ∧
  (∀ i e, e ∈ tk_elts (s_p two_in_one_partition !!! i) ->
          0 <= Error e <= Count e).
Proof.
  split; [apply two_in_one_partition_within|].
  apply (Error_le_Count demo_hash 8 two_in_one_partition).
  - apply two_in_one_partition_within.
  - vm_compute. discriminate.
Defined.

(** C10 as stated fails when a counter wraps around: after [New(1)],
    [Insert("a", max_int)] and [Insert("a", 1)], both with counts [>= 0],
    the second call returns, and the sketch stores, the element
    [{"a", min_int, 0}], whose error 0 exceeds its count; [Estimate]
    returns it too. *)
Lemma Error_le_Count_overflow :
  reachable demo_hash overflowed ∧
  build demo_hash 1 [("a", max_int); ("a", 1)] = Returned overflowed ∧
  (∃ s1 e1, build demo_hash 1 [("a", max_int)] = Returned s1 ∧
            Insert demo_hash "a" 1 s1 =
              Returned ({| Key := "a"; Count := min_int; Error := 0 |},
                        overflowed) ∧
            Insert demo_hash "a" max_int
              {| s_n := 1; s_p := vreplicate nPartitions empty_keys;
                 s_alphas := replicate 6 0 |} = Returned (e1, s1)) ∧
  {| Key := "a"; Count := min_int; Error := 0 |}
    ∈ tk_elts (s_p overflowed !!! 1%fin) ∧
  Estimate demo_hash "a" overflowed =
    Returned ({| Key := "a"; Count := min_int; Error := 0 |}, overflowed) ∧
  ¬ (0 <= Error {| Key := "a"; Count := min_int; Error := 0 |}
       <= Count {| Key := "a"; Count := min_int; Error := 0 |}).
Proof.
  assert (build demo_hash 1 [("a", max_int); ("a", 1)] = Returned overflowed)
    as Hb by (vm_compute; reflexivity).
  split; [|split; [exact Hb|split; [|split; [|split]]]].
  - apply (build_reachable demo_hash 1 [("a", max_int); ("a", 1)]);
      [|exact Hb].
    apply small_counts_int. vm_compute. reflexivity.
  - eexists _, _. split; [vm_compute; reflexivity|].
    split; vm_compute; reflexivity.
  - vm_compute. repeat constructor.
  - vm_compute. reflexivity.
  - cbn [Count Error]. unfold min_int. lia.
Qed.

(** ** Hash assignment *)

Section HashAssignment.

Variable H : string -> Z.

(** C5 (amended): the bucket used by [Insert] and [Estimate] is computed
    from the LOW 32 bits of the key's hash.  It is
    [uint64(low32(hash) * uint64(len(alphas))) >> 32], the product taken
    modulo [2^64]; for every table shorter than [2^32] entries nothing wraps
    and it is [low32(hash) * len(alphas) >> 32].  It lies inside every table
    that is not empty, and the partition is [hash mod 6].  [Estimate] of a
    key that is not tracked reads the table at that bucket; [Insert] writes
    the table at that bucket or at the bucket, computed in the same way, of
    the minimum it evicts. *)
Theorem bucket_low32 s x :
  let h := Hash64Str H x in
  let low32 := λ k, Hash64Str H k mod 2 ^ 32 in
  let bucket := λ k, uint64 (low32 k * uint64 (len (s_alphas s))) / 2 ^ 32 in
  let b := bucket x in
  bucket_of H s x = b ∧
  (∀ k, len (s_alphas s) < 2 ^ 32 ->
        bucket k = low32 k * len (s_alphas s) / 2 ^ 32) ∧
  (0 < len (s_alphas s) -> 0 <= b < len (s_alphas s)) ∧
  Z.of_nat (fin_to_nat (partition_of h)) = h mod 6 ∧
  (tk_m (s_p s !!! partition_of h) !! x = None ->
   Estimate H x s =
     (a ← index (s_alphas s) b;
      Returned ({| Key := x; Count := a; Error := a |}, s))) ∧
  (∀ count e s',
      Insert H x count s = Returned (e, s') ->
      s_alphas s' = s_alphas s ∨
      (∃ v, s_alphas s' = <[Z.to_nat b:=v]> (s_alphas s)) ∨
      (∃ mn, tk_elts (s_p s !!! partition_of h) !! 0%nat = Some mn ∧
             s_alphas s' =
               <[Z.to_nat (bucket (Key mn)):=Count mn]> (s_alphas s))).
Proof.
  intros h low32 bucket b. subst h low32 bucket b. cbv beta.
  assert (∀ k, reduce (Hash64Str H k) (len (s_alphas s)) =
               uint64 (Hash64Str H k mod 2 ^ 32 * uint64 (len (s_alphas s)))
                 / 2 ^ 32) as Hred.
  { intros k. apply reduce_wrap. }
  split; [apply Hred|]. split.
  { intros k Hlt. rewrite <- Hred. apply reduce_low32.
    pose proof (len_nonneg (s_alphas s)). lia. }
  split.
  { intros Hlen. rewrite <- Hred. by apply reduce_range. }
  split; [apply partition_of_mod|]. split.
  - intros Hx. unfold Estimate. cbv zeta. by rewrite Hx, Hred.
  - intros count e s' Hins. apply Insert_cases in Hins. cbv zeta in Hins.
    rewrite !Hred in Hins.
    destruct Hins as [(idx & e0 & _ & _ & _ & _ & ->)
      |[(_ & _ & _ & ->)
      |[(a & mn & _ & _ & _ & _ & _ & _ & _ & ->)
      |(a & mn & a1 & _ & _ & _ & _ & Hmn & _ & _ & _ & _ & _ & ->)]]];
      cbn [s_alphas]; eauto.
    right. right. exists mn. by rewrite Hred.
Qed.

End HashAssignment.

Lemma bucket_low32_witness :
  bucket_of high_hash floor_raised "c" =
    (Hash64Str high_hash "c" mod 2 ^ 32) * len (s_alphas floor_raised) / 2 ^ 32.
Proof.
  destruct (bucket_low32 high_hash floor_raised "c") as (Hb & Hsmall & _).
  rewrite Hb. apply Hsmall. vm_compute. reflexivity.
Defined.

(** C5 as stated fails: with a hash of [2^63] the upper 32 bits give bucket
    3 of a table of six, while [Estimate] answers from bucket 0, whose floor
    is 4 (bucket 3 holds 0). *)
Lemma bucket_not_high32 :
  bucket_of high_hash floor_raised "c" ≠
    spec_bucket (Hash64Str high_hash "c") (len (s_alphas floor_raised)) ∧
  Estimate high_hash "c" floor_raised =
    Returned ({| Key := "c"; Count := 4; Error := 4 |}, floor_raised) ∧
  s_alphas floor_raised
    !! Z.to_nat (spec_bucket (Hash64Str high_hash "c")
                   (len (s_alphas floor_raised))) = Some 0.
Proof.
  split; [|split].
  - vm_compute. discriminate.
  - vm_compute. reflexivity.
  - vm_compute. reflexivity.
Qed.

(** ** The error table is shared by the partitions *)

Section SharedFloors.

Variable H : string -> Z.

(** The eviction branch overwrites the floor of the evicted minimum's
    bucket with the minimum's count, whatever the floor was: the minimum of
    one partition can be smaller than a floor raised on behalf of another
    partition. *)
Lemma Insert_evict_overwrites x count s a mn :
  let i := partition_of (Hash64Str H x) in
  let mkhash := reduce (Hash64Str H (Key mn)) (len (s_alphas s)) in
  tk_m (s_p s !!! i) !! x = None ->
  s_n s <= len (tk_elts (s_p s !!! i)) ->
  index (s_alphas s) (bucket_of H s x) = Returned a ->
  index (tk_elts (s_p s !!! i)) 0 = Returned mn ->
  Count mn <= add64 a count ->
  0 <= mkhash < len (s_alphas s) ->
  ∃ e s', Insert H x count s = Returned (e, s') ∧
          s_alphas s' = <[Z.to_nat mkhash:=Count mn]> (s_alphas s) ∧
          s_alphas s' !! Z.to_nat mkhash = Some (Count mn).
Proof.
  intros i mkhash Hx Hfull Ha Hmin Hge Hmk.
  unfold Insert. fold i. rewrite Hx.
  apply Z.ltb_ge in Hfull as ->.
  unfold bucket_of in Ha. rewrite Ha. cbn [mbind outcome_bind].
  rewrite Hmin. cbn [mbind outcome_bind].
  apply Z.ltb_ge in Hge as ->. fold mkhash.
  destruct (index_in_range (s_alphas s) mkhash Hmk) as [a0 ->].
  cbn [mbind outcome_bind].
  apply index_Returned in Ha as [Hb0 Ha].
  destruct (index_in_range (<[Z.to_nat mkhash:=Count mn]> (s_alphas s))
              (reduce (Hash64Str H x) (len (s_alphas s)))) as [a1 ->].
  { rewrite len_insert. apply lookup_lt_Some in Ha. unfold len in *. lia. }
  cbn [mbind outcome_bind]. eexists _, _. split; [reflexivity|].
  cbn [s_alphas]. split; [done|].
  apply list_lookup_insert_eq. unfold len in Hmk. lia.
Qed.

(** [Merge] adds [other]'s floor to the receiver's six times, once in
    every iteration of the loop over the partitions. *)
Lemma Merge_alphas other s j a o :
  stream_wf H s -> stream_wf H other -> s_n s = s_n other ->
  s_alphas s !! j = Some a -> s_alphas other !! j = Some o ->
  is_int a -> is_int (a + 6 * o) ->
  ∃ s', Merge H other s = Returned (None, s', other) ∧
        s_alphas s' !! j = Some (a + 6 * o).
Proof.
  intros Hwf Hwfo Hn Ha Ho Hia Hi6.
  destruct (Merge_returns H other s Hwf Hwfo Hn) as (s' & Hm & _ & _ & Hal).
  exists s'. split; [done|]. rewrite Hal.
  assert (∀ k a', (k <= 6)%nat -> s_alphas s !! j = Some a' ->
            a' = a ->
            Nat.iter k (λ alphas, zip_with add64 alphas (s_alphas other))
              (s_alphas s) !! j = Some (a + Z.of_nat k * o)) as Hk.
  { induction k as [|k IH]; intros a' Hk Ha' ->.
    - simpl. rewrite Ha'. f_equal. lia.
    - rewrite Nat.iter_succ, lookup_zip_with.
      rewrite (IH a) by (done || lia). rewrite Ho. simpl. f_equal.
      rewrite add64_exact; [lia|].
      unfold is_int, min_int, max_int in *. nia. }
  by apply (Hk 6%nat a).
Qed.

(** Whatever the hash: take two keys [k1], [k2] of one partition and two
    keys [k3], [k4] of another, with [k2] and [k3] in the same bucket of the
    six-entry table of [New(1)].  After [Insert(k1,100)], [Insert(k2,50)],
    [Insert(k3,5)] the floor of that bucket is 50; [Insert(k4,10)] evicts
    [k3] and leaves 5 there, and [Estimate(k2)] then answers 5 although 50
    were inserted for [k2]. *)
Lemma floor_lowered_across_partitions k1 k2 k3 k4 :
  k1 ≠ k2 -> k3 ≠ k4 ->
  partition_of (Hash64Str H k1) = partition_of (Hash64Str H k2) ->
  partition_of (Hash64Str H k3) = partition_of (Hash64Str H k4) ->
  partition_of (Hash64Str H k1) ≠ partition_of (Hash64Str H k3) ->
  reduce (Hash64Str H k2) 6 = reduce (Hash64Str H k3) 6 ->
  ∃ s3 e4 s4 e,
    build H 1 [(k1, 100); (k2, 50); (k3, 5)] = Returned s3 ∧
    s_alphas s3 !! Z.to_nat (reduce (Hash64Str H k2) 6) = Some 50 ∧
    Insert H k4 10 s3 = Returned (e4, s4) ∧
    s_alphas s4 !! Z.to_nat (reduce (Hash64Str H k2) 6) = Some 5 ∧
    Estimate H k2 s4 = Returned (e, s4) ∧ Count e = 5 ∧
    exact_count k2 [(k1, 100); (k2, 50); (k3, 5); (k4, 10)] = 50.
Proof.
  intros H12 H34 HA HB HAB Hb.
  assert (k2 ≠ k3) as H23 by (intros ->; congruence).
  assert (k2 ≠ k4) as H24 by (intros ->; congruence).
  set (iA := partition_of (Hash64Str H k1)) in *.
  set (iB := partition_of (Hash64Str H k3)) in *.
  set (b := reduce (Hash64Str H k2) 6) in *.
  assert (0 <= b < 6) as Hbr by (apply reduce_range; lia).
  assert (∀ k, 0 <= reduce (Hash64Str H k) 6 < 6) as Hred
    by (intros; apply reduce_range; lia).
  (* the states after each insertion *)
  set (e1 := {| Key := k1; Count := 100; Error := 0 |}).
  set (e3 := {| Key := k3; Count := 5; Error := 0 |}).
  set (tkA := {| tk_m := <[k1:=0]> ∅; tk_elts := [e1] |}).
  set (tkB := {| tk_m := <[k3:=0]> ∅; tk_elts := [e3] |}).
  set (p0 := vreplicate nPartitions empty_keys).
  set (s0 := {| s_n := 1; s_p := p0; s_alphas := replicate 6 0 |}).
  set (s1 := {| s_n := 1; s_p := vinsert iA tkA p0;
                s_alphas := replicate 6 0 |}).
  set (s2 := {| s_n := 1; s_p := vinsert iA tkA p0;
                s_alphas := <[Z.to_nat b:=50]> (replicate 6 0) |}).
  set (s3 := {| s_n := 1; s_p := vinsert iB tkB (vinsert iA tkA p0);
                s_alphas := <[Z.to_nat b:=50]> (replicate 6 0) |}).
  assert (New 1 = Returned s0) as HNew by reflexivity.
  assert (Insert H k1 100 s0 = Returned (e1, s1)) as Hi1.
  { rewrite Insert_admit.
    - cbn [s_p s0]. fold iA. unfold p0. rewrite vlookup_replicate.
      by rewrite heap_Push_empty.
    - cbn [s_p s0]. unfold p0. by rewrite vlookup_replicate.
    - cbn [s_p s_n s0]. unfold p0. by rewrite vlookup_replicate. }
  assert (Insert H k2 50 s1 = Returned
            ({| Key := k2; Count := 50; Error := 0 |}, s2)) as Hi2.
  { rewrite (Insert_filter H k2 50 s1 0 e1).
    - rewrite add64_exact by done. unfold bucket_of. cbn [s_alphas s_p s_n s1].
      change (len (replicate 6 0)) with 6. by fold b.
    - cbn [s_p s1]. rewrite <- HA. fold iA. rewrite vlookup_insert.
      cbn [tk_m tkA]. by rewrite lookup_insert_ne, lookup_empty.
    - cbn [s_p s_n s1]. rewrite <- HA. fold iA. by rewrite vlookup_insert.
    - apply index_Returned. unfold bucket_of. cbn [s_alphas s1].
      change (len (replicate 6 0)) with 6.
      fold b. split; [lia|]. apply lookup_replicate_2. lia.
    - cbn [s_p s1]. rewrite <- HA. fold iA. by rewrite vlookup_insert.
    - rewrite add64_exact by done. cbn [Count e1]. lia. }
  assert (Insert H k3 5 s2 = Returned (e3, s3)) as Hi3.
  { rewrite Insert_admit.
    - cbn [s_p s_n s_alphas s2]. fold iB.
      rewrite vlookup_insert_ne by done. unfold p0.
      rewrite vlookup_replicate. by rewrite heap_Push_empty.
    - cbn [s_p s2]. fold iB. rewrite vlookup_insert_ne by done.
      unfold p0. by rewrite vlookup_replicate.
    - cbn [s_p s_n s2]. fold iB. rewrite vlookup_insert_ne by done.
      unfold p0. by rewrite vlookup_replicate. }
  assert (len (s_alphas s3) = 6) as Hlen3.
  { cbn [s_alphas s3]. rewrite len_insert. reflexivity. }
  destruct (index_in_range (s_alphas s3) (bucket_of H s3 k4)) as [a Ha].
  { unfold bucket_of. rewrite Hlen3. apply Hred. }
  assert (0 <= a) as Ha0.
  { apply index_Returned in Ha as [_ Ha]. cbn [s_alphas s3] in Ha.
    apply list_lookup_insert_Some in Ha as [(_ & <- & _)|[_ Ha]]; [lia|].
    apply lookup_replicate in Ha as [-> _]. lia. }
  assert (a <= 50) as Ha50.
  { apply index_Returned in Ha as [_ Ha]. cbn [s_alphas s3] in Ha.
    apply list_lookup_insert_Some in Ha as [(_ & <- & _)|[_ Ha]]; [lia|].
    apply lookup_replicate in Ha as [-> _]. lia. }
  destruct (Insert_evict_overwrites k4 10 s3 a e3)
    as (e4 & s4 & Hi4 & Hal4 & Hlook4).
  { cbn [s_p s3]. rewrite <- HB. fold iB. rewrite vlookup_insert.
    cbn [tk_m tkB]. by rewrite lookup_insert_ne, lookup_empty. }
  { cbn [s_p s_n s3]. rewrite <- HB. fold iB. by rewrite vlookup_insert. }
  { done. }
  { cbn [s_p s3]. rewrite <- HB. fold iB. by rewrite vlookup_insert. }
  { rewrite add64_exact by (unfold is_int, min_int, max_int; lia).
    cbn [Count e3]. lia. }
  { rewrite Hlen3. apply Hred. }
  cbn [Key e3] in Hal4, Hlook4. rewrite Hlen3, <- Hb in Hal4, Hlook4.
  fold b in Hal4, Hlook4. cbn [Count e3] in Hal4, Hlook4.
  destruct (Insert_other_partitions H k4 10 s3 e4 s4 iA Hi4) as [HpA Hn4].
  { rewrite <- HB. done. }
  exists s3, e4, s4, {| Key := k2; Count := 5; Error := 5 |}.
  split.
  { unfold build. rewrite HNew. cbn [mbind outcome_bind inserts].
    rewrite Hi1. cbn [mbind outcome_bind inserts snd].
    rewrite Hi2. cbn [mbind outcome_bind inserts snd].
    rewrite Hi3. reflexivity. }
  split.
  { cbn [s_alphas s3]. apply list_lookup_insert_eq.
    rewrite length_replicate. lia. }
  split; [done|]. split; [done|]. split.
  { apply Estimate_untracked.
    - rewrite <- HA. fold iA. rewrite HpA. cbn [s_p s3].
      rewrite vlookup_insert_ne by done. rewrite vlookup_insert.
      cbn [tk_m tkA]. by rewrite lookup_insert_ne, lookup_empty.
    - apply index_Returned. unfold bucket_of.
      assert (len (s_alphas s4) = 6) as ->.
      { rewrite Hal4, len_insert. done. }
      fold b. split; [lia|done]. }
  split; [done|].
  cbn [exact_count].
  rewrite (proj2 (String.eqb_neq k1 k2)) by done.
  rewrite String.eqb_refl.
  rewrite (proj2 (String.eqb_neq k3 k2)) by done.
  rewrite (proj2 (String.eqb_neq k4 k2)) by done. reflexivity.
Qed.

End SharedFloors.

Section SharedFloorsClaims.

Variable H : string -> Z.

(** C1 fails on the code, whatever the hash: for keys [k1], [k2] of one
    partition and [k3], [k4] of another, with [k2] and [k3] in the same
    bucket, the stream [Insert(k1,100); Insert(k2,50); Insert(k3,5);
    Insert(k4,10)] into [New(1)] (all counts non-negative) ends in a sketch
    whose [Estimate(k2)] has a count below the exact count 50 of [k2]: the
    floor 50 of the bucket, raised for [k2], is overwritten with the count 5
    of the minimum [k3] evicted from the other partition. *)
Theorem Estimate_below_exact_count k1 k2 k3 k4 :
  k1 ≠ k2 -> k3 ≠ k4 ->
  partition_of (Hash64Str H k1) = partition_of (Hash64Str H k2) ->
  partition_of (Hash64Str H k3) = partition_of (Hash64Str H k4) ->
  partition_of (Hash64Str H k1) ≠ partition_of (Hash64Str H k3) ->
  reduce (Hash64Str H k2) 6 = reduce (Hash64Str H k3) 6 ->
  let ops := [(k1, 100); (k2, 50); (k3, 5); (k4, 10)] in
  ∃ s e,
    build H 1 ops = Returned s ∧
    Estimate H k2 s = Returned (e, s) ∧
    exact_count k2 ops = 50 ∧ Count e = 5 ∧ Count e < exact_count k2 ops.
Proof.
  intros H12 H34 HA HB HAB Hb ops.
  destruct (floor_lowered_across_partitions H k1 k2 k3 k4 H12 H34 HA HB HAB Hb)
    as (s3 & e4 & s4 & e & Hb3 & _ & Hi4 & _ & He & Hc & Hx).
  exists s4, e. split.
  { exact (build_snoc H 1 [(k1, 100); (k2, 50); (k3, 5)] k4 10 s3 e4 s4
             Hb3 Hi4). }
  split; [done|]. split; [done|]. split; [done|].
  unfold ops. rewrite Hx, Hc. lia.
Qed.

(** C4 fails on the code, whatever the hash: with keys as for C1, after
    [Insert(k1,100); Insert(k2,50); Insert(k3,5)] into [New(1)] the call
    [Insert(k4,10)] takes the eviction branch and lowers the entry of the
    error table at the bucket of [k2] and [k3] from 50 to 5. *)
Theorem Insert_lowers_floor k1 k2 k3 k4 :
  k1 ≠ k2 -> k3 ≠ k4 ->
  partition_of (Hash64Str H k1) = partition_of (Hash64Str H k2) ->
  partition_of (Hash64Str H k3) = partition_of (Hash64Str H k4) ->
  partition_of (Hash64Str H k1) ≠ partition_of (Hash64Str H k3) ->
  reduce (Hash64Str H k2) 6 = reduce (Hash64Str H k3) 6 ->
  ∃ s e s',
    build H 1 [(k1, 100); (k2, 50); (k3, 5)] = Returned s ∧
    Insert H k4 10 s = Returned (e, s') ∧
    s_alphas s !! Z.to_nat (reduce (Hash64Str H k3) 6) = Some 50 ∧
    s_alphas s' !! Z.to_nat (reduce (Hash64Str H k3) 6) = Some 5.
Proof.
  intros H12 H34 HA HB HAB Hb.
  destruct (floor_lowered_across_partitions H k1 k2 k3 k4 H12 H34 HA HB HAB Hb)
    as (s3 & e4 & s4 & e & Hb3 & Hf3 & Hi4 & Hf4 & _).
  exists s3, e4, s4. rewrite <- Hb. done.
Qed.

End SharedFloorsClaims.

(** The failing input of C1 under [demo_hash]: [crossing_stream], after
    which [Estimate("g")] answers 5 for a key inserted with count 50. *)
Lemma Estimate_below_exact_count_witness :
  ∃ s e,
    build demo_hash 1 crossing_stream = Returned s ∧
    Estimate demo_hash "g" s = Returned (e, s) ∧
    exact_count "g" crossing_stream = 50 ∧ Count e = 5 ∧
    Count e < exact_count "g" crossing_stream.
Proof.
  apply (Estimate_below_exact_count demo_hash "a" "g" "b" "h").
  - discriminate.
  - discriminate.
  - vm_compute. reflexivity.
  - vm_compute. reflexivity.
  - vm_compute. discriminate.
  - vm_compute. reflexivity.
Defined.

(** The failing input of C4 under [demo_hash]: the last insertion of
    [crossing_stream] lowers the floor of bucket 0 from 50 to 5. *)
Lemma Insert_lowers_floor_witness :
  ∃ s e s',
    build demo_hash 1 [("a", 100); ("g", 50); ("b", 5)] = Returned s ∧
    Insert demo_hash "h" 10 s = Returned (e, s') ∧
    s_alphas s !! Z.to_nat (reduce (Hash64Str demo_hash "b") 6) = Some 50 ∧
    s_alphas s' !! Z.to_nat (reduce (Hash64Str demo_hash "b") 6) = Some 5.
Proof.
  apply (Insert_lowers_floor demo_hash "a" "g" "b" "h").
  - discriminate.
  - discriminate.
  - vm_compute. reflexivity.
  - vm_compute. reflexivity.
  - vm_compute. discriminate.
  - vm_compute. reflexivity.
Defined.

(** The same run, evaluated: the states and the answer. *)
Example crossing_stream_run :
  ∃ s e,
    build demo_hash 1 crossing_stream = Returned s ∧
    s_alphas s = [5; 0; 0; 0; 0; 0] ∧
    tk_elts (s_p s !!! 1%fin) = [{| Key := "a"; Count := 100; Error := 0 |}] ∧
    tk_elts (s_p s !!! 2%fin) = [{| Key := "h"; Count := 15; Error := 5 |}] ∧
    Estimate demo_hash "g" s = Returned (e, s) ∧
    e = {| Key := "g"; Count := 5; Error := 5 |}.
Proof.
  eexists _, _. split; [vm_compute; reflexivity|].
  split; [reflexivity|]. split; [reflexivity|]. split; [reflexivity|].
  split; [vm_compute; reflexivity|]. reflexivity.
Qed.

(** C2 fails on the code: a successful [Merge] between reachable sketches
    of equal [n] adds the entry of [other]'s error table to the receiver's
    six times, once in every iteration of the loop over the partitions, not
    once (as long as the sum fits an [int]). *)
Theorem Merge_adds_floors_six_times (H : string -> Z) s other j a o :
  reachable H s -> reachable H other -> s_n s = s_n other ->
  s_alphas s !! j = Some a -> s_alphas other !! j = Some o ->
  is_int (a + 6 * o) ->
  ∃ s', Merge H other s = Returned (None, s', other) ∧
        s_alphas s' !! j = Some (a + 6 * o).
Proof.
  intros Hs Ho Hn Ha Hoj Hint.
  pose proof (reachable_wf H s Hs) as Hwf.
  apply (Merge_alphas H other s j a o); try done.
  - by apply reachable_wf.
  - destruct Hwf as (_ & _ & _ & Hal & _).
    apply (Forall_lookup_1 _ _ _ _ Hal Ha).
Qed.

Lemma floor_four_reachable : reachable demo_hash floor_four.
Proof.
  apply (build_reachable demo_hash 1 [("a", 9); ("g", 4)]).
  - apply small_counts_int. vm_compute. reflexivity.
  - vm_compute. reflexivity.
Defined.

Lemma one_full_partition_reachable : reachable demo_hash one_full_partition.
Proof.
  apply (build_reachable demo_hash 1 [("a", 9)]).
  - apply small_counts_int. vm_compute. reflexivity.
  - vm_compute. reflexivity.
Defined.

(** The failing input of C2: merging [floor_four] (floor 4 in bucket 0)
    into a sketch whose floors are 0 leaves [0 + 6 * 4 = 24] in bucket 0,
    not 4. *)
Lemma Merge_adds_floors_six_times_witness :
  ∃ s', Merge demo_hash floor_four one_full_partition =
          Returned (None, s', floor_four) ∧
        s_alphas s' !! 0%nat = Some (0 + 6 * 4).
Proof.
  apply (Merge_adds_floors_six_times demo_hash one_full_partition floor_four
           0%nat 0 4).
  - apply one_full_partition_reachable.
  - apply floor_four_reachable.
  - reflexivity.
  - reflexivity.
  - reflexivity.
  - vm_compute. split; discriminate.
Defined.

(** The same merge, evaluated. *)
Example merge_floor_four_run :
  ∃ s',
    Merge demo_hash floor_four one_full_partition =
      Returned (None, s', floor_four) ∧
    s_alphas one_full_partition = [0; 0; 0; 0; 0; 0] ∧
    s_alphas floor_four = [4; 0; 0; 0; 0; 0] ∧
    s_alphas s' = [24; 0; 0; 0; 0; 0].
Proof.
  eexists. split; [vm_compute; reflexivity|]. split; [|split]; reflexivity.
Qed.

(** ** The codec reads back what it wrote *)

Lemma uint32_small z : 0 <= z < 2 ^ 32 -> uint32 z = z.
Proof. intros Hz. unfold uint32. by apply Z.mod_small. Qed.

(** Entries written in any order of visit rebuild the map. *)
Lemma entries_rebuild (m : gmap string Z) kvs :
  kvs ≡ₚ map_to_list m ->
  fold_left (λ m' kv, <[kv.1:=kv.2]> m') kvs ∅ = m.
Proof.
  intros Hperm.
  rewrite <- (fold_left_rev_right (λ kv m', <[kv.1:=kv.2]> m')).
  change (list_to_map (rev kvs) = m).
  transitivity (list_to_map (map_to_list m) : gmap string Z);
    [|apply list_to_map_to_list].
  symmetry. apply list_to_map_proper; [apply NoDup_fst_map_to_list|].
  rewrite <- Hperm. apply Permutation_rev.
Qed.

Section Roundtrip.

Context (W : Wire) (HW : Wire_laws W).

Lemma read_ints_written l rest :
  Forall is_int l ->
  read_ints (length l) ((l ≫= WriteInt) ++ rest) = Some (l, rest).
Proof.
  induction 1 as [|a l Ha Hl IH]; [done|].
  rewrite bind_cons, <- app_assoc. cbn [length read_ints].
  rewrite (ReadInt_WriteInt W HW) by done. cbn [mbind option_bind].
  by rewrite IH.
Qed.

Lemma read_entries_written kvs m rest :
  Forall (λ kv, short_key kv.1 ∧ is_int kv.2) kvs ->
  read_entries (length kvs) m
    ((kvs ≫= λ kv, WriteString kv.1 ++ WriteInt kv.2) ++ rest) =
  Some (fold_left (λ m' kv, <[kv.1:=kv.2]> m') kvs m, rest).
Proof.
  intros Hkvs. revert m.
  induction Hkvs as [|[k z] kvs [Hk Hz] Hl IH]; intros m; [done|].
  rewrite bind_cons, <- !app_assoc. cbn [length read_entries fst snd].
  rewrite (ReadString_WriteString W HW) by done. cbn [mbind option_bind].
  rewrite (ReadInt_WriteInt W HW) by done. cbn [mbind option_bind].
  by rewrite IH.
Qed.

Lemma read_elts_written elts rest :
  Forall (λ e, short_key (Key e) ∧ elt_int e) elts ->
  read_elts (length elts)
    ((elts ≫= λ e,
        WriteString (Key e) ++ WriteInt (Count e) ++ WriteInt (Error e))
     ++ rest) = Some (elts, rest).
Proof.
  induction 1 as [|[k c e] elts [Hk [Hc He]] Hl IH]; [done|].
  rewrite bind_cons, <- !app_assoc. cbn [length read_elts Key Count Error].
  rewrite (ReadString_WriteString W HW) by done. cbn [mbind option_bind].
  rewrite (ReadInt_WriteInt W HW) by done. cbn [mbind option_bind].
  rewrite (ReadInt_WriteInt W HW) by done. cbn [mbind option_bind].
  by rewrite IH.
Qed.

Lemma keys_roundtrip kvs tk tk0 rest :
  keys_wf tk -> len (tk_elts tk) < 2 ^ 32 ->
  Forall (λ e, short_key (Key e) ∧ elt_int e) (tk_elts tk) ->
  kvs ≡ₚ map_to_list (tk_m tk) ->
  keys_DecodeMsgp (keys_EncodeMsgp kvs tk ++ rest) tk0 = Some (tk, rest).
Proof.
  intros Hwf Hlen Helts Hperm.
  pose proof (keys_wf_size tk Hwf) as Hsize.
  assert (length kvs = size (tk_m tk)) as Hkl.
  { by rewrite Hperm, length_map_to_list. }
  assert (Forall (λ kv, short_key kv.1 ∧ is_int kv.2) kvs) as Hkvs.
  { apply Forall_forall. intros [k z] Hkz. rewrite Hperm in Hkz.
    apply elem_of_map_to_list in Hkz.
    destruct Hwf as [_ Hm]. apply Hm in Hkz as (i & e & -> & Hi & <-).
    split; cbn [fst snd].
    - apply (Forall_lookup_1 _ _ _ _ Helts Hi).
    - apply lookup_lt_Some in Hi. unfold len in Hlen.
      unfold is_int, min_int, max_int. lia. }
  unfold keys_EncodeMsgp, keys_DecodeMsgp. rewrite <- !app_assoc.
  unfold len in *.
  rewrite !uint32_small by lia.
  rewrite (ReadMapHeader_WriteMapHeader W HW) by lia.
  cbn [mbind option_bind]. rewrite Nat2Z.id, <- Hkl.
  rewrite read_entries_written by done. cbn [mbind option_bind].
  rewrite (ReadArrayHeader_WriteArrayHeader W HW) by lia.
  cbn [mbind option_bind]. rewrite Nat2Z.id.
  rewrite read_elts_written by done. cbn [mbind option_bind].
  rewrite (entries_rebuild _ _ Hperm). by destruct tk.
Qed.

Lemma partitions_roundtrip orders (p p0 : partitions) idxs rest :
  (∀ i, keys_wf (p !!! i) ∧ len (tk_elts (p !!! i)) < 2 ^ 32 ∧
        Forall (λ e, short_key (Key e) ∧ elt_int e) (tk_elts (p !!! i)) ∧
        orders i ≡ₚ map_to_list (tk_m (p !!! i))) ->
  partitions_DecodeMsgp idxs
    ((idxs ≫= λ i, keys_EncodeMsgp (orders i) (p !!! i)) ++ rest) p0 =
  Some (fold_left (λ q i, vinsert i (p !!! i) q) idxs p0, rest).
Proof.
  intros Hp. revert p0. induction idxs as [|i idxs IH]; intros p0; [done|].
  rewrite bind_cons, <- app_assoc. cbn [partitions_DecodeMsgp fold_left].
  destruct (Hp i) as (Hwf & Hlen & Helts & Hperm).
  rewrite keys_roundtrip by done. cbn [mbind option_bind].
  apply IH.
Qed.

Lemma partitions_refill (p p0 : partitions) :
  fold_left (λ q i, vinsert i (p !!! i) q) partition_indices p0 = p.
Proof.
  unfold nPartitions in *. inv_vec p. inv_vec p0. reflexivity.
Qed.

(** Decoding the output of [Encode] rebuilds the sketch, whatever the
    receiver held. *)
Lemma Decode_Encode_wire s s0 out :
  (∃ hash, stream_wf hash s) ->
  s_n s * 6 < 2 ^ 32 ->
  (∀ i, Forall (λ e, short_key (Key e)) (tk_elts (s_p s !!! i))) ->
  Encode s out -> Decode out s0 = Some s.
Proof.
  intros [hash (Hn0 & Hn6 & Hlen & Hints & Hp)] Hsmall Hkeys
    (orders & Horders & ->).
  unfold Decode, Stream_DecodeMsgp, Stream_EncodeMsgp.
  assert (is_int (s_n s)) by (unfold is_int, min_int, max_int; lia).
  rewrite (ReadInt_WriteInt W HW) by done. cbn [mbind option_bind].
  rewrite uint32_small by lia.
  rewrite (ReadArrayHeader_WriteArrayHeader W HW) by lia.
  cbn [mbind option_bind]. unfold len. rewrite Nat2Z.id.
  rewrite read_ints_written by done. cbn [mbind option_bind].
  unfold partitions_EncodeMsgp.
  rewrite <- (app_nil_r (partition_indices ≫= _)).
  rewrite partitions_roundtrip; [|].
  - cbn [mbind option_bind]. rewrite partitions_refill. by destruct s.
  - intros i. destruct (Hp i) as (Hwf & Hcap & Hei & _).
    split; [done|]. split; [lia|]. split; [|done].
    apply Forall_forall. intros e He. split.
    + by apply (proj1 (Forall_forall _ _) (Hkeys i)).
    + by apply (proj1 (Forall_forall _ _) Hei).
Qed.

End Roundtrip.

(** ** MessagePack satisfies the laws of the wire *)

Lemma be_length k v : length (be k v) = k.
Proof. induction k as [|k IH]; simpl; [done|by rewrite IH]. Qed.

Lemma from_be_be k v acc :
  from_be (be k v) acc = acc * 256 ^ Z.of_nat k + v mod 256 ^ Z.of_nat k.
Proof.
  revert acc. induction k as [|k IH]; intros acc.
  - cbn [be from_be]. change (256 ^ Z.of_nat 0) with 1.
    rewrite Z.mod_1_r. lia.
  - cbn [be from_be]. rewrite IH.
    rewrite Nat2Z.inj_succ, Z.pow_succ_r by lia.
    assert (0 < 256 ^ Z.of_nat k) as Hpos by (apply Z.pow_pos_nonneg; lia).
    rewrite (Z.mul_comm 256 (256 ^ Z.of_nat k)).
    rewrite (Z.rem_mul_r v (256 ^ Z.of_nat k) 256) by lia. lia.
Qed.

Lemma read_be_be k v rest :
  0 <= v < 256 ^ Z.of_nat k -> read_be k (be k v ++ rest) = Some (v, rest).
Proof.
  intros Hv. unfold read_be.
  destruct (Nat.ltb_spec (length (be k v ++ rest)) k) as [Hlt|_].
  { rewrite length_app, be_length in Hlt. lia. }
  rewrite (take_app_length' _ _ k), (drop_app_length' _ _ k)
    by (by rewrite be_length).
  rewrite from_be_be, Z.mod_small by done. reflexivity.
Qed.

Lemma read_signed_nonneg k i rest :
  0 <= i < 256 ^ Z.of_nat k / 2 ->
  read_signed k (be k i ++ rest) = Some (i, rest).
Proof.
  intros Hi. unfold read_signed.
  assert (0 < 256 ^ Z.of_nat k) as Hpos by (apply Z.pow_pos_nonneg; lia).
  pose proof (Z.mul_div_le (256 ^ Z.of_nat k) 2 ltac:(lia)).
  rewrite read_be_be by lia. cbn [mbind option_bind].
  by destruct (Z.ltb_spec i (256 ^ Z.of_nat k / 2)); [|lia].
Qed.

Lemma read_signed_neg k i rest :
  (0 < k)%nat -> - (256 ^ Z.of_nat k / 2) <= i < 0 ->
  read_signed k (be k (i + 256 ^ Z.of_nat k) ++ rest) = Some (i, rest).
Proof.
  intros Hk Hi. unfold read_signed.
  assert (256 ^ Z.of_nat k = 2 * (256 ^ Z.of_nat k / 2)) as Heven.
  { destruct k as [|k]; [lia|].
    rewrite Nat2Z.inj_succ, Z.pow_succ_r by lia.
    replace (256 * 256 ^ Z.of_nat k) with (128 * 256 ^ Z.of_nat k * 2) by lia.
    rewrite Z.div_mul by lia. lia. }
  rewrite read_be_be by lia. cbn [mbind option_bind].
  destruct (Z.ltb_spec (i + 256 ^ Z.of_nat k) (256 ^ Z.of_nat k / 2)); [lia|].
  do 2 f_equal. lia.
Qed.

Lemma msgp_ReadInt_WriteInt z rest :
  is_int z -> msgp_ReadInt (msgp_WriteInt z ++ rest) = Some (z, rest).
Proof.
  unfold is_int, min_int, max_int. intros Hz. unfold msgp_WriteInt.
  destruct (Z.leb_spec 0 z) as [Hpos|Hneg].
  - destruct (Z.leb_spec z 127).
    { cbn [app msgp_ReadInt]. by destruct (Z.leb_spec z 127); [|lia]. }
    destruct (Z.leb_spec z 32767).
    { cbn. apply (read_signed_nonneg 2). change (256 ^ Z.of_nat 2 / 2) with 32768.
      lia. }
    destruct (Z.leb_spec z 2147483647).
    { cbn. apply (read_signed_nonneg 4).
      change (256 ^ Z.of_nat 4 / 2) with 2147483648. lia. }
    cbn. apply (read_signed_nonneg 8).
    change (256 ^ Z.of_nat 8 / 2) with (2 ^ 63). lia.
  - destruct (Z.leb_spec (-32) z).
    { cbn [app msgp_ReadInt].
      destruct (Z.leb_spec (z + 256) 127); [lia|].
      destruct (Z.leb_spec 224 (z + 256)); [|lia]. do 2 f_equal. lia. }
    destruct (Z.leb_spec (-128) z).
    { cbn. apply (read_signed_neg 1); [lia|].
      change (256 ^ Z.of_nat 1 / 2) with 128. lia. }
    destruct (Z.leb_spec (-32768) z).
    { cbn. change (2 ^ 16) with (256 ^ Z.of_nat 2).
      apply (read_signed_neg 2); [lia|].
      change (256 ^ Z.of_nat 2 / 2) with 32768. lia. }
    destruct (Z.leb_spec (-2147483648) z).
    { cbn. change (2 ^ 32) with (256 ^ Z.of_nat 4).
      apply (read_signed_neg 4); [lia|].
      change (256 ^ Z.of_nat 4 / 2) with 2147483648. lia. }
    cbn. change (2 ^ 64) with (256 ^ Z.of_nat 8).
    apply (read_signed_neg 8); [lia|].
    change (256 ^ Z.of_nat 8 / 2) with (2 ^ 63). lia.
Qed.

Lemma string_bytes_length x :
  length (string_bytes x) = String.length x.
Proof.
  unfold string_bytes. rewrite length_fmap.
  induction x as [|c x IH]; simpl; [done|by rewrite IH].
Qed.

Lemma bytes_string_bytes x : bytes_string (string_bytes x) = x.
Proof.
  unfold bytes_string, string_bytes. rewrite <- list_fmap_compose.
  rewrite <- (string_of_list_ascii_of_string x) at 2. f_equal.
  rewrite <- (list_fmap_id (list_ascii_of_string x)) at 2.
  apply list_fmap_ext. intros _ c _. unfold compose. simpl.
  by rewrite N2Z.id, ascii_N_embedding.
Qed.

Lemma read_bytes_string x rest :
  read_bytes (Z.of_nat (String.length x)) (string_bytes x ++ rest) =
  Some (x, rest).
Proof.
  unfold read_bytes. rewrite Nat2Z.id.
  destruct (Nat.ltb_spec (length (string_bytes x ++ rest)) (String.length x))
    as [Hlt|_].
  { rewrite length_app, string_bytes_length in Hlt. lia. }
  rewrite (take_app_length' _ _ (String.length x)),
    (drop_app_length' _ _ (String.length x))
    by (by rewrite string_bytes_length).
  by rewrite bytes_string_bytes.
Qed.

Lemma msgp_ReadString_long k mark r :
  (k, mark) = (1%nat, 217) ∨ (k, mark) = (2%nat, 218) ∨
  (k, mark) = (4%nat, 219) ->
  msgp_ReadString (mark :: r) =
    (read_be k r ≫= λ '(sz, r''), read_bytes sz r'').
Proof. by intros [[= -> ->]|[[= -> ->]|[= -> ->]]]. Qed.

Lemma msgp_ReadString_WriteString x rest :
  Z.of_nat (String.length x) < 2 ^ 32 ->
  msgp_ReadString (msgp_WriteString x ++ rest) = Some (x, rest).
Proof.
  intros Hx. unfold msgp_WriteString. cbv zeta.
  rewrite uint32_small by lia.
  set (sz := Z.of_nat (String.length x)) in *.
  assert (0 <= sz) by lia.
  rewrite <- app_assoc.
  destruct (Z.leb_spec sz 31).
  { cbn [app msgp_ReadString].
    destruct (Z.leb_spec 160 (160 + sz)); [|lia].
    destruct (Z.leb_spec (160 + sz) 191); [|lia]. cbn [andb].
    replace (160 + sz - 160) with sz by lia. apply read_bytes_string. }
  destruct (Z.leb_spec sz 255).
  { cbn [app]. rewrite (msgp_ReadString_long 1) by auto.
    rewrite (read_be_be 1) by (change (256 ^ Z.of_nat 1) with 256; lia).
    apply read_bytes_string. }
  destruct (Z.leb_spec sz 65535).
  { cbn [app]. rewrite (msgp_ReadString_long 2) by auto.
    rewrite (read_be_be 2) by (change (256 ^ Z.of_nat 2) with 65536; lia).
    apply read_bytes_string. }
  cbn [app]. rewrite (msgp_ReadString_long 4) by auto.
  rewrite (read_be_be 4) by (change (256 ^ Z.of_nat 4) with (2 ^ 32); lia).
  apply read_bytes_string.
Qed.

Lemma msgp_ReadHeader_WriteHeader m4 m16 m32 sz rest :
  ¬ m4 <= m16 <= m4 + 15 -> ¬ m4 <= m32 <= m4 + 15 -> m16 ≠ m32 ->
  0 <= sz < 2 ^ 32 ->
  msgp_ReadHeader m4 m16 m32 (msgp_WriteHeader m4 m16 m32 sz ++ rest) =
  Some (sz, rest).
Proof.
  intros H16 H32 Hne Hsz. unfold msgp_WriteHeader.
  destruct (Z.leb_spec sz 15).
  { cbn [app msgp_ReadHeader].
    destruct (Z.leb_spec m4 (m4 + sz)); [|lia].
    destruct (Z.leb_spec (m4 + sz) (m4 + 15)); [|lia]. cbn [andb].
    do 2 f_equal. lia. }
  destruct (Z.leb_spec sz 65535).
  { cbn [app msgp_ReadHeader].
    destruct (Z.leb_spec m4 m16), (Z.leb_spec m16 (m4 + 15)); try lia;
      cbn [andb]; rewrite Z.eqb_refl;
      apply (read_be_be 2); change (256 ^ Z.of_nat 2) with 65536; lia. }
  cbn [app msgp_ReadHeader].
  destruct (Z.eqb_spec m32 m16); [congruence|].
  destruct (Z.leb_spec m4 m32), (Z.leb_spec m32 (m4 + 15)); try lia;
    cbn [andb]; rewrite Z.eqb_refl;
    apply (read_be_be 4); change (256 ^ Z.of_nat 4) with (2 ^ 32); lia.
Qed.

Lemma msgpack_laws : Wire_laws msgpack.
Proof.
  split.
  - apply msgp_ReadInt_WriteInt.
  - apply msgp_ReadString_WriteString.
  - intros sz rest Hsz. apply msgp_ReadHeader_WriteHeader; (done || lia).
  - intros sz rest Hsz. apply msgp_ReadHeader_WriteHeader; (done || lia).
Qed.

(** ** Round trip through the codec *)

Section RoundtripClaim.

Variable H : string -> Z.

(** C9 (amended): for every reachable sketch [s] with an error table
    shorter than [2^32] entries and keys shorter than [2^32] bytes, the
    limits of the [uint32] headers on the wire, [Encode] produces an output, and
    decoding any output it can produce, into any receiver, returns no error
    and leaves the receiver equal to [s]: the same [n], the same [alphas],
    and in every partition the same element array and the same slot map. *)
Theorem Decode_Encode s :
  reachable H s ->
  s_n s * 6 < 2 ^ 32 ->
  (∀ i, Forall (λ e, short_key (Key e)) (tk_elts (s_p s !!! i))) ->
  (∃ out, Encode (W:=msgpack) s out) ∧
  ∀ out s0, Encode (W:=msgpack) s out -> Decode (W:=msgpack) out s0 = Some s.
Proof.
  intros Hr Hsmall Hkeys. split.
  - exists (Stream_EncodeMsgp (W:=msgpack)
              (λ i, map_to_list (tk_m (s_p s !!! i))) s).
    by exists (λ i, map_to_list (tk_m (s_p s !!! i))).
  - intros out s0 Hout.
    apply (Decode_Encode_wire msgpack msgpack_laws s s0 out); try done.
    exists H. by apply reachable_wf.
Qed.

End RoundtripClaim.

Lemma Decode_Encode_witness :
  (∃ out, Encode (W:=msgpack) two_in_one_partition out) ∧
  ∀ out s0, Encode (W:=msgpack) two_in_one_partition out ->
            Decode (W:=msgpack) out s0 = Some two_in_one_partition.
Proof.
  apply (Decode_Encode demo_hash two_in_one_partition).
  - apply two_in_one_partition_reachable.
  - vm_compute. reflexivity.
  - intros i. unfold nPartitions in i.
    inv_fin i; [|intros i; inv_fin i; [|intros i; inv_fin i;
      [|intros i; inv_fin i; [|intros i; inv_fin i;
        [|intros i; inv_fin i; [|intros i; inv_fin i]]]]]];
      repeat constructor.
Defined.

(** An error table that starts with three zeros but is announced as two
    entries does not decode: the third zero stands where the map header of
    the first partition is expected. *)
Lemma Decode_truncated_table orders n p m s0 :
  is_int n ->
  uint32 (len (replicate (S (S (S m))) 0)) = 2 ->
  Decode (W:=msgpack)
    (Stream_EncodeMsgp (W:=msgpack) orders
       {| s_n := n; s_p := p; s_alphas := replicate (S (S (S m))) 0 |}) s0
  = None.
Proof.
  intros Hn Hsz. unfold Decode, Stream_DecodeMsgp, Stream_EncodeMsgp.
  cbn [s_n s_alphas s_p]. rewrite Hsz.
  rewrite (ReadInt_WriteInt msgpack msgpack_laws) by done.
  cbn [mbind option_bind].
  rewrite (ReadArrayHeader_WriteArrayHeader msgpack msgpack_laws) by lia.
  cbn [mbind option_bind].
  change (replicate (S (S (S m))) 0) with ([0; 0] ++ (0 :: replicate m 0)).
  rewrite bind_app, <- app_assoc.
  rewrite (read_ints_written msgpack msgpack_laws [0; 0])
    by (repeat constructor; apply is_int_0).
  cbn [mbind option_bind]. rewrite bind_cons, <- app_assoc.
  reflexivity.
Qed.

(** C9 as stated fails for a sketch whose error table has [2^32] entries or
    more: [New(715827883)] is reachable, [Encode] writes its table of
    [2^32 + 2] zeros under the header [uint32(2^32 + 2) = 2], and [Decode]
    of any output of [Encode] returns an error instead of the sketch. *)
Lemma Decode_Encode_truncates :
  reachable demo_hash wide_sketch ∧
  len (s_alphas wide_sketch) = 2 ^ 32 + 2 ∧
  (∃ out, Encode (W:=msgpack) wide_sketch out) ∧
  ∀ out s0, Encode (W:=msgpack) wide_sketch out ->
            Decode (W:=msgpack) out s0 = None ∧
            Decode (W:=msgpack) out s0 ≠ Some wide_sketch.
Proof.
  split; [|split; [|split]].
  - apply (reachable_New _ 715827883). unfold New.
    destruct (Z.ltb_spec 715827883 0) as [?|_]; [lia|].
    destruct (Z.ltb_spec max_int (715827883 * 6)) as [Hlt|_];
      [unfold max_int in Hlt; lia|].
    reflexivity.
  - unfold wide_sketch, len. cbn [s_alphas]. rewrite length_replicate. lia.
  - exists (Stream_EncodeMsgp (W:=msgpack)
              (λ i, map_to_list (tk_m (s_p wide_sketch !!! i))) wide_sketch).
    by exists (λ i, map_to_list (tk_m (s_p wide_sketch !!! i))).
  - intros out s0 (orders & _ & ->).
    assert (Decode (W:=msgpack)
              (Stream_EncodeMsgp (W:=msgpack) orders wide_sketch) s0 = None)
      as Hnone; [|rewrite Hnone; split; [reflexivity|discriminate]].
    unfold wide_sketch.
    assert (Z.to_nat (715827883 * 6)
            = S (S (S (Z.to_nat (715827883 * 6 - 3))))) as -> by lia.
    apply Decode_truncated_table.
    + unfold is_int, min_int, max_int. lia.
    + unfold len. rewrite length_replicate.
      replace (Z.of_nat (S (S (S (Z.to_nat (715827883 * 6 - 3))))))
        with 4294967298 by lia.
      reflexivity.
Qed.

Example encode_two_in_one_partition :
  Stream_EncodeMsgp (W:=msgpack)
    (λ i, map_to_list (tk_m (s_p two_in_one_partition !!! i)))
    two_in_one_partition =
  [2; 156; 0; 0; 0; 0; 0; 0; 0; 0; 0; 0; 0; 0;
   128; 144;
   130; 161; 103; 0; 161; 97; 1;
   146; 161; 103; 3; 0; 161; 97; 5; 0;
   128; 144; 128; 144; 128; 144; 128; 144].
Proof. vm_compute. reflexivity. Qed.

(** * Further properties of the code *)

(** ** [reduce], [New] and calls that cannot fail *)

(** X1: [reduce(x, n)] is an index into a table of [n] entries, for every
    hash [x] and every positive length [n] (also for lengths of [2^32] and
    more, where the product wraps around). *)
Theorem reduce_in_table x n : 0 < n -> 0 <= reduce x n < n.
Proof. apply reduce_range. Qed.

Lemma reduce_in_table_witness : 0 <= reduce (2 ^ 63 + 12345) 6 < 6.
Proof. apply (reduce_in_table (2 ^ 63 + 12345) 6). lia. Defined.

Section Totality.

Variable H : string -> Z.

(** X2: on a reachable sketch with [n >= 1] neither [Insert] nor
    [Estimate] panics, whatever the key and the count: every slice index
    they compute is in range. *)
Theorem Insert_Estimate_return s x count :
  reachable H s -> 1 <= s_n s ->
  (∃ e s', Insert H x count s = Returned (e, s')) ∧
  (∃ e, Estimate H x s = Returned (e, s)).
Proof.
  intros Hr Hn. pose proof (reachable_wf H s Hr) as Hwf. split.
  - by apply Insert_returns.
  - by apply Estimate_returns.
Qed.

Lemma index_nil {A} i : index (@nil A) i = Panicked.
Proof. unfold index. by destruct (i <? 0). Qed.

Lemma partitions_all_empty (p : partitions) :
  (∀ i, tk_elts (p !!! i) = []) -> concat (tk_elts <$> vec_to_list p) = [].
Proof.
  intros Hp. rewrite partitions_to_list, <- list_fmap_compose.
  induction partition_indices as [|i idxs IH]; [done|].
  cbn [fmap list_fmap concat compose]. by rewrite Hp.
Qed.

(** X3: a sketch made with [New(0)] tracks nothing and has an empty error
    table: on every reachable sketch with [n = 0], [Insert] and [Estimate]
    panic (the index into [alphas] is out of range) and [Keys] returns the
    empty slice. *)
Theorem zero_capacity s x count :
  reachable H s -> s_n s = 0 ->
  Insert H x count s = Panicked ∧ Estimate H x s = Panicked ∧
  Keys s = Returned ([], s).
Proof.
  intros Hr Hn. pose proof (reachable_wf H s Hr) as (_ & _ & Hlen & _ & Hp).
  assert (s_alphas s = []) as Hal.
  { apply length_zero_iff_nil. unfold len in Hlen. lia. }
  assert (∀ i, tk_elts (s_p s !!! i) = []) as Helts.
  { intros i. destruct (Hp i) as (_ & Hcap & _).
    apply length_zero_iff_nil. unfold len in Hcap. lia. }
  assert (∀ i k, tk_m (s_p s !!! i) !! k = None) as Hm.
  { intros i k. destruct (Hp i) as (Hwf & _).
    rewrite (keys_wf_map _ Hwf), Helts. apply lookup_empty. }
  split; [|split].
  - unfold Insert. rewrite Hm, Helts, Hn, Hal.
    change (len [] <? 0) with false. cbv iota. by rewrite (@index_nil Z).
  - unfold Estimate. rewrite Hm, Hal. by rewrite (@index_nil Z).
  - unfold Keys. rewrite Hn, (partitions_all_empty _ Helts).
    rewrite wrap64_small by (vm_compute; split; discriminate). reflexivity.
Qed.

(** X4: every reachable sketch keeps its structure: [n >= 0], the error
    table has [6 n] entries, and in each partition the keys of the element
    array are pairwise different, the slot map holds exactly the pairs
    (key at slot [i], [i]) and so has as many entries as the array has
    elements, and every key stored there hashes to that partition. *)
Theorem reachable_structure s :
  reachable H s ->
  0 <= s_n s ∧ len (s_alphas s) = s_n s * 6 ∧
  ∀ i,
    NoDup (Key <$> tk_elts (s_p s !!! i)) ∧
    (∀ k z, tk_m (s_p s !!! i) !! k = Some z ↔
            ∃ idx e, z = Z.of_nat idx ∧
                     tk_elts (s_p s !!! i) !! idx = Some e ∧ Key e = k) ∧
    size (tk_m (s_p s !!! i)) = length (tk_elts (s_p s !!! i)) ∧
    ∀ e, e ∈ tk_elts (s_p s !!! i) ->
         partition_of (Hash64Str H (Key e)) = i.
Proof.
  intros Hr. pose proof (reachable_wf H s Hr) as (Hn0 & _ & Hlen & _ & Hp).
  split; [done|]. split; [done|]. intros i.
  destruct (Hp i) as (Hwf & _ & _ & Hrt).
  split; [apply Hwf|]. split; [apply Hwf|].
  split; [by apply keys_wf_size|].
  intros e He. apply (proj1 (Forall_forall _ _) Hrt e He).
Qed.

End Totality.

Lemma Insert_Estimate_return_witness :
  (∃ e s', Insert demo_hash "z" 7 two_in_one_partition = Returned (e, s')) ∧
  (∃ e, Estimate demo_hash "z" two_in_one_partition
        = Returned (e, two_in_one_partition)).
Proof.
  apply (Insert_Estimate_return demo_hash two_in_one_partition "z" 7).
  - apply two_in_one_partition_reachable.
  - vm_compute. discriminate.
Defined.

Lemma no_capacity_reachable H : reachable H no_capacity.
Proof. by apply (reachable_New _ 0). Qed.

Lemma zero_capacity_witness :
  Insert demo_hash "a" 1 no_capacity = Panicked ∧
  Estimate demo_hash "a" no_capacity = Panicked ∧
  Keys no_capacity = Returned ([], no_capacity).
Proof.
  apply (zero_capacity demo_hash no_capacity "a" 1).
  - apply no_capacity_reachable.
  - reflexivity.
Defined.

Lemma reachable_structure_witness :
  0 <= s_n two_in_one_partition ∧
  len (s_alphas two_in_one_partition) = s_n two_in_one_partition * 6 ∧
  ∀ i,
    NoDup (Key <$> tk_elts (s_p two_in_one_partition !!! i)) ∧
    (∀ k z, tk_m (s_p two_in_one_partition !!! i) !! k = Some z ↔
            ∃ idx e, z = Z.of_nat idx ∧
                     tk_elts (s_p two_in_one_partition !!! i) !! idx = Some e ∧
                     Key e = k) ∧
    size (tk_m (s_p two_in_one_partition !!! i))
      = length (tk_elts (s_p two_in_one_partition !!! i)) ∧
    ∀ e, e ∈ tk_elts (s_p two_in_one_partition !!! i) ->
         partition_of (Hash64Str demo_hash (Key e)) = i.
Proof.
  apply (reachable_structure demo_hash two_in_one_partition).
  apply two_in_one_partition_reachable.
Defined.

(** ** What [Insert] stores is what [Estimate] and [Keys] report *)

Lemma keys_wf_elem tk e :
  keys_wf tk -> e ∈ tk_elts tk ->
  ∃ z, tk_m tk !! Key e = Some z ∧ index (tk_elts tk) z = Returned e.
Proof.
  intros [_ Hm] [i Hi]%list_elem_of_lookup_1.
  exists (Z.of_nat i). split.
  - apply Hm. by exists i, e.
  - apply index_Returned. split; [lia|]. by rewrite Nat2Z.id.
Qed.

Lemma elem_of_partition_indices (i : fin nPartitions) : i ∈ partition_indices.
Proof.
  unfold partition_indices, nPartitions in *.
  repeat (inv_fin i; [set_solver|intros i]). inv_fin i.
Qed.

Lemma elem_of_all_elts (p : partitions) e :
  e ∈ concat (tk_elts <$> vec_to_list p) <-> ∃ i, e ∈ tk_elts (p !!! i).
Proof.
  rewrite partitions_to_list, <- list_fmap_compose.
  change (concat ?l) with (mjoin l). rewrite (list_elem_of_join e). split.
  - intros (l & He & (i & -> & _)%list_elem_of_fmap). by exists i.
  - intros [i He]. exists (tk_elts (p !!! i)). split; [done|].
    apply list_elem_of_fmap. exists i. split; [done|].
    apply elem_of_partition_indices.
Qed.

Section Reports.

Variable H : string -> Z.

Lemma Estimate_elem s e :
  stream_wf H s ->
  e ∈ tk_elts (s_p s !!! partition_of (Hash64Str H (Key e))) ->
  Estimate H (Key e) s = Returned (e, s).
Proof.
  intros (_ & _ & _ & _ & Hp) He.
  destruct (Hp (partition_of (Hash64Str H (Key e)))) as (Hwf & _).
  destruct (keys_wf_elem _ _ Hwf He) as (z & Hz & Hidx).
  unfold Estimate. rewrite Hz, Hidx. reflexivity.
Qed.

(** X5: [Estimate(x)] right after [Insert(x, count)] reports the count
    that [Insert] returned.  When the key is tracked after the call,
    [Estimate] returns the very element [Insert] returned; when the
    insertion only raised the bucket floor, it returns that floor as both
    count and error, and the partitions are as before. *)
Theorem Insert_then_Estimate s x count e s' :
  reachable H s -> is_int count ->
  Insert H x count s = Returned (e, s') ->
  Key e = x ∧
  ∃ e', Estimate H x s' = Returned (e', s') ∧ Count e' = Count e ∧
        (e' = e ∨
         (e' = {| Key := x; Count := Count e; Error := Count e |} ∧
          s_p s' = s_p s)).
Proof.
  intros Hr Hc Hins. pose proof (reachable_wf H s Hr) as Hwf.
  pose proof (Insert_wf H x count s e s' Hwf Hc Hins) as Hwf'.
  pose proof Hwf as (_ & _ & _ & _ & Hp).
  apply Insert_cases in Hins. cbv zeta in Hins.
  set (i := partition_of (Hash64Str H x)) in *.
  destruct (Hp i) as (Hkwf & _).
  assert (∀ e1, Key e1 = x -> e1 ∈ tk_elts (s_p s' !!! i) ->
                Key e1 = x ∧
                ∃ e', Estimate H x s' = Returned (e', s') ∧
                      Count e' = Count e1 ∧
                      (e' = e1 ∨
                       (e' = {| Key := x; Count := Count e1;
                                Error := Count e1 |} ∧ s_p s' = s_p s)))
    as Htracked.
  { intros e1 Hk He1. split; [done|]. exists e1.
    split; [|by auto]. subst x. by apply Estimate_elem. }
  destruct Hins as [(idx & e0 & Hlook & Hidx & He0 & -> & ->)
    |[(Hlook & Hroom & -> & ->)
    |[(a & mn & Hlook & Hfull & Hx0 & Ha & Hmn & Hlt & -> & ->)
    |(a & mn & a1 & Hlook & Hfull & Hx0 & Ha & Hmn & Hge & Hm0 & Hma & Ha1
        & -> & ->)]]].
  - apply Htracked.
    + destruct (keys_wf_tracked _ _ _ Hkwf Hlook) as (e1 & _ & He1 & Hk).
      cbn [Key]. congruence.
    + cbn [s_p]. rewrite vlookup_insert, heap_Fix_Permutation. cbn [tk_elts].
      apply list_elem_of_insert. by eapply lookup_lt_Some.
  - apply Htracked; [done|].
    cbn [s_p]. rewrite vlookup_insert, heap_Push_Permutation. left.
  - split; [done|].
    exists {| Key := x; Count := add64 a count; Error := add64 a count |}.
    split; [|by auto].
    apply Estimate_untracked; [done|].
    unfold bucket_of. cbn [s_alphas]. rewrite len_insert.
    apply index_Returned. split; [done|].
    apply list_lookup_insert_eq. by eapply lookup_lt_Some.
  - apply Htracked; [done|].
    cbn [s_p]. rewrite vlookup_insert, heap_Fix_Permutation. cbn [tk_elts].
    apply list_elem_of_insert. by eapply lookup_lt_Some.
Qed.

(** X6: every element that [Keys] returns is the element that [Estimate]
    returns for its key, on every reachable sketch. *)
Theorem Keys_agree_with_Estimate s elts s' e :
  reachable H s -> Keys s = Returned (elts, s') -> e ∈ elts ->
  s' = s ∧ Estimate H (Key e) s = Returned (e, s).
Proof.
  intros Hr Hkeys He. pose proof (reachable_wf H s Hr) as Hwf.
  unfold Keys in Hkeys. destruct (wrap64 _ <? 0); [done|].
  apply bind_Returned in Hkeys as (elts1 & Htrim & Hret).
  apply Returned_pair in Hret as [<- <-]. split; [done|].
  apply trim_Returned in Htrim as (Hsub & _).
  assert (e ∈ sort_Sort (concat (tk_elts <$> vec_to_list (s_p s)))) as Hin.
  { by eapply elem_of_sublist. }
  rewrite sort_Sort_Permutation in Hin.
  apply elem_of_all_elts in Hin as [i Hi].
  destruct Hwf as (? & ? & ? & ? & Hp). pose proof (Hp i) as (_ & _ & _ & Hrt).
  pose proof (proj1 (Forall_forall _ _) Hrt e Hi) as Hroute.
  unfold routed in Hroute.
  apply Estimate_elem; [done|]. by rewrite Hroute.
Qed.

(** X7: [Keys] returns the best-ranked tracked elements.  Every returned
    element is stored in some partition; every stored element that is left
    out ranks strictly after every returned one (smaller count, or the same
    count and a larger key); and when at most [n] elements are stored, all
    of them are returned. *)
Theorem Keys_top s elts s' :
  reachable H s -> Keys s = Returned (elts, s') ->
  (∀ e, e ∈ elts -> ∃ i, e ∈ tk_elts (s_p s !!! i)) ∧
  (∀ a b i, a ∈ elts -> b ∈ tk_elts (s_p s !!! i) -> b ∉ elts ->
            byCount_Less a b = true) ∧
  (len (concat (tk_elts <$> vec_to_list (s_p s))) <= s_n s ->
   elts ≡ₚ concat (tk_elts <$> vec_to_list (s_p s))).
Proof.
  intros Hr Hkeys. pose proof (reachable_wf H s Hr) as Hwf.
  pose proof (all_keys_NoDup H s Hwf) as Hnd.
  destruct Hwf as (Hn0 & _).
  unfold Keys in Hkeys. destruct (wrap64 _ <? 0); [done|].
  apply bind_Returned in Hkeys as (elts1 & Htrim & Hret).
  apply Returned_pair in Hret as [<- <-].
  set (all := concat (tk_elts <$> vec_to_list (s_p s))) in *.
  pose proof (trim_Returned _ _ _ Htrim) as (Hsub & _ & Hall).
  rewrite trim_take in Htrim by done. apply Returned_inj in Htrim.
  split; [|split].
  - intros e He. apply elem_of_all_elts. fold all.
    rewrite <- (sort_Sort_Permutation all). by eapply elem_of_sublist.
  - intros a b i Ha Hb Hnb.
    assert (b ∈ sort_Sort all) as Hbs.
    { rewrite sort_Sort_Permutation. apply elem_of_all_elts. by exists i. }
    rewrite <- (take_drop (Z.to_nat (s_n s)) (sort_Sort all)) in Hbs.
    rewrite Htrim in Hbs. apply elem_of_app in Hbs as [Hbs|Hbs]; [done|].
    pose proof (sort_Sort_sorted all) as Hsorted.
    rewrite <- (take_drop (Z.to_nat (s_n s)) (sort_Sort all)), Htrim
      in Hsorted.
    pose proof (StronglySorted_app_1_elem_of _ _ _ _ _ Hsorted Ha Hbs) as Hle.
    apply byCount_le_strict; [done|]. intros Hk.
    assert (a = b) as ->; [|done].
    assert (a ∈ all) as Ha'.
    { rewrite <- (sort_Sort_Permutation all). by eapply elem_of_sublist. }
    assert (b ∈ all) as Hb' by (apply elem_of_all_elts; by exists i).
    apply list_elem_of_lookup_1 in Ha' as [ia Hia].
    apply list_elem_of_lookup_1 in Hb' as [ib Hib].
    assert (ia = ib) as ->; [|congruence].
    apply (NoDup_lookup _ ia ib (Key a) Hnd); rewrite list_lookup_fmap.
    + by rewrite Hia.
    + rewrite Hib. cbn [fmap option_fmap option_map]. by rewrite Hk.
  - intros Hfew. rewrite Hall; [apply sort_Sort_Permutation|].
    unfold len in *. by rewrite sort_Sort_Permutation.
Qed.

End Reports.

(** ** The effect of one [Insert] *)

Lemma elem_of_insert_inv {A} (l : list A) i x y :
  y ∈ <[i:=x]> l -> y = x ∨ y ∈ l.
Proof.
  intros [t Ht]%list_elem_of_lookup_1.
  apply list_lookup_insert_Some in Ht as [(-> & -> & _)|[_ Ht]]; [by left|].
  right. by eapply list_elem_of_lookup_2.
Qed.

Lemma elem_of_insert_ne {A} (l : list A) i x y t :
  l !! t = Some y -> t ≠ i -> y ∈ <[i:=x]> l.
Proof.
  intros Ht Hne. apply (list_elem_of_lookup_2 _ t).
  by rewrite list_lookup_insert_ne.
Qed.

Section InsertEffects.

Variable H : string -> Z.

Lemma Insert_changes s x count e s' :
  stream_wf H s ->
  Insert H x count s = Returned (e, s') ->
  let i := partition_of (Hash64Str H x) in
  s_n s' = s_n s ∧ length (s_alphas s') = length (s_alphas s) ∧
  (∀ j, j ≠ i -> s_p s' !!! j = s_p s !!! j) ∧
  (∀ e1, e1 ∈ tk_elts (s_p s' !!! i) ->
         e1 = e ∨ e1 ∈ tk_elts (s_p s !!! i)) ∧
  (∀ e0, e0 ∈ tk_elts (s_p s !!! i) -> Key e0 ≠ x ->
         e0 ∈ tk_elts (s_p s' !!! i) ∨
         tk_elts (s_p s !!! i) !! 0%nat = Some e0) ∧
  (∃ b, ∀ j, j ≠ b -> s_alphas s' !! j = s_alphas s !! j).
Proof.
  intros (_ & _ & _ & _ & Hp) Hins i.
  destruct (Hp i) as (Hkwf & _).
  apply Insert_cases in Hins. cbv zeta in Hins. fold i in Hins.
  destruct Hins as [(idx & e0 & Hlook & Hidx & He0 & -> & ->)
    |[(Hlook & Hroom & -> & ->)
    |[(a & mn & Hlook & Hfull & Hx0 & Ha & Hmn & Hlt & -> & ->)
    |(a & mn & a1 & Hlook & Hfull & Hx0 & Ha & Hmn & Hge & Hm0 & Hma & Ha1
        & -> & ->)]]]; cbn [s_n s_p s_alphas];
    rewrite ?vlookup_insert, ?length_insert;
    (split; [done|]); (split; [done|]);
    (split; [intros j Hj; by rewrite ?vlookup_insert_ne|]).
  - split; [|split].
    + intros e1. rewrite heap_Fix_Permutation. cbn [tk_elts].
      apply elem_of_insert_inv.
    + intros e1 [t Ht]%list_elem_of_lookup_1 Hk. left.
      rewrite heap_Fix_Permutation. cbn [tk_elts].
      apply (elem_of_insert_ne _ _ _ _ t); [done|]. intros ->.
      destruct (keys_wf_tracked _ _ _ Hkwf Hlook) as (e2 & _ & He2 & Hk2).
      congruence.
    + by exists 0%nat.
  - split; [|split].
    + intros e1. rewrite heap_Push_Permutation.
      intros [->|?]%elem_of_cons; auto.
    + intros e1 He1 _. left. rewrite heap_Push_Permutation. by right.
    + by exists 0%nat.
  - split; [|split]; [by auto|by auto|].
    eexists. intros j Hj. by apply list_lookup_insert_ne.
  - split; [|split].
    + intros e1. rewrite heap_Fix_Permutation. cbn [tk_elts].
      apply elem_of_insert_inv.
    + intros e1 [t Ht]%list_elem_of_lookup_1 Hk.
      destruct t as [|t]; [right; congruence|left].
      rewrite heap_Fix_Permutation. cbn [tk_elts].
      by apply (elem_of_insert_ne _ _ _ _ (S t)).
    + eexists. intros j Hj. by apply list_lookup_insert_ne.
Qed.

(** X8: one [Insert(x, count)] on a reachable sketch changes little.  [n]
    and the length of the error table stay; every partition other than the
    one of [x] stays; in the partition of [x] every element stored
    afterwards is the returned element or was stored before, and every
    element of another key that was stored before is still stored, except
    possibly the one in slot 0 (the minimum that an eviction replaces); and
    at most one entry of the error table changes. *)
Theorem Insert_frame s x count e s' :
  reachable H s ->
  Insert H x count s = Returned (e, s') ->
  let i := partition_of (Hash64Str H x) in
  s_n s' = s_n s ∧ length (s_alphas s') = length (s_alphas s) ∧
  (∀ j, j ≠ i -> s_p s' !!! j = s_p s !!! j) ∧
  (∀ e1, e1 ∈ tk_elts (s_p s' !!! i) ->
         e1 = e ∨ e1 ∈ tk_elts (s_p s !!! i)) ∧
  (∀ e0, e0 ∈ tk_elts (s_p s !!! i) -> Key e0 ≠ x ->
         e0 ∈ tk_elts (s_p s' !!! i) ∨
         tk_elts (s_p s !!! i) !! 0%nat = Some e0) ∧
  (∃ b, ∀ j, j ≠ b -> s_alphas s' !! j = s_alphas s !! j).
Proof. intros Hr%reachable_wf. by apply Insert_changes. Qed.

(** X9: inserting a key that is tracked adds [count] to its counter (on
    [int], with wrap-around) and keeps its error; the error table is not
    touched and the partition keeps its size. *)
Theorem Insert_tracked s x count e0 :
  reachable H s ->
  let i := partition_of (Hash64Str H x) in
  e0 ∈ tk_elts (s_p s !!! i) -> Key e0 = x ->
  ∃ s',
    Insert H x count s =
      Returned ({| Key := x; Count := add64 (Count e0) count;
                   Error := Error e0 |}, s') ∧
    s_alphas s' = s_alphas s ∧
    length (tk_elts (s_p s' !!! i)) = length (tk_elts (s_p s !!! i)).
Proof.
  intros Hr i He0 Hk. pose proof (reachable_wf H s Hr) as (_ & _ & _ & _ & Hp).
  destruct (Hp i) as (Hkwf & _).
  destruct (keys_wf_elem _ _ Hkwf He0) as (z & Hz & Hidx).
  rewrite Hk in Hz. unfold Insert. fold i. rewrite Hz, Hidx.
  cbn [mbind outcome_bind]. rewrite Hk. eexists. split; [reflexivity|].
  cbn [s_alphas s_p]. split; [done|].
  rewrite vlookup_insert, heap_Fix_Permutation. cbn [tk_elts].
  apply length_insert.
Qed.

End InsertEffects.

(** ** The guaranteed count never exceeds the exact count *)

Lemma exact_count_snoc k ops x c :
  exact_count k (ops ++ [(x, c)]) =
  exact_count k ops + (if String.eqb x k then c else 0).
Proof.
  induction ops as [|[y d] ops IH]; cbn [app exact_count]; [lia|].
  rewrite IH. lia.
Qed.

Lemma exact_count_nonneg k ops :
  Forall (λ op, 0 <= op.2) ops -> 0 <= exact_count k ops.
Proof.
  induction 1 as [|[y d] ops Hd _ IH]; cbn [exact_count]; [done|].
  cbn in Hd. destruct (String.eqb y k); lia.
Qed.

Lemma total_count_snoc ops x c :
  total_count (ops ++ [(x, c)]) = total_count ops + c.
Proof.
  unfold total_count. induction ops as [|[y d] ops IH]; cbn [app foldr snd].
  - lia.
  - rewrite IH. lia.
Qed.

Lemma total_count_nonneg ops :
  Forall (λ op, 0 <= op.2) ops -> 0 <= total_count ops.
Proof.
  unfold total_count. induction 1 as [|[y d] ops Hd _ IH]; cbn [foldr snd].
  - done.
  - cbn in Hd. lia.
Qed.

Lemma counts_int ops :
  Forall (λ op, 0 <= op.2) ops -> total_count ops <= max_int ->
  Forall (λ op, is_int op.2 ∧ 0 <= op.2) ops.
Proof.
  unfold total_count. induction 1 as [|[y d] ops Hd Hops IH]; cbn [foldr snd].
  - constructor.
  - intros Hle. cbn in Hd.
    pose proof (total_count_nonneg ops Hops) as Hnn. unfold total_count in Hnn.
    constructor; [|apply IH; lia].
    cbn. split; [|done]. unfold is_int, min_int. split; [lia|lia].
Qed.

Section Guaranteed.

Variable H : string -> Z.

Lemma inserts_app ops1 ops2 s :
  inserts H (ops1 ++ ops2) s = (s1 ← inserts H ops1 s; inserts H ops2 s1).
Proof.
  revert s. induction ops1 as [|[x c] ops1 IH]; intros s; [done|].
  cbn [app inserts]. destruct (Insert H x c s) as [[e s1]|]; [|done].
  cbn [mbind outcome_bind snd]. apply IH.
Qed.

Lemma build_snoc_inv n ops x c s' :
  build H n (ops ++ [(x, c)]) = Returned s' ->
  ∃ s e, build H n ops = Returned s ∧ Insert H x c s = Returned (e, s').
Proof.
  unfold build. destruct (New n) as [s0|]; [|done]. cbn [mbind outcome_bind].
  rewrite inserts_app. intros (s & Hs & Hlast)%bind_Returned.
  cbn [inserts] in Hlast.
  apply bind_Returned in Hlast as ([e s1] & Hins & Hret).
  apply Returned_inj in Hret. cbn in Hret. subst s1. by exists s, e.
Qed.

(** One insertion keeps [Count - Error] of every stored element below a
    tally [g] of the key, raised by [count] for the key inserted. *)
Lemma Insert_guaranteed_step B s x c e s' (g : string -> Z) :
  stream_wf H s -> bounded B s -> 0 <= c -> B + c <= max_int ->
  (∀ k, 0 <= g k) ->
  (∀ i e0, e0 ∈ tk_elts (s_p s !!! i) -> Count e0 - Error e0 <= g (Key e0)) ->
  Insert H x c s = Returned (e, s') ->
  ∀ j e1, e1 ∈ tk_elts (s_p s' !!! j) ->
    Count e1 - Error e1
      <= g (Key e1) + (if String.eqb x (Key e1) then c else 0).
Proof.
  intros Hwf [Hal Hel] Hc HB Hg Hinv Hins j e1 He1.
  assert (∀ i e0, e0 ∈ tk_elts (s_p s !!! i) ->
            Count e0 - Error e0
              <= g (Key e0) + (if String.eqb x (Key e0) then c else 0))
    as Hold.
  { intros i0 e0 He0. specialize (Hinv _ _ He0).
    destruct (String.eqb x (Key e0)); lia. }
  set (i := partition_of (Hash64Str H x)).
  destruct (decide (j = i)) as [->|Hne].
  2:{ destruct (Insert_other_partitions H _ _ _ _ _ j Hins Hne) as [Hj _].
      rewrite Hj in He1. by eapply Hold. }
  destruct (Insert_changes H _ _ _ _ _ Hwf Hins) as (_ & _ & _ & Hnew & _).
  destruct (Hnew _ He1) as [->|Hwas]; [|by eapply Hold].
  assert (Key e = x ∧ Count e - Error e <= g x + c) as [Hk Hcount].
  2:{ rewrite Hk, String.eqb_refl. lia. }
  pose proof Hwf as (_ & _ & _ & _ & Hp). destruct (Hp i) as (Hkwf & _).
  pose proof (Hg x) as Hgx.
  apply Insert_cases in Hins. cbv zeta in Hins. fold i in Hins.
  destruct Hins as [(idx & e0 & Hlook & Hidx & He0 & -> & _)
    |[(Hlook & Hroom & -> & _)
    |[(a & mn & Hlook & Hfull & Hx0 & Ha & Hmn & Hlt & -> & _)
    |(a & mn & a1 & Hlook & Hfull & Hx0 & Ha & Hmn & Hge & Hm0 & Hma & Ha1
        & -> & _)]]]; cbn [Key Count Error].
  - destruct (keys_wf_tracked _ _ _ Hkwf Hlook) as (e2 & _ & He2 & Hk2).
    assert (e2 = e0) as -> by congruence. split; [done|].
    pose proof (list_elem_of_lookup_2 _ _ _ He0) as Hin.
    pose proof (proj1 (Forall_forall _ _) (Hel i) _ Hin) as (? & ? & ?).
    specialize (Hinv _ _ Hin). rewrite Hk2 in Hinv.
    rewrite add64_bounded with (B := B) by lia. lia.
  - split; [done|lia].
  - split; [done|].
    pose proof (Forall_lookup_1 _ _ _ _ Hal Ha) as Hab. unfold alpha_bounded in Hab.
    rewrite add64_bounded with (B := B) by lia. lia.
  - split; [done|].
    assert (0 <= a1 <= B) as Hab.
    { apply list_lookup_insert_Some in Ha1 as [(_ & <- & _)|[_ Ha1]].
      - pose proof (list_elem_of_lookup_2 _ _ _ Hmn) as Hin.
        pose proof (proj1 (Forall_forall _ _) (Hel i) _ Hin) as (? & ? & ?).
        lia.
      - apply (Forall_lookup_1 _ _ _ _ Hal Ha1). }
    rewrite add64_bounded with (B := B) by lia. lia.
Qed.

(** X10: the guaranteed count is a lower bound of the exact count.  In a
    sketch built by [New(n)] and insertions with counts [>= 0] whose sum
    fits an [int], every stored element has
    [Count - Error <= exact count of its key], and so has the element that
    [Estimate] returns for any key. *)
Theorem guaranteed_count n ops s :
  Forall (λ op, 0 <= op.2) ops -> total_count ops <= max_int ->
  build H n ops = Returned s ->
  (∀ i e, e ∈ tk_elts (s_p s !!! i) ->
          Count e - Error e <= exact_count (Key e) ops) ∧
  (∀ x e s', Estimate H x s = Returned (e, s') ->
             Key e = x ∧ Count e - Error e <= exact_count x ops).
Proof.
  intros Hpos Htot Hb.
  assert (∀ i e, e ∈ tk_elts (s_p s !!! i) ->
                 Count e - Error e <= exact_count (Key e) ops) as Hstored.
  { revert s Hpos Htot Hb.
    induction ops as [|[x c] ops IH] using rev_ind; intros s' Hpos Htot Hb.
    - unfold build in Hb. cbn [inserts] in Hb.
      apply bind_Returned in Hb as (s0 & Hnew & <-%Returned_inj).
      unfold New in Hnew. destruct (_ || _); [done|].
      apply Returned_inj in Hnew as <-. intros i e. cbn [s_p].
      rewrite vlookup_replicate. by intros ?%elem_of_nil.
    - apply Forall_app in Hpos as [Hpos Hc].
      rewrite Forall_singleton in Hc. cbn [snd] in Hc.
      rewrite total_count_snoc in Htot.
      pose proof (total_count_nonneg ops Hpos) as Hnn.
      apply build_snoc_inv in Hb as (s & e & Hb & Hins).
      assert (total_count ops <= max_int) as Htot' by lia.
      specialize (IH s Hpos Htot' Hb).
      pose proof (build_within H n ops s (counts_int ops Hpos Htot') Hb)
        as Hwithin.
      pose proof (reachable_within_bounded H _ _ Hwithin Htot') as Hbd.
      pose proof (reachable_wf H s (reachable_within_reachable H _ _ Hwithin))
        as Hwf.
      intros j e1 He1. rewrite exact_count_snoc.
      exact (Insert_guaranteed_step (total_count ops) s x c e s'
               (λ k, exact_count k ops) Hwf Hbd Hc Htot
               (λ k, exact_count_nonneg k ops Hpos) IH Hins j e1 He1). }
  split; [done|]. intros x e s' Hest.
  assert (Forall (λ op, is_int op.2) ops) as Hints.
  { eapply Forall_impl; [by apply counts_int|]. by intros ? [? _]. }
  pose proof (reachable_wf H s (build_reachable H n ops s Hints Hb))
    as (_ & _ & _ & _ & Hp).
  unfold Estimate in Hest.
  set (i := partition_of (Hash64Str H x)) in *.
  destruct (Hp i) as (Hkwf & _).
  destruct (tk_m (s_p s !!! i) !! x) as [idx|] eqn:Hlook.
  - apply bind_Returned in Hest as (e0 & [_ He0]%index_Returned & Hret).
    apply Returned_pair in Hret as [<- _].
    destruct (keys_wf_tracked _ _ _ Hkwf Hlook) as (e2 & _ & He2 & Hk2).
    assert (e2 = e0) as -> by congruence. split; [done|].
    rewrite <- Hk2. apply (Hstored i). by eapply list_elem_of_lookup_2.
  - apply bind_Returned in Hest as (a & _ & Hret).
    apply Returned_pair in Hret as [<- _]. cbn [Key Count Error].
    split; [done|]. pose proof (exact_count_nonneg x ops Hpos). lia.
Qed.

End Guaranteed.

(** ** The heap order of each partition *)

Lemma parent_spec k :
  (2 * ((k - 1) / 2) <= k - 1 < 2 * ((k - 1) / 2) + 2)%nat.
Proof.
  pose proof (Nat.div_mod_eq (k - 1) 2).
  pose proof (Nat.mod_upper_bound (k - 1) 2). lia.
Qed.

Lemma elt_Less_false a b :
  elt_Less a b = false <->
  Count b < Count a ∨ (Count a = Count b ∧ Error a <= Error b).
Proof.
  unfold elt_Less. rewrite orb_false_iff, andb_false_iff.
  rewrite !Z.ltb_ge, Z.eqb_neq. lia.
Qed.

Lemma elt_Less_true a b :
  elt_Less a b = true <->
  Count a < Count b ∨ (Count a = Count b ∧ Error b < Error a).
Proof.
  unfold elt_Less. rewrite orb_true_iff, andb_true_iff.
  rewrite !Z.ltb_lt, Z.eqb_eq. lia.
Qed.

Lemma elt_Less_false_trans a b c :
  elt_Less b a = false -> elt_Less c b = false -> elt_Less c a = false.
Proof. rewrite !elt_Less_false. lia. Qed.

Lemma elt_Less_asym a b : elt_Less a b = true -> elt_Less b a = false.
Proof. rewrite elt_Less_true, elt_Less_false. lia. Qed.

Lemma elt_Less_irrefl a : elt_Less a a = false.
Proof. rewrite elt_Less_false. lia. Qed.

Lemma heap_ok_close elts i :
  heap_hole elts i -> heap_kids elts i ->
  (∀ c p, (0 < i)%nat -> elts !! i = Some c ->
          elts !! ((i - 1) / 2)%nat = Some p -> elt_Less c p = false) ->
  heap_ok elts.
Proof.
  intros [Hh _] Hk Hi k c p Hk0 Hc Hp.
  destruct (decide (k = i)) as [->|Hne]; [by eapply Hi|].
  destruct (decide (((k - 1) / 2)%nat = i)) as [Hpi|Hpi].
  - eapply Hk; [exact Hk0|exact Hpi|exact Hc|]. by rewrite <- Hpi.
  - by eapply Hh.
Qed.

Lemma heap_ok_hole elts i e :
  heap_ok elts -> heap_hole (<[i:=e]> elts) i.
Proof.
  intros Hok. split.
  - intros k c p Hk0 Hki Hpi Hc Hp.
    rewrite list_lookup_insert_ne in Hc by done.
    rewrite list_lookup_insert_ne in Hp by done. by eapply Hok.
  - intros k c g Hi0 Hk0 Hpk Hc Hg.
    pose proof (parent_spec k). pose proof (parent_spec i).
    rewrite list_lookup_insert_ne in Hc by lia.
    rewrite list_lookup_insert_ne in Hg by lia.
    destruct (elts !! i) as [v|] eqn:Hv.
    + apply (elt_Less_false_trans g v c).
      * by eapply (Hok i).
      * eapply (Hok k); [done|done|]. by rewrite Hpk.
    + apply lookup_ge_None in Hv. apply lookup_lt_Some in Hc. lia.
Qed.

Lemma Swap_lookup tk i j ei ej t :
  tk_elts tk !! i = Some ei -> tk_elts tk !! j = Some ej ->
  tk_elts (Swap tk i j) !! t =
    if decide (t = j) then Some ei
    else if decide (t = i) then Some ej else tk_elts tk !! t.
Proof.
  intros Hi Hj. unfold Swap. rewrite Hi, Hj. cbn [tk_elts].
  by apply swap_lookup.
Qed.

Lemma Swap_length tk i j :
  length (tk_elts (Swap tk i j)) = length (tk_elts tk).
Proof. by rewrite Swap_Permutation. Qed.

Lemma up_loop_heap fuel tk j :
  (j < fuel)%nat -> (j < length (tk_elts tk))%nat ->
  heap_hole (tk_elts tk) j -> heap_kids (tk_elts tk) j ->
  heap_ok (tk_elts (up_loop fuel tk j)).
Proof.
  revert tk j. induction fuel as [|fuel IH]; intros tk j Hf Hj Hh Hk; [lia|].
  cbn [up_loop]. pose proof (parent_spec j) as Hpj.
  destruct (lookup_lt_is_Some_2 _ _ Hj) as [c Hc].
  destruct (Nat.eqb_spec ((j - 1) / 2) j) as [Heq|Hne]; cbn [orb].
  { apply (heap_ok_close _ j); [done|done|]. intros; lia. }
  assert (0 < j)%nat as Hj0 by lia.
  assert ((j - 1) / 2 < length (tk_elts tk))%nat as Hi by lia.
  destruct (lookup_lt_is_Some_2 _ _ Hi) as [p Hp].
  unfold Less. rewrite Hc, Hp.
  destruct (elt_Less c p) eqn:Hless; cbn [negb].
  2:{ apply (heap_ok_close _ j); [done|done|]. intros; congruence. }
  pose proof (λ t, Swap_lookup tk _ _ _ _ t Hp Hc) as Hsw.
  destruct Hh as [Hh1 Hh2].
  apply IH.
  - lia.
  - rewrite Swap_length. lia.
  - split.
    + intros k c' p' Hk0 Hki Hpi. rewrite !Hsw.
      pose proof (parent_spec k).
      destruct (decide (k = j)) as [->|Hkj]; [done|].
      rewrite (decide_False (P := k = (j - 1) / 2)%nat) by done.
      rewrite (decide_False (P := ((k - 1) / 2 = (j - 1) / 2)%nat)) by done.
      destruct (decide (((k - 1) / 2)%nat = j)) as [Hpk|Hpk].
      * intros Hc' [= <-]. by eapply (Hh2 k).
      * intros Hc' Hp'. by eapply (Hh1 k).
    + intros k c' g Hi0 Hk0 Hpk. rewrite !Hsw.
      pose proof (parent_spec k). pose proof (parent_spec ((j - 1) / 2)%nat).
      rewrite (decide_False (P := ((((j - 1) / 2 - 1) / 2)%nat = j))) by lia.
      rewrite (decide_False
        (P := ((((j - 1) / 2 - 1) / 2)%nat = ((j - 1) / 2)%nat))) by lia.
      rewrite (decide_False (P := k = (j - 1) / 2)%nat) by lia.
      intros Hc' Hg.
      assert (elt_Less p g = false) as Hpg.
      { eapply (Hh1 ((j - 1) / 2)%nat); [lia|lia|lia|done|done]. }
      destruct (decide (k = j)) as [->|Hkj].
      * by simplify_eq.
      * apply (elt_Less_false_trans g p c'); [done|].
        eapply (Hh1 k); [lia|done|lia|done|]. by rewrite Hpk.
  - intros k c' v Hk0 Hpk. rewrite !Hsw.
    pose proof (parent_spec k).
    rewrite (decide_False (P := ((j - 1) / 2)%nat = j)) by lia.
    rewrite (decide_True (P := ((j - 1) / 2)%nat = ((j - 1) / 2)%nat)) by done.
    intros Hc' [= <-].
    rewrite (decide_False (P := k = (j - 1) / 2)%nat) in Hc' by lia.
    destruct (decide (k = j)) as [->|Hkj].
    + simplify_eq. by apply elt_Less_asym.
    + apply (elt_Less_false_trans c p c'); [by apply elt_Less_asym|].
      eapply (Hh1 k); [lia|done|lia|done|]. by rewrite Hpk.
Qed.

Lemma down_loop_heap fuel tk i n :
  n = length (tk_elts tk) -> (n - i <= fuel)%nat -> (i < n)%nat ->
  heap_hole (tk_elts tk) i ->
  let r := down_loop fuel tk i n in
  heap_hole (tk_elts r.1) r.2 ∧ heap_kids (tk_elts r.1) r.2 ∧
  (i <= r.2 < n)%nat ∧ length (tk_elts r.1) = n ∧
  (r.2 = i -> r.1 = tk) ∧
  ((i < r.2)%nat -> ∀ c p, tk_elts r.1 !! r.2 = Some c ->
     tk_elts r.1 !! ((r.2 - 1) / 2)%nat = Some p -> elt_Less c p = false).
Proof.
  revert tk i. induction fuel as [|fuel IH]; intros tk i Hn Hf Hi Hh; [lia|].
  cbv zeta in IH |- *. cbn [down_loop].
  destruct (Nat.leb_spec n (2 * i + 1)) as [Hleaf|Hj1].
  { cbn [fst snd]. split; [done|]. split.
    - intros k c v Hk0 Hpk Hc Hv. pose proof (parent_spec k).
      apply lookup_lt_Some in Hc. lia.
    - repeat split; [lia|lia|done|lia]. }
  destruct (lookup_lt_is_Some_2 (tk_elts tk) i) as [v Hv]; [lia|].
  destruct (lookup_lt_is_Some_2 (tk_elts tk) (2 * i + 1)) as [c1 Hc1]; [lia|].
  set (j := if (2 * i + 1 + 1 <? n)%nat && Less tk (2 * i + 1 + 1) (2 * i + 1)
            then (2 * i + 1 + 1)%nat else (2 * i + 1)%nat).
  assert (∃ cj, tk_elts tk !! j = Some cj ∧ (j = 2 * i + 1 ∨ j = 2 * i + 2)%nat
            ∧ (j < n)%nat ∧
            ∀ k c, (k = 2 * i + 1 ∨ k = 2 * i + 2)%nat ->
                   tk_elts tk !! k = Some c -> elt_Less c cj = false)
    as (cj & Hcj & Hjv & Hjn & Hmin).
  { subst j. destruct (Nat.ltb_spec (2 * i + 1 + 1) n) as [Hj2|Hj2]; cbn [andb].
    - destruct (lookup_lt_is_Some_2 (tk_elts tk) (2 * i + 1 + 1)) as [c2 Hc2];
        [lia|].
      unfold Less. rewrite Hc2, Hc1.
      destruct (elt_Less c2 c1) eqn:Hl.
      + exists c2. split; [done|]. split; [lia|]. split; [lia|].
        intros k c [->| ->] Hc.
        * assert (c = c1) as -> by congruence. by apply elt_Less_asym.
        * replace (2 * i + 2)%nat with (2 * i + 1 + 1)%nat in Hc by lia.
          assert (c = c2) as -> by congruence. apply elt_Less_irrefl.
      + exists c1. split; [done|]. split; [lia|]. split; [lia|].
        intros k c [->| ->] Hc.
        * assert (c = c1) as -> by congruence. apply elt_Less_irrefl.
        * replace (2 * i + 2)%nat with (2 * i + 1 + 1)%nat in Hc by lia.
          assert (c = c2) as -> by congruence.
          rewrite elt_Less_false in Hl |- *. lia.
    - exists c1. split; [done|]. split; [lia|]. split; [lia|].
      intros k c [->| ->] Hc.
      + assert (c = c1) as -> by congruence. apply elt_Less_irrefl.
      + apply lookup_lt_Some in Hc. lia. }
  clearbody j.
  assert (Less tk j i = elt_Less cj v) as -> by (unfold Less; by rewrite Hcj, Hv).
  destruct (elt_Less cj v) eqn:Hless; cbn [negb].
  2:{ cbn [fst snd]. split; [done|]. split.
      - intros k c v' Hk0 Hpk Hc Hv'. pose proof (parent_spec k).
        assert (v' = v) as -> by congruence.
        apply (elt_Less_false_trans v cj c); [done|].
        apply (Hmin k); [lia|done].
      - repeat split; [lia|lia|done|lia]. }
  pose proof (λ t, Swap_lookup tk _ _ _ _ t Hv Hcj) as Hsw.
  destruct Hh as [Hh1 Hh2].
  assert (((j - 1) / 2)%nat = i) as Hpj.
  { pose proof (parent_spec j). lia. }
  assert (heap_hole (tk_elts (Swap tk i j)) j) as Hh'.
  { split.
    - intros k c p Hk0 Hkj Hpk. rewrite !Hsw.
      pose proof (parent_spec k).
      rewrite (decide_False (P := k = j)) by done.
      rewrite (decide_False (P := ((k - 1) / 2)%nat = j)) by done.
      destruct (decide (k = i)) as [->|Hki].
      + rewrite (decide_False (P := ((i - 1) / 2)%nat = i)) by lia.
        intros [= <-] Hp. eapply (Hh2 j); [lia|lia|done|done|done].
      + destruct (decide (((k - 1) / 2)%nat = i)) as [Hpi|Hpi].
        * intros Hc [= <-]. apply (Hmin k); [lia|done].
        * intros Hc Hp. by eapply (Hh1 k).
    - intros k c g Hj0 Hk0 Hpk. rewrite !Hsw.
      pose proof (parent_spec k).
      rewrite (decide_False (P := k = j)) by lia.
      rewrite (decide_False (P := k = i)) by lia.
      rewrite Hpj. rewrite (decide_False (P := i = j)) by lia.
      rewrite (decide_True (P := i = i)) by done.
      intros Hc [= <-]. eapply (Hh1 k); [lia|lia|lia|done|].
      by rewrite Hpk. }
  destruct (IH (Swap tk i j) j) as (IH1 & IH2 & IH3 & IH4 & IH5 & IH6);
    [by rewrite Swap_length|lia|lia|done|].
  split; [done|]. split; [done|]. split; [lia|]. split; [done|].
  split; [lia|]. intros _.
  destruct (decide ((down_loop fuel (Swap tk i j) j n).2 = j)) as [Hr|Hr].
  - rewrite Hr, (IH5 Hr), Hpj, !Hsw.
    rewrite (decide_True (P := j = j)) by done.
    rewrite (decide_False (P := i = j)) by lia.
    rewrite (decide_True (P := i = i)) by done.
    intros c p [= <-] [= <-]. by apply elt_Less_asym.
  - apply IH6. lia.
Qed.

Lemma up_heap tk j :
  (j < length (tk_elts tk))%nat ->
  heap_hole (tk_elts tk) j -> heap_kids (tk_elts tk) j ->
  heap_ok (tk_elts (up tk j)).
Proof. intros. apply up_loop_heap; [lia|done..]. Qed.

Lemma heap_Fix_heap tk i :
  (i < length (tk_elts tk))%nat -> heap_hole (tk_elts tk) i ->
  heap_ok (tk_elts (heap_Fix tk i)).
Proof.
  intros Hi Hh. unfold heap_Fix, down.
  pose proof (down_loop_heap (length (tk_elts tk)) tk i (length (tk_elts tk))
                eq_refl ltac:(lia) Hi Hh) as Hd.
  destruct (down_loop _ _ _ _) as [tk' i']. cbn [fst snd] in Hd.
  destruct Hd as (Hh' & Hk' & Hi' & Hlen & Hsame & Hmoved).
  destruct (Nat.ltb_spec i i') as [Hlt|Hge].
  - apply (heap_ok_close _ i'); [done|done|]. intros c p _. by apply Hmoved.
  - assert (i' = i) as -> by lia. rewrite (Hsame eq_refl) in *.
    by apply up_heap.
Qed.

Lemma heap_Push_heap tk e :
  heap_ok (tk_elts tk) -> heap_ok (tk_elts (heap_Push tk e)).
Proof.
  intros Hok. unfold heap_Push. cbn [Push tk_elts].
  rewrite length_app. cbn [length].
  replace (length (tk_elts tk) + 1 - 1)%nat with (length (tk_elts tk)) by lia.
  apply up_heap; cbn [Push tk_elts].
  - rewrite length_app. cbn [length]. lia.
  - split.
    + intros k c p Hk0 Hkn Hpn Hc Hp. pose proof (parent_spec k).
      pose proof (lookup_lt_Some _ _ _ Hc) as Hlt.
      rewrite length_app in Hlt. cbn [length] in Hlt.
      rewrite lookup_app_l in Hc by lia.
      rewrite lookup_app_l in Hp by lia. by eapply Hok.
    + intros k c g _ Hk0 Hpk Hc _. pose proof (parent_spec k).
      apply lookup_lt_Some in Hc. rewrite length_app in Hc.
      cbn [length] in Hc. lia.
  - intros k c v Hk0 Hpk Hc _. pose proof (parent_spec k).
    apply lookup_lt_Some in Hc. rewrite length_app in Hc.
    cbn [length] in Hc. lia.
Qed.

Lemma heap_ok_min elts m e :
  heap_ok elts -> elts !! 0%nat = Some m -> e ∈ elts -> elt_Less e m = false.
Proof.
  intros Hok Hm [k Hk]%list_elem_of_lookup_1. revert e Hk.
  induction (lt_wf k) as [k _ IH]. intros e Hk.
  destruct (decide (k = 0%nat)) as [->|Hk0].
  { assert (e = m) as -> by congruence. apply elt_Less_irrefl. }
  pose proof (parent_spec k).
  destruct (lookup_lt_is_Some_2 elts ((k - 1) / 2)%nat) as [p Hp].
  { apply lookup_lt_Some in Hk. lia. }
  apply (elt_Less_false_trans m p e).
  - apply (IH ((k - 1) / 2)%nat); [lia|done].
  - eapply (Hok k); [lia|done|done].
Qed.

Lemma fold_heap_Push_heap elts tk :
  heap_ok (tk_elts tk) -> heap_ok (tk_elts (fold_left heap_Push elts tk)).
Proof.
  revert tk. induction elts as [|e elts IH]; intros tk Hok; [done|].
  cbn [fold_left]. by apply IH, heap_Push_heap.
Qed.

Lemma heap_ok_nil : heap_ok [].
Proof. intros k c p _ Hc. by rewrite lookup_nil in Hc. Qed.

(** ** What [Merge] leaves in each partition *)

Section MergeResult.

Variable H : string -> Z.

Lemma merge_partition_result other i s s' :
  merge_partition H other i s = Returned s' ->
  ∃ es elts,
    merge_keys H (s_p s !!! i) (s_p other !!! i) (len (s_alphas s))
      (s_alphas other)
      (remove_dups ((Key <$> tk_elts (s_p s !!! i)) ++
                    (Key <$> tk_elts (s_p other !!! i)))) = Returned es ∧
    trim (s_n s) (sort_Sort es) = Returned elts ∧
    s_p s' = vinsert i (fold_left heap_Push elts empty_keys) (s_p s) ∧
    s_n s' = s_n s ∧ length (s_alphas s') = length (s_alphas s).
Proof.
  unfold merge_partition. intros Hm.
  apply bind_Returned in Hm as (es & Hes & Hm).
  apply bind_Returned in Hm as (elts & Htrim & Hm).
  apply bind_Returned in Hm as (alphas1 & Hal & <-%Returned_inj).
  exists es, elts. cbn [s_p s_n s_alphas]. repeat (split; [done|]).
  by apply add_alphas_Returned in Hal as [? _].
Qed.

Lemma merge_partitions_result other idxs s s' :
  NoDup idxs -> merge_partitions H other idxs s = Returned s' ->
  s_n s' = s_n s ∧ length (s_alphas s') = length (s_alphas s) ∧
  (∀ i, i ∉ idxs -> s_p s' !!! i = s_p s !!! i) ∧
  (∀ i, i ∈ idxs ->
     ∃ es elts,
       merge_keys H (s_p s !!! i) (s_p other !!! i) (len (s_alphas s))
         (s_alphas other)
         (remove_dups ((Key <$> tk_elts (s_p s !!! i)) ++
                       (Key <$> tk_elts (s_p other !!! i)))) = Returned es ∧
       trim (s_n s) (sort_Sort es) = Returned elts ∧
       s_p s' !!! i = fold_left heap_Push elts empty_keys).
Proof.
  revert s. induction idxs as [|i idxs IH]; intros s Hnd Hm.
  { cbn [merge_partitions] in Hm. apply Returned_inj in Hm as <-.
    repeat (split; [done|]). by intros i ?%elem_of_nil. }
  apply NoDup_cons in Hnd as [Hi Hnd]. cbn [merge_partitions] in Hm.
  apply bind_Returned in Hm as (s1 & H1 & Hm).
  apply merge_partition_result in H1
    as (es & elts & Hes & Htrim & Hp1 & Hn1 & Hal1).
  destruct (IH s1 Hnd Hm) as (Hn & Hal & Hout & Hin).
  split; [congruence|]. split; [congruence|]. split.
  - intros j Hj. apply not_elem_of_cons in Hj as [Hji Hj].
    rewrite (Hout j Hj), Hp1. by rewrite vlookup_insert_ne.
  - intros j [->|Hj]%elem_of_cons.
    + exists es, elts. repeat (split; [done|]).
      rewrite (Hout i Hi), Hp1. by rewrite vlookup_insert.
    + destruct (Hin j Hj) as (es' & elts' & Hes' & Htrim' & Hp').
      assert (j ≠ i) as Hji by (intros ->; done).
      exists es', elts'. rewrite Hn1 in Htrim'.
      rewrite Hp1, vlookup_insert_ne in Hes' by done.
      unfold len in *. rewrite Hal1 in Hes'. done.
Qed.

Lemma Merge_result other s s' other' :
  Merge H other s = Returned (None, s', other') ->
  s_n s = s_n other ∧ other' = other ∧ s_n s' = s_n s ∧
  length (s_alphas s') = length (s_alphas s) ∧
  ∀ i,
    ∃ es elts,
      merge_keys H (s_p s !!! i) (s_p other !!! i) (len (s_alphas s))
        (s_alphas other)
        (remove_dups ((Key <$> tk_elts (s_p s !!! i)) ++
                      (Key <$> tk_elts (s_p other !!! i)))) = Returned es ∧
      trim (s_n s) (sort_Sort es) = Returned elts ∧
      s_p s' !!! i = fold_left heap_Push elts empty_keys.
Proof.
  unfold Merge. destruct (Z.eqb_spec (s_n s) (s_n other)) as [Hn|Hn];
    cbn [negb].
  2:{ intros [Hp _]%Returned_pair. by apply (f_equal fst) in Hp. }
  intros (s1 & Hm & Hret)%bind_Returned.
  apply Returned_pair in Hret as [Hp ->].
  apply (f_equal snd) in Hp. cbn [snd] in Hp. subst s1.
  destruct (merge_partitions_result _ _ _ _ partition_indices_NoDup Hm)
    as (Hn' & Hal & _ & Hin).
  repeat (split; [done|]). intros i. apply Hin, elem_of_partition_indices.
Qed.

Lemma Insert_heap x count s e s' :
  (∀ i, heap_ok (tk_elts (s_p s !!! i))) ->
  Insert H x count s = Returned (e, s') ->
  ∀ i, heap_ok (tk_elts (s_p s' !!! i)).
Proof.
  intros Hok Hins j. apply Insert_cases in Hins. cbv zeta in Hins.
  set (i := partition_of (Hash64Str H x)) in *.
  destruct Hins as [(idx & e0 & Hlook & Hidx & He0 & -> & ->)
    |[(Hlook & Hroom & -> & ->)
    |[(a & mn & Hlook & Hfull & Hx0 & Ha & Hmn & Hlt & -> & ->)
    |(a & mn & a1 & Hlook & Hfull & Hx0 & Ha & Hmn & Hge & Hm0 & Hma & Ha1
        & -> & ->)]]]; cbn [s_p]; [| |done|];
    (destruct (decide (j = i)) as [->|Hne];
       [rewrite vlookup_insert|by rewrite vlookup_insert_ne]).
  - apply heap_Fix_heap; cbn [tk_elts].
    + rewrite length_insert. by eapply lookup_lt_Some.
    + by apply heap_ok_hole.
  - by apply heap_Push_heap.
  - apply heap_Fix_heap; cbn [tk_elts].
    + rewrite length_insert. by eapply lookup_lt_Some.
    + by apply heap_ok_hole.
Qed.

Lemma reachable_heap s :
  reachable H s -> ∀ i, heap_ok (tk_elts (s_p s !!! i)).
Proof.
  induction 1 as [n s Hnew|s x count e s' _ IH _ Hins
                  |s other s' other' _ IH _ _ Hm].
  - unfold New in Hnew. destruct (_ || _); [done|].
    apply Returned_inj in Hnew as <-. intros i. cbn [s_p].
    rewrite vlookup_replicate. apply heap_ok_nil.
  - by eapply Insert_heap.
  - apply Merge_result in Hm as (_ & _ & _ & _ & Hp). intros i.
    destruct (Hp i) as (es & elts & _ & _ & ->).
    apply fold_heap_Push_heap, heap_ok_nil.
Qed.

End MergeResult.

Lemma empty_keys_wf : keys_wf empty_keys.
Proof.
  split; cbn [empty_keys tk_m tk_elts fmap list_fmap]; [constructor|].
  intros k z. rewrite lookup_empty. split; [done|].
  intros (i & e & _ & Hi & _). by rewrite lookup_nil in Hi.
Qed.

Section HeapOrder.

Variable H : string -> Z.

(** X11: in every reachable sketch each partition is in heap order, and so
    its slot 0, the element [Insert] compares with and replaces, is a
    minimum of the partition for [keys.Less]: no stored element has a
    smaller count, and none has the same count and a larger error. *)
Theorem heap_minimum s i m e :
  reachable H s ->
  tk_elts (s_p s !!! i) !! 0%nat = Some m -> e ∈ tk_elts (s_p s !!! i) ->
  heap_ok (tk_elts (s_p s !!! i)) ∧
  (Count m < Count e ∨ (Count m = Count e ∧ Error e <= Error m)).
Proof.
  intros Hr Hm He. pose proof (reachable_heap H s Hr i) as Hok.
  split; [done|]. pose proof (heap_ok_min _ _ _ Hok Hm He) as Hle.
  apply elt_Less_false in Hle. lia.
Qed.

End HeapOrder.

Lemma heap_minimum_witness :
  heap_ok (tk_elts (s_p two_in_one_partition !!! 1%fin)) ∧
  (Count {| Key := "g"; Count := 3; Error := 0 |}
     < Count {| Key := "a"; Count := 5; Error := 0 |} ∨
   (Count {| Key := "g"; Count := 3; Error := 0 |}
      = Count {| Key := "a"; Count := 5; Error := 0 |} ∧
    Error {| Key := "a"; Count := 5; Error := 0 |}
      <= Error {| Key := "g"; Count := 3; Error := 0 |})).
Proof.
  apply (heap_minimum demo_hash two_in_one_partition 1%fin).
  - apply two_in_one_partition_reachable.
  - reflexivity.
  - vm_compute. repeat constructor.
Defined.

(** X12: [heap.Push] and [heap.Fix], as [Insert] and [Merge] call them, keep
    a [keys] consistent: starting from a slot map that mirrors the array
    and an array in heap order, pushing an element with a new key, or
    overwriting slot [i] with an element of the same key and calling
    [heap.Fix] on [i], gives again a slot map that mirrors the array and an
    array in heap order, holding the elements expected. *)
Theorem heap_interface_keeps tk :
  keys_wf tk -> heap_ok (tk_elts tk) ->
  (∀ e, (Key e ∉ Key <$> tk_elts tk) ->
        keys_wf (heap_Push tk e) ∧ heap_ok (tk_elts (heap_Push tk e)) ∧
        tk_elts (heap_Push tk e) ≡ₚ e :: tk_elts tk) ∧
  (∀ i e0 e, tk_elts tk !! i = Some e0 -> Key e = Key e0 ->
        let tk1 := {| tk_m := tk_m tk; tk_elts := <[i:=e]> (tk_elts tk) |} in
        keys_wf (heap_Fix tk1 i) ∧ heap_ok (tk_elts (heap_Fix tk1 i)) ∧
        tk_elts (heap_Fix tk1 i) ≡ₚ <[i:=e]> (tk_elts tk)).
Proof.
  intros Hwf Hok. split.
  - intros e He. split; [by apply heap_Push_wf|].
    split; [by apply heap_Push_heap|]. apply heap_Push_Permutation.
  - intros i e0 e Hi Hk tk1. subst tk1.
    split; [apply heap_Fix_wf; by eapply keys_wf_update|]. split.
    + apply heap_Fix_heap; cbn [tk_elts].
      * rewrite length_insert. by eapply lookup_lt_Some.
      * by apply heap_ok_hole.
    + by rewrite heap_Fix_Permutation.
Qed.

Lemma heap_interface_keeps_witness :
  (∀ e, (Key e ∉ Key <$> tk_elts (s_p two_in_one_partition !!! 1%fin)) ->
        keys_wf (heap_Push (s_p two_in_one_partition !!! 1%fin) e) ∧
        heap_ok (tk_elts (heap_Push (s_p two_in_one_partition !!! 1%fin) e)) ∧
        tk_elts (heap_Push (s_p two_in_one_partition !!! 1%fin) e)
          ≡ₚ e :: tk_elts (s_p two_in_one_partition !!! 1%fin)) ∧
  (∀ i e0 e,
        tk_elts (s_p two_in_one_partition !!! 1%fin) !! i = Some e0 ->
        Key e = Key e0 ->
        let tk1 :=
          {| tk_m := tk_m (s_p two_in_one_partition !!! 1%fin);
             tk_elts :=
               <[i:=e]> (tk_elts (s_p two_in_one_partition !!! 1%fin)) |} in
        keys_wf (heap_Fix tk1 i) ∧ heap_ok (tk_elts (heap_Fix tk1 i)) ∧
        tk_elts (heap_Fix tk1 i)
          ≡ₚ <[i:=e]> (tk_elts (s_p two_in_one_partition !!! 1%fin))).
Proof.
  apply (heap_interface_keeps (s_p two_in_one_partition !!! 1%fin)).
  - destruct (reachable_wf demo_hash _ two_in_one_partition_reachable)
      as (_ & _ & _ & _ & Hp). apply Hp.
  - apply (reachable_heap demo_hash _ two_in_one_partition_reachable).
Defined.

(** ** The elements that [Merge] stores *)

Lemma remove_dups_length {A} `{EqDecision A} (l : list A) :
  (length (remove_dups l) <= length l)%nat.
Proof.
  induction l as [|x l IH]; cbn [remove_dups length]; [done|].
  destruct (decide_rel _ x l); cbn [length]; lia.
Qed.

Lemma zip_add64_zero l :
  Forall is_int l -> zip_with add64 l (replicate (length l) 0) = l.
Proof.
  induction 1 as [|a l Ha _ IH]; [done|].
  cbn [length replicate zip_with]. rewrite IH. f_equal.
  unfold add64. rewrite Z.add_0_r. by apply wrap64_small.
Qed.

Lemma Element_eq e1 e2 :
  Key e1 = Key e2 -> Count e1 = Count e2 -> Error e1 = Error e2 -> e1 = e2.
Proof. destruct e1, e2. cbn. by intros -> -> ->. Qed.

Section MergeElements.

Variable H : string -> Z.

Lemma merge_key_cases s_tk o_tk n o_alphas k e :
  keys_wf s_tk -> keys_wf o_tk ->
  merge_key H s_tk o_tk n o_alphas k = Returned (Some e) ->
  Key e = k ∧
  ∃ a, index o_alphas (reduce (Hash64Str H k) n) = Returned a ∧
    ((∃ e1 e2, e1 ∈ tk_elts s_tk ∧ e2 ∈ tk_elts o_tk ∧
               Key e1 = k ∧ Key e2 = k ∧
               Count e = add64 (Count e1) (Count e2) ∧
               Error e = add64 (Error e1) (Error e2)) ∨
     (∃ e1, e1 ∈ tk_elts s_tk ∧ Key e1 = k ∧ (k ∉ Key <$> tk_elts o_tk) ∧
            Count e = add64 (Count e1) a ∧ Error e = add64 (Error e1) a) ∨
     (∃ e2, e2 ∈ tk_elts o_tk ∧ Key e2 = k ∧ (k ∉ Key <$> tk_elts s_tk) ∧
            Count e = add64 (Count e2) a ∧ Error e = add64 (Error e2) a)).
Proof.
  intros Hs Ho. unfold merge_key. intros (a & Ha & Hm)%bind_Returned.
  destruct (tk_m s_tk !! k) as [idx1|] eqn:H1;
    destruct (tk_m o_tk !! k) as [idx2|] eqn:H2.
  - apply bind_Returned in Hm as (e1 & [_ He1]%index_Returned & Hm).
    apply bind_Returned in Hm as (e2 & [_ He2]%index_Returned & Hm).
    apply Returned_inj in Hm. injection Hm as <-. cbn [Key Count Error].
    destruct (keys_wf_tracked _ _ _ Hs H1) as (e1' & _ & He1' & Hk1).
    destruct (keys_wf_tracked _ _ _ Ho H2) as (e2' & _ & He2' & Hk2).
    assert (e1' = e1) as -> by congruence.
    assert (e2' = e2) as -> by congruence.
    split; [done|]. exists a. split; [done|]. left. exists e1, e2.
    split; [by eapply list_elem_of_lookup_2|].
    split; [by eapply list_elem_of_lookup_2|]. done.
  - apply bind_Returned in Hm as (e1 & [_ He1]%index_Returned & Hm).
    apply Returned_inj in Hm. injection Hm as <-. cbn [Key Count Error].
    destruct (keys_wf_tracked _ _ _ Hs H1) as (e1' & _ & He1' & Hk1).
    assert (e1' = e1) as -> by congruence.
    split; [done|]. exists a. split; [done|]. right. left. exists e1.
    split; [by eapply list_elem_of_lookup_2|]. split; [done|].
    split; [by apply keys_wf_untracked|done].
  - apply bind_Returned in Hm as (e2 & [_ He2]%index_Returned & Hm).
    apply Returned_inj in Hm. injection Hm as <-. cbn [Key Count Error].
    destruct (keys_wf_tracked _ _ _ Ho H2) as (e2' & _ & He2' & Hk2).
    assert (e2' = e2) as -> by congruence.
    split; [done|]. exists a. split; [done|]. right. right. exists e2.
    split; [by eapply list_elem_of_lookup_2|]. split; [done|].
    split; [by apply keys_wf_untracked|done].
  - by apply Returned_inj in Hm.
Qed.

Lemma merge_key_tracked s_tk o_tk n o_alphas k oe :
  keys_wf s_tk -> keys_wf o_tk ->
  k ∈ (Key <$> tk_elts s_tk) ++ (Key <$> tk_elts o_tk) ->
  merge_key H s_tk o_tk n o_alphas k = Returned oe -> ∃ e, oe = Some e.
Proof.
  intros Hs Ho Hk. unfold merge_key. intros (a & Ha & Hm)%bind_Returned.
  destruct (tk_m s_tk !! k) as [idx1|] eqn:H1;
    destruct (tk_m o_tk !! k) as [idx2|] eqn:H2.
  - apply bind_Returned in Hm as (e1 & _ & Hm).
    apply bind_Returned in Hm as (e2 & _ & Hm).
    apply Returned_inj in Hm as <-. eauto.
  - apply bind_Returned in Hm as (e1 & _ & Hm).
    apply Returned_inj in Hm as <-. eauto.
  - apply bind_Returned in Hm as (e2 & _ & Hm).
    apply Returned_inj in Hm as <-. eauto.
  - exfalso. apply elem_of_app in Hk as [Hk|Hk].
    + by apply (keys_wf_untracked _ _ Hs H1).
    + by apply (keys_wf_untracked _ _ Ho H2).
Qed.

Lemma merge_keys_elem s_tk o_tk n o_alphas ks es e :
  merge_keys H s_tk o_tk n o_alphas ks = Returned es -> e ∈ es ->
  ∃ k, k ∈ ks ∧ merge_key H s_tk o_tk n o_alphas k = Returned (Some e).
Proof.
  revert es. induction ks as [|k ks IH]; intros es Hm He; cbn [merge_keys] in Hm.
  { apply Returned_inj in Hm as <-. by apply elem_of_nil in He. }
  apply bind_Returned in Hm as (oe & Hoe & Hm).
  apply bind_Returned in Hm as (es' & Hes' & Hm).
  apply Returned_inj in Hm as <-.
  assert (e ∈ es' -> ∃ k0, k0 ∈ k :: ks ∧
            merge_key H s_tk o_tk n o_alphas k0 = Returned (Some e)) as Hrec.
  { intros He'. destruct (IH _ Hes' He') as (k0 & ? & ?).
    exists k0. split; [by right|done]. }
  destruct oe as [e0|]; [|by apply Hrec].
  apply elem_of_cons in He as [->|He]; [|by apply Hrec].
  exists k. split; [by left|done].
Qed.

Lemma merge_keys_complete s_tk o_tk n o_alphas ks es k :
  merge_keys H s_tk o_tk n o_alphas ks = Returned es -> k ∈ ks ->
  ∃ oe, merge_key H s_tk o_tk n o_alphas k = Returned oe ∧
        ∀ e, oe = Some e -> e ∈ es.
Proof.
  revert es. induction ks as [|k0 ks IH]; intros es Hm Hk;
    cbn [merge_keys] in Hm.
  { by apply elem_of_nil in Hk. }
  apply bind_Returned in Hm as (oe & Hoe & Hm).
  apply bind_Returned in Hm as (es' & Hes' & Hm).
  apply Returned_inj in Hm as <-.
  apply elem_of_cons in Hk as [->|Hk].
  - exists oe. split; [done|]. intros e ->. by left.
  - destruct (IH _ Hes' Hk) as (oe' & Hoe' & Hin). exists oe'.
    split; [done|]. intros e He. specialize (Hin e He).
    destruct oe; [by right|done].
Qed.

(** What [Merge] stores: every element of a merged partition is the
    combination of its key's entries in the two partitions merged. *)
Lemma Merge_combines other s s' other' i e :
  stream_wf H s -> stream_wf H other ->
  Merge H other s = Returned (None, s', other') ->
  e ∈ tk_elts (s_p s' !!! i) ->
  ∃ a, index (s_alphas other) (bucket_of H s (Key e)) = Returned a ∧
    ((∃ e1 e2, e1 ∈ tk_elts (s_p s !!! i) ∧ e2 ∈ tk_elts (s_p other !!! i) ∧
               Key e1 = Key e ∧ Key e2 = Key e ∧
               Count e = add64 (Count e1) (Count e2) ∧
               Error e = add64 (Error e1) (Error e2)) ∨
     (∃ e1, e1 ∈ tk_elts (s_p s !!! i) ∧ Key e1 = Key e ∧
            (Key e ∉ Key <$> tk_elts (s_p other !!! i)) ∧
            Count e = add64 (Count e1) a ∧ Error e = add64 (Error e1) a) ∨
     (∃ e2, e2 ∈ tk_elts (s_p other !!! i) ∧ Key e2 = Key e ∧
            (Key e ∉ Key <$> tk_elts (s_p s !!! i)) ∧
            Count e = add64 (Count e2) a ∧ Error e = add64 (Error e2) a)).
Proof.
  intros (_ & _ & _ & _ & Hps) (_ & _ & _ & _ & Hpo) Hm He.
  apply Merge_result in Hm as (_ & _ & _ & _ & Hp).
  destruct (Hp i) as (es & elts & Hes & Htrim & Hi). rewrite Hi in He.
  rewrite fold_heap_Push_Permutation in He. cbn [tk_elts app] in He.
  apply trim_Returned in Htrim as (Hsub & _).
  assert (e ∈ es) as He'.
  { rewrite <- (sort_Sort_Permutation es). by eapply elem_of_sublist. }
  destruct (merge_keys_elem _ _ _ _ _ _ _ Hes He') as (k & _ & Hk).
  destruct (Hps i) as (Hs & _). destruct (Hpo i) as (Ho & _).
  destruct (merge_key_cases _ _ _ _ _ _ Hs Ho Hk) as (<- & Hcases).
  exact Hcases.
Qed.

(** When the keys of the two partitions fit the capacity, [Merge] keeps
    every one of them. *)
Lemma Merge_keeps other s s' other' i k :
  stream_wf H s -> stream_wf H other ->
  Merge H other s = Returned (None, s', other') ->
  len (remove_dups ((Key <$> tk_elts (s_p s !!! i)) ++
                    (Key <$> tk_elts (s_p other !!! i)))) <= s_n s ->
  k ∈ (Key <$> tk_elts (s_p s !!! i)) ++ (Key <$> tk_elts (s_p other !!! i)) ->
  k ∈ Key <$> tk_elts (s_p s' !!! i).
Proof.
  intros (_ & _ & _ & _ & Hps) (_ & _ & _ & _ & Hpo) Hm Hfit Hk.
  apply Merge_result in Hm as (_ & _ & _ & _ & Hp).
  destruct (Hp i) as (es & elts & Hes & Htrim & Hi). rewrite Hi.
  rewrite fold_heap_Push_Permutation. cbn [tk_elts app].
  destruct (Hps i) as (Hs & _). destruct (Hpo i) as (Ho & _).
  pose proof (merge_keys_Returned H _ _ _ _ _ _ Hes) as [Hsub _].
  apply sublist_length in Hsub. rewrite length_fmap in Hsub.
  apply trim_Returned in Htrim as (_ & _ & Hall).
  rewrite Hall by (unfold len in *; rewrite sort_Sort_Permutation; lia).
  rewrite sort_Sort_Permutation.
  destruct (merge_keys_complete _ _ _ _ _ _ k Hes) as (oe & Hoe & Hin).
  { by apply elem_of_remove_dups. }
  destruct (merge_key_tracked _ _ _ _ _ _ Hs Ho Hk Hoe) as [e ->].
  apply merge_key_Returned in Hoe as [<- _].
  apply list_elem_of_fmap. exists e. split; [done|]. by apply Hin.
Qed.

(** X13: after [s.Merge(other)] on reachable sketches of the same size,
    every element stored in partition [i] combines the entries of its key
    in partition [i] of [s] and of [other]: with both entries, counts and
    errors are added; with one entry only, the floor [other.alphas[b]] of
    the key's bucket [b] is added to its count and to its error (also when
    the entry comes from [other], whose own floor it is).  Additions are on
    [int]. *)
Theorem Merge_elements s other s' other' i e :
  reachable H s -> reachable H other ->
  Merge H other s = Returned (None, s', other') ->
  e ∈ tk_elts (s_p s' !!! i) ->
  ∃ a, index (s_alphas other) (bucket_of H s (Key e)) = Returned a ∧
    ((∃ e1 e2, e1 ∈ tk_elts (s_p s !!! i) ∧ e2 ∈ tk_elts (s_p other !!! i) ∧
               Key e1 = Key e ∧ Key e2 = Key e ∧
               Count e = add64 (Count e1) (Count e2) ∧
               Error e = add64 (Error e1) (Error e2)) ∨
     (∃ e1, e1 ∈ tk_elts (s_p s !!! i) ∧ Key e1 = Key e ∧
            (Key e ∉ Key <$> tk_elts (s_p other !!! i)) ∧
            Count e = add64 (Count e1) a ∧ Error e = add64 (Error e1) a) ∨
     (∃ e2, e2 ∈ tk_elts (s_p other !!! i) ∧ Key e2 = Key e ∧
            (Key e ∉ Key <$> tk_elts (s_p s !!! i)) ∧
            Count e = add64 (Count e2) a ∧ Error e = add64 (Error e2) a)).
Proof.
  intros Hs%reachable_wf Ho%reachable_wf. by apply Merge_combines.
Qed.

(** X14: when the keys of partition [i] of [s] and of [other], taken
    together, are at most [n], [s.Merge(other)] keeps every one of them in
    partition [i]. *)
Theorem Merge_keeps_all s other s' other' i k :
  reachable H s -> reachable H other ->
  Merge H other s = Returned (None, s', other') ->
  len (remove_dups ((Key <$> tk_elts (s_p s !!! i)) ++
                    (Key <$> tk_elts (s_p other !!! i)))) <= s_n s ->
  k ∈ (Key <$> tk_elts (s_p s !!! i)) ++ (Key <$> tk_elts (s_p other !!! i)) ->
  k ∈ Key <$> tk_elts (s_p s' !!! i).
Proof.
  intros Hs%reachable_wf Ho%reachable_wf. by apply Merge_keeps.
Qed.

End MergeElements.


Lemma merged_sketch_run :
  Merge demo_hash another_sketch two_in_one_partition =
    Returned (None, merged_sketch, another_sketch).
Proof. vm_compute. reflexivity. Qed.

Lemma Merge_elements_witness :
  ∃ a, index (s_alphas another_sketch)
         (bucket_of demo_hash two_in_one_partition
            (Key {| Key := "a"; Count := 5; Error := 0 |})) = Returned a ∧
    ((∃ e1 e2, e1 ∈ tk_elts (s_p two_in_one_partition !!! 1%fin) ∧
               e2 ∈ tk_elts (s_p another_sketch !!! 1%fin) ∧
               Key e1 = Key {| Key := "a"; Count := 5; Error := 0 |} ∧
               Key e2 = Key {| Key := "a"; Count := 5; Error := 0 |} ∧
               Count {| Key := "a"; Count := 5; Error := 0 |}
                 = add64 (Count e1) (Count e2) ∧
               Error {| Key := "a"; Count := 5; Error := 0 |}
                 = add64 (Error e1) (Error e2)) ∨
     (∃ e1, e1 ∈ tk_elts (s_p two_in_one_partition !!! 1%fin) ∧
            Key e1 = Key {| Key := "a"; Count := 5; Error := 0 |} ∧
            (Key {| Key := "a"; Count := 5; Error := 0 |}
               ∉ Key <$> tk_elts (s_p another_sketch !!! 1%fin)) ∧
            Count {| Key := "a"; Count := 5; Error := 0 |}
              = add64 (Count e1) a ∧
            Error {| Key := "a"; Count := 5; Error := 0 |}
              = add64 (Error e1) a) ∨
     (∃ e2, e2 ∈ tk_elts (s_p another_sketch !!! 1%fin) ∧
            Key e2 = Key {| Key := "a"; Count := 5; Error := 0 |} ∧
            (Key {| Key := "a"; Count := 5; Error := 0 |}
               ∉ Key <$> tk_elts (s_p two_in_one_partition !!! 1%fin)) ∧
            Count {| Key := "a"; Count := 5; Error := 0 |}
              = add64 (Count e2) a ∧
            Error {| Key := "a"; Count := 5; Error := 0 |}
              = add64 (Error e2) a)).
Proof.
  apply (Merge_elements demo_hash two_in_one_partition another_sketch
           merged_sketch another_sketch 1%fin).
  - apply two_in_one_partition_reachable.
  - apply another_sketch_reachable.
  - apply merged_sketch_run.
  - vm_compute. repeat constructor.
Defined.

Lemma Merge_keeps_all_witness :
  "a" ∈ Key <$> tk_elts (s_p merged_sketch !!! 1%fin).
Proof.
  apply (Merge_keeps_all demo_hash two_in_one_partition another_sketch
           merged_sketch another_sketch 1%fin "a").
  - apply two_in_one_partition_reachable.
  - apply another_sketch_reachable.
  - apply merged_sketch_run.
  - vm_compute. discriminate.
  - vm_compute. repeat constructor.
Defined.

Section MergeFresh.

Variable H : string -> Z.

(** X15: merging a fresh sketch of the same size changes nothing but the
    layout of the heaps: [s.Merge(New(s.n))] returns no error, keeps [n] and
    the error table, and leaves in each partition the same elements, up to
    their order in the array. *)
Theorem Merge_fresh s fresh :
  reachable H s -> New (s_n s) = Returned fresh ->
  ∃ s', Merge H fresh s = Returned (None, s', fresh) ∧
        s_n s' = s_n s ∧ s_alphas s' = s_alphas s ∧
        ∀ i, tk_elts (s_p s' !!! i) ≡ₚ tk_elts (s_p s !!! i).
Proof.
  intros Hr Hnew. pose proof (reachable_wf H s Hr) as Hwf.
  pose proof (New_wf H _ _ Hnew) as Hwff.
  unfold New in Hnew. destruct (_ || _); [done|].
  apply Returned_inj in Hnew. 
  assert (s_n fresh = s_n s) as Hnf by (by subst fresh).
  assert (s_alphas fresh = replicate (length (s_alphas s)) 0) as Half.
  { subst fresh. cbn [s_alphas]. f_equal.
    destruct Hwf as (_ & _ & Hlen & _). unfold len in Hlen. lia. }
  assert (∀ i, tk_elts (s_p fresh !!! i) = []) as Hempty.
  { intros i. subst fresh. cbn [s_p]. by rewrite vlookup_replicate. }
  clear Hnew.
  destruct (Merge_returns H fresh s Hwf Hwff (eq_sym Hnf))
    as (s' & Hm & Hwf' & Hn' & Hal').
  exists s'. split; [done|]. split; [done|].
  pose proof Hwf as (_ & _ & _ & Hints & Hps).
  split.
  { rewrite Hal', Half. unfold Nat.iter. cbn [nat_rect].
    by rewrite !zip_add64_zero. }
  intros i. destruct (Hps i) as (Hkwf & Hcap & Hei & _).
  destruct Hwf' as (_ & _ & _ & _ & Hps'). destruct (Hps' i) as (Hkwf' & _).
  assert (∀ e, e ∈ tk_elts (s_p s' !!! i) -> e ∈ tk_elts (s_p s !!! i)) as Hsub.
  { intros e He.
    destruct (Merge_combines H _ _ _ _ _ _ Hwf Hwff Hm He)
      as (a & Ha & [(e1 & e2 & _ & He2 & _)|[(e1 & He1 & Hk & _ & Hc & Herr)
                   |(e2 & He2 & _)]]).
    - rewrite Hempty in He2. by apply elem_of_nil in He2.
    - assert (a = 0) as ->.
      { apply index_Returned in Ha as [_ Ha]. rewrite Half in Ha.
        by apply lookup_replicate_1 in Ha as [? _]. }
      pose proof (proj1 (Forall_forall _ _) Hei _ He1) as [Hci Hey].
      unfold add64 in Hc, Herr. rewrite Z.add_0_r, wrap64_small in Hc by done.
      rewrite Z.add_0_r, wrap64_small in Herr by done.
      by rewrite <- (Element_eq e1 e).
    - rewrite Hempty in He2. by apply elem_of_nil in He2. }
  apply NoDup_Permutation.
  - apply (NoDup_fmap_1 Key), Hkwf'.
  - apply (NoDup_fmap_1 Key), Hkwf.
  - intros e. split; [apply Hsub|]. intros He.
    assert (Key e ∈ Key <$> tk_elts (s_p s' !!! i)) as Hk.
    { apply (Merge_keeps H fresh s s' fresh i); try done.
      - rewrite Hempty. cbn [fmap list_fmap]. rewrite app_nil_r.
        pose proof (remove_dups_length (Key <$> tk_elts (s_p s !!! i))) as Hl.
        rewrite length_fmap in Hl. unfold len in *. lia.
      - apply elem_of_app. left. apply list_elem_of_fmap. by exists e. }
    apply list_elem_of_fmap in Hk as (e' & Hk & He').
    pose proof (Hsub _ He') as He''.
    apply list_elem_of_lookup_1 in He as [a Ha].
    apply list_elem_of_lookup_1 in He'' as [b Hb].
    assert (a = b) as -> by exact (keys_wf_key_inj _ _ _ _ _ Hkwf Ha Hb Hk).
    assert (e' = e) as -> by congruence. done.
Qed.

End MergeFresh.

Lemma Merge_fresh_witness :
  ∃ s', Merge demo_hash new_two two_in_one_partition
          = Returned (None, s', new_two) ∧
        s_n s' = s_n two_in_one_partition ∧
        s_alphas s' = s_alphas two_in_one_partition ∧
        ∀ i, tk_elts (s_p s' !!! i) ≡ₚ tk_elts (s_p two_in_one_partition !!! i).
Proof.
  apply (Merge_fresh demo_hash two_in_one_partition new_two).
  - apply two_in_one_partition_reachable.
  - reflexivity.
Defined.

(** ** [keys.Pop] *)

Lemma Pop_snoc m l e :
  Pop {| tk_m := m; tk_elts := l ++ [e] |} =
  Returned (e, {| tk_m := delete (Key e) m; tk_elts := l |}).
Proof.
  unfold Pop. cbn [tk_elts tk_m]. unfold len. rewrite length_app.
  cbn [length].
  assert (index (l ++ [e]) (Z.of_nat (length l + 1) - 1) = Returned e) as ->.
  { apply index_Returned. split; [lia|].
    replace (Z.to_nat (Z.of_nat (length l + 1) - 1)) with (length l) by lia.
    by rewrite lookup_app_r, Nat.sub_diag. }
  cbn [mbind outcome_bind]. do 3 f_equal.
  by rewrite take_app_length' by lia.
Qed.

Lemma keys_wf_init m l e :
  keys_wf {| tk_m := m; tk_elts := l ++ [e] |} ->
  keys_wf {| tk_m := delete (Key e) m; tk_elts := l |} ∧
  (Key e ∉ Key <$> l).
Proof.
  intros [Hnd Hm]. cbn [tk_m tk_elts] in *.
  rewrite fmap_app in Hnd. apply NoDup_app in Hnd as (Hnd & Hfresh & _).
  assert (Key e ∉ Key <$> l) as Hnot.
  { intros Hin. apply (Hfresh _ Hin). cbn. by left. }
  split; [|done]. split; [done|]. cbn [tk_m tk_elts].
  intros k z. rewrite lookup_delete_Some, Hm. split.
  - intros (Hne & i & e' & -> & Hi & Hk).
    apply lookup_snoc_Some in Hi as [[_ Hi]|[_ ->]]; [|done]. by exists i, e'.
  - intros (i & e' & -> & Hi & Hk). split.
    + intros <-. apply Hnot. rewrite <- Hk. apply list_elem_of_fmap.
      exists e'. split; [done|]. by eapply list_elem_of_lookup_2.
    + exists i, e'. split; [done|]. split; [|done]. by apply lookup_app_l_Some.
Qed.

Lemma index_last_inv {A} (l : list A) (e : A) :
  index l (len l - 1) = Returned e -> l = take (length l - 1) l ++ [e].
Proof.
  intros [Hpos He]%index_Returned. unfold len in *.
  replace (Z.to_nat (Z.of_nat (length l) - 1)) with (length l - 1)%nat
    in He by lia.
  rewrite <- (take_S_r _ _ _ He).
  replace (S (length l - 1)) with (length l) by lia. by rewrite firstn_all.
Qed.

(** X16: [Pop] undoes [Push]: after pushing an element whose key is not in
    the slot map, [Pop] returns that element and leaves the [keys] as it
    was before the push. *)
Theorem Pop_Push tk e :
  tk_m tk !! Key e = None -> Pop (Push tk e) = Returned (e, tk).
Proof.
  intros Hfresh. unfold Push. rewrite Pop_snoc.
  rewrite delete_insert_eq, delete_id by done. by destruct tk.
Qed.

Lemma Pop_Push_witness :
  Pop (Push empty_keys {| Key := "a"; Count := 1; Error := 0 |}) =
    Returned ({| Key := "a"; Count := 1; Error := 0 |}, empty_keys).
Proof.
  apply (Pop_Push empty_keys {| Key := "a"; Count := 1; Error := 0 |}).
  reflexivity.
Defined.

(** X17: on a [keys] whose slot map mirrors its array, [Pop] panics when
    the array is empty; otherwise it returns the last element, leaves the
    elements before it, removes its key from the slot map and no other, and
    the slot map still mirrors the array. *)
Theorem Pop_last tk :
  keys_wf tk ->
  (tk_elts tk = [] ∧ Pop tk = Panicked) ∨
  (∃ e tk', Pop tk = Returned (e, tk') ∧
            tk_elts tk = tk_elts tk' ++ [e] ∧ keys_wf tk' ∧
            tk_m tk' !! Key e = None ∧
            ∀ k, k ≠ Key e -> tk_m tk' !! k = tk_m tk !! k).
Proof.
  intros Hwf. destruct tk as [m elts].
  destruct elts as [|e l _] using rev_ind; [by left|right].
  exists e, {| tk_m := delete (Key e) m; tk_elts := l |}.
  split; [apply Pop_snoc|]. cbn [tk_elts tk_m]. split; [done|].
  apply keys_wf_init in Hwf as [Hwf' _]. split; [done|].
  split; [apply lookup_delete_eq|]. intros k Hk. by apply lookup_delete_ne.
Qed.

Lemma Pop_last_witness :
  (tk_elts (Push empty_keys {| Key := "a"; Count := 1; Error := 0 |}) = [] ∧
   Pop (Push empty_keys {| Key := "a"; Count := 1; Error := 0 |}) = Panicked) ∨
  (∃ e tk',
     Pop (Push empty_keys {| Key := "a"; Count := 1; Error := 0 |})
       = Returned (e, tk') ∧
     tk_elts (Push empty_keys {| Key := "a"; Count := 1; Error := 0 |})
       = tk_elts tk' ++ [e] ∧ keys_wf tk' ∧
     tk_m tk' !! Key e = None ∧
     ∀ k, k ≠ Key e ->
          tk_m tk' !! k
            = tk_m (Push empty_keys {| Key := "a"; Count := 1; Error := 0 |})
                !! k).
Proof.
  apply (Pop_last (Push empty_keys {| Key := "a"; Count := 1; Error := 0 |})).
  apply Push_wf; [apply empty_keys_wf|]. apply not_elem_of_nil.
Defined.

(** ** The two orders *)

Lemma string_ltb_trans a b c :
  String.ltb a b = true -> String.ltb b c = true -> String.ltb a c = true.
Proof.
  unfold String.ltb.
  destruct (String.compare a b) eqn:Hab; try done.
  destruct (String.compare b c) eqn:Hbc; try done.
  by rewrite (string_compare_lt_trans _ _ _ Hab Hbc).
Qed.

Lemma byCount_Less_true a b :
  byCount_Less a b = true <->
  Count b < Count a ∨ (Count a = Count b ∧ String.ltb (Key a) (Key b) = true).
Proof.
  unfold byCount_Less. rewrite orb_true_iff, andb_true_iff.
  by rewrite Z.ltb_lt, Z.eqb_eq.
Qed.

(** X18: [elementsByCountDescending.Less] is a strict order: no element
    is before itself, two elements are never before each other, it is
    transitive, and of two elements with different keys one is before the
    other. *)
Theorem byCount_Less_order :
  (∀ a, byCount_Less a a = false) ∧
  (∀ a b, byCount_Less a b = true -> byCount_Less b a = false) ∧
  (∀ a b c, byCount_Less a b = true -> byCount_Less b c = true ->
            byCount_Less a c = true) ∧
  (∀ a b, Key a ≠ Key b ->
          byCount_Less a b = true ∨ byCount_Less b a = true).
Proof.
  split; [|split; [|split]].
  - intros a. apply not_true_is_false. rewrite byCount_Less_true.
    rewrite string_ltb_irrefl. intros [?|[_ ?]]; [lia|done].
  - intros a b Hab. apply not_true_is_false. revert Hab.
    rewrite !byCount_Less_true. intros [?|[? Hl]] [?|[? Hr]]; try lia.
    apply string_ltb_asym in Hl. congruence.
  - intros a b c. rewrite !byCount_Less_true.
    intros [?|[? Hl]] [?|[? Hr]]; [left; lia|left; lia|left; lia|].
    right. split; [lia|]. by eapply string_ltb_trans.
  - intros a b Hk. rewrite !byCount_Less_true.
    destruct (Z.lt_total (Count a) (Count b)) as [?|[?|?]]; [by auto| |by auto].
    destruct (string_ltb_total _ _ Hk); [left|right]; right; by split.
Qed.

(** X19: [keys.Less] is a strict weak order: irreflexive, asymmetric and
    transitive, "not less" is transitive too, and two elements neither of
    which is less than the other have the same count and the same error. *)
Theorem elt_Less_order :
  (∀ a, elt_Less a a = false) ∧
  (∀ a b, elt_Less a b = true -> elt_Less b a = false) ∧
  (∀ a b c, elt_Less a b = true -> elt_Less b c = true ->
            elt_Less a c = true) ∧
  (∀ a b c, elt_Less a b = false -> elt_Less b c = false ->
            elt_Less a c = false) ∧
  (∀ a b, elt_Less a b = false -> elt_Less b a = false ->
          Count a = Count b ∧ Error a = Error b).
Proof.
  split; [apply elt_Less_irrefl|]. split; [apply elt_Less_asym|].
  split; [|split].
  - intros a b c. rewrite !elt_Less_true. lia.
  - intros a b c. rewrite !elt_Less_false. lia.
  - intros a b. rewrite !elt_Less_false. lia.
Qed.

(** ** [Keys] does not depend on the sorting routine *)

Section KeysUnique.

Variable H : string -> Z.

(** X20: the result of [Keys] does not depend on how [sort.Sort] breaks
    ties, because it never has to: the keys of a reachable sketch are
    pairwise different, so any arrangement [l] of the stored elements that
    is sorted for [elementsByCountDescending.Less] is the same one, and
    [Keys] returns its first [n] elements. *)
Theorem Keys_deterministic s elts s' l :
  reachable H s -> Keys s = Returned (elts, s') ->
  l ≡ₚ concat (tk_elts <$> vec_to_list (s_p s)) ->
  Sorted byCount_le l ->
  elts = take (Z.to_nat (s_n s)) l.
Proof.
  intros Hr Hkeys Hperm Hsorted. pose proof (reachable_wf H s Hr) as Hwf.
  pose proof (all_keys_NoDup H s Hwf) as Hnd. destruct Hwf as (Hn0 & _).
  rewrite (sort_Sort_unique _ _ Hnd Hperm Hsorted).
  unfold Keys in Hkeys. destruct (wrap64 _ <? 0); [done|].
  apply bind_Returned in Hkeys as (elts1 & Htrim & Hret).
  apply Returned_pair in Hret as [<- _].
  rewrite trim_take in Htrim by done. by apply Returned_inj in Htrim.
Qed.

(** X21: a sketch fresh from [New(n)], [1 <= n] and [6 n] an [int], has the
    size asked for and an error table of [6 n] entries; [Keys] returns the
    empty slice, [Estimate] returns count 0 and error 0 for every key, and
    the first [Insert] of any key stores it with the count given and
    error 0. *)
Theorem New_fresh n :
  1 <= n -> n * 6 <= max_int ->
  ∃ s, New n = Returned s ∧ s_n s = n ∧ len (s_alphas s) = n * 6 ∧
       Keys s = Returned ([], s) ∧
       (∀ x, Estimate H x s
             = Returned ({| Key := x; Count := 0; Error := 0 |}, s)) ∧
       (∀ x count, ∃ s',
          Insert H x count s
            = Returned ({| Key := x; Count := count; Error := 0 |}, s') ∧
          tk_elts (s_p s' !!! partition_of (Hash64Str H x))
            = [{| Key := x; Count := count; Error := 0 |}]).
Proof.
  intros Hn1 Hn6.
  assert (New n = Returned {| s_n := n;
                              s_p := vreplicate nPartitions empty_keys;
                              s_alphas := replicate (Z.to_nat (n * 6)) 0 |})
    as Hnew.
  { unfold New. destruct (Z.ltb_spec n 0); [lia|].
    destruct (Z.ltb_spec max_int (n * 6)); [lia|]. done. }
  eexists. split; [exact Hnew|]. pose proof (New_wf H _ _ Hnew) as Hwf.
  pose proof (reachable_New H _ _ Hnew) as Hr.
  cbn [s_n s_alphas s_p].
  split; [done|]. split; [unfold len; rewrite length_replicate; lia|].
  split; [|split].
  - unfold Keys. cbn [s_n s_p].
    rewrite partitions_all_empty by (intros i; by rewrite vlookup_replicate).
    assert (is_int ((1 + n ÷ 6) * 6)) as Hcap.
    { rewrite Z.quot_div_nonneg by lia.
      assert (0 <= n / 6) by (apply Z.div_pos; lia).
      pose proof (Z.mul_div_le n 6 ltac:(lia)).
      unfold is_int, min_int, max_int in *. lia. }
    rewrite (wrap64_small _ Hcap).
    destruct (Z.ltb_spec ((1 + n ÷ 6) * 6) 0) as [Hneg|_].
    { rewrite Z.quot_div_nonneg in Hneg by lia.
      assert (0 <= n / 6) by (apply Z.div_pos; lia). lia. }
    change (sort_Sort []) with (@nil Element).
    rewrite trim_take by lia. cbn [mbind outcome_bind].
    by rewrite take_nil.
  - intros x. apply Estimate_untracked.
    + cbn [s_p]. rewrite vlookup_replicate. apply lookup_empty.
    + pose proof (bucket_range H _ x Hwf Hn1) as Hb.
      unfold bucket_of. cbn [s_alphas s_n] in *.
      apply index_Returned. split; [lia|].
      apply lookup_replicate_2. unfold len in *.
      rewrite length_replicate in *. lia.
  - intros x count. eexists. split.
    + apply Insert_admit; cbn [s_p s_n].
      * rewrite vlookup_replicate. apply lookup_empty.
      * rewrite vlookup_replicate. change (len (tk_elts empty_keys)) with 0.
        lia.
    + cbn [s_p]. by rewrite vlookup_insert, vlookup_replicate.
Qed.

End KeysUnique.

Lemma Keys_deterministic_witness :
  [{| Key := "a"; Count := 5; Error := 0 |};
   {| Key := "g"; Count := 3; Error := 0 |}] =
  take (Z.to_nat (s_n two_in_one_partition))
    [{| Key := "a"; Count := 5; Error := 0 |};
     {| Key := "g"; Count := 3; Error := 0 |}].
Proof.
  apply (Keys_deterministic demo_hash two_in_one_partition _
           two_in_one_partition).
  - apply two_in_one_partition_reachable.
  - vm_compute. reflexivity.
  - apply perm_swap.
  - repeat constructor.
Defined.

Lemma New_fresh_witness :
  ∃ s, New 2 = Returned s ∧ s_n s = 2 ∧ len (s_alphas s) = 2 * 6 ∧
       Keys s = Returned ([], s) ∧
       (∀ x, Estimate demo_hash x s
             = Returned ({| Key := x; Count := 0; Error := 0 |}, s)) ∧
       (∀ x count, ∃ s',
          Insert demo_hash x count s
            = Returned ({| Key := x; Count := count; Error := 0 |}, s') ∧
          tk_elts (s_p s' !!! partition_of (Hash64Str demo_hash x))
            = [{| Key := x; Count := count; Error := 0 |}]).
Proof.
  apply (New_fresh demo_hash 2).
  - lia.
  - vm_compute. discriminate.
Defined.

(** ** Witnesses for the reports of [Insert], [Estimate] and [Keys] *)

Lemma Insert_then_Estimate_witness :
  Key {| Key := "z"; Count := 7; Error := 0 |} = "z" ∧
  ∃ e', Estimate demo_hash "z" three_keys = Returned (e', three_keys) ∧
        Count e' = Count {| Key := "z"; Count := 7; Error := 0 |} ∧
        (e' = {| Key := "z"; Count := 7; Error := 0 |} ∨
         (e' = {| Key := "z";
                  Count := Count {| Key := "z"; Count := 7; Error := 0 |};
                  Error := Count {| Key := "z"; Count := 7; Error := 0 |} |} ∧
          s_p three_keys = s_p two_in_one_partition)).
Proof.
  apply (Insert_then_Estimate demo_hash two_in_one_partition "z" 7
           {| Key := "z"; Count := 7; Error := 0 |} three_keys).
  - apply two_in_one_partition_reachable.
  - vm_compute. split; discriminate.
  - vm_compute. reflexivity.
Defined.

Lemma Keys_agree_with_Estimate_witness :
  two_in_one_partition = two_in_one_partition ∧
  Estimate demo_hash (Key {| Key := "a"; Count := 5; Error := 0 |})
    two_in_one_partition =
  Returned ({| Key := "a"; Count := 5; Error := 0 |}, two_in_one_partition).
Proof.
  apply (Keys_agree_with_Estimate demo_hash two_in_one_partition
           [{| Key := "a"; Count := 5; Error := 0 |};
            {| Key := "g"; Count := 3; Error := 0 |}]).
  - apply two_in_one_partition_reachable.
  - vm_compute. reflexivity.
  - repeat constructor.
Defined.

Lemma Keys_top_witness :
  (∀ e, e ∈ [{| Key := "a"; Count := 5; Error := 0 |};
             {| Key := "g"; Count := 3; Error := 0 |}] ->
        ∃ i, e ∈ tk_elts (s_p two_in_one_partition !!! i)) ∧
  (∀ a b i,
      a ∈ [{| Key := "a"; Count := 5; Error := 0 |};
           {| Key := "g"; Count := 3; Error := 0 |}] ->
      b ∈ tk_elts (s_p two_in_one_partition !!! i) ->
      b ∉ [{| Key := "a"; Count := 5; Error := 0 |};
           {| Key := "g"; Count := 3; Error := 0 |}] ->
      byCount_Less a b = true) ∧
  (len (concat (tk_elts <$> vec_to_list (s_p two_in_one_partition)))
     <= s_n two_in_one_partition ->
   [{| Key := "a"; Count := 5; Error := 0 |};
    {| Key := "g"; Count := 3; Error := 0 |}]
     ≡ₚ concat (tk_elts <$> vec_to_list (s_p two_in_one_partition))).
Proof.
  apply (Keys_top demo_hash two_in_one_partition _ two_in_one_partition).
  - apply two_in_one_partition_reachable.
  - vm_compute. reflexivity.
Defined.

Lemma Insert_frame_witness :
  s_n three_keys = s_n two_in_one_partition ∧
  length (s_alphas three_keys) = length (s_alphas two_in_one_partition) ∧
  (∀ j, j ≠ partition_of (Hash64Str demo_hash "z") ->
        s_p three_keys !!! j = s_p two_in_one_partition !!! j) ∧
  (∀ e1, e1 ∈ tk_elts (s_p three_keys
                         !!! partition_of (Hash64Str demo_hash "z")) ->
         e1 = {| Key := "z"; Count := 7; Error := 0 |} ∨
         e1 ∈ tk_elts (s_p two_in_one_partition
                         !!! partition_of (Hash64Str demo_hash "z"))) ∧
  (∀ e0, e0 ∈ tk_elts (s_p two_in_one_partition
                         !!! partition_of (Hash64Str demo_hash "z")) ->
         Key e0 ≠ "z" ->
         e0 ∈ tk_elts (s_p three_keys
                         !!! partition_of (Hash64Str demo_hash "z")) ∨
         tk_elts (s_p two_in_one_partition
                    !!! partition_of (Hash64Str demo_hash "z")) !! 0%nat
           = Some e0) ∧
  (∃ b, ∀ j, j ≠ b ->
             s_alphas three_keys !! j = s_alphas two_in_one_partition !! j).
Proof.
  apply (Insert_frame demo_hash two_in_one_partition "z" 7
           {| Key := "z"; Count := 7; Error := 0 |} three_keys).
  - apply two_in_one_partition_reachable.
  - vm_compute. reflexivity.
Defined.

Lemma Insert_tracked_witness :
  ∃ s',
    Insert demo_hash "a" 2 two_in_one_partition =
      Returned ({| Key := "a";
                   Count := add64 (Count {| Key := "a"; Count := 5;
                                            Error := 0 |}) 2;
                   Error := Error {| Key := "a"; Count := 5; Error := 0 |} |},
                s') ∧
    s_alphas s' = s_alphas two_in_one_partition ∧
    length (tk_elts (s_p s' !!! partition_of (Hash64Str demo_hash "a"))) =
    length (tk_elts (s_p two_in_one_partition
                       !!! partition_of (Hash64Str demo_hash "a"))).
Proof.
  apply (Insert_tracked demo_hash two_in_one_partition "a" 2
           {| Key := "a"; Count := 5; Error := 0 |}).
  - apply two_in_one_partition_reachable.
  - vm_compute. repeat constructor.
  - reflexivity.
Defined.

Lemma guaranteed_count_witness :
  (∀ i e, e ∈ tk_elts (s_p two_in_one_partition !!! i) ->
          Count e - Error e <= exact_count (Key e) [("a", 5); ("g", 3)]) ∧
  (∀ x e s', Estimate demo_hash x two_in_one_partition = Returned (e, s') ->
             Key e = x ∧
             Count e - Error e <= exact_count x [("a", 5); ("g", 3)]).
Proof.
  apply (guaranteed_count demo_hash 2 [("a", 5); ("g", 3)]
           two_in_one_partition).
  - repeat (constructor; [vm_compute; discriminate|]). constructor.
  - vm_compute. discriminate.
  - vm_compute. reflexivity.
Defined.

(** ** More on the codec *)

Section DecodeReceiver.

Context {W : Wire}.

Lemma partitions_DecodeMsgp_receiver idxs r (p q : partitions) :
  match partitions_DecodeMsgp idxs r p, partitions_DecodeMsgp idxs r q with
  | Some (p', r1), Some (q', r2) =>
      r1 = r2 ∧ (∀ i, i ∈ idxs -> p' !!! i = q' !!! i) ∧
      (∀ i, i ∉ idxs -> p' !!! i = p !!! i ∧ q' !!! i = q !!! i)
  | None, None => True
  | _, _ => False
  end.
Proof.
  revert r p q. induction idxs as [|i idxs IH]; intros r p q;
    cbn [partitions_DecodeMsgp].
  - split; [done|]. split; [by intros ? ?%elem_of_nil|done].
  - change (keys_DecodeMsgp r (p !!! i)) with (keys_DecodeMsgp r (q !!! i)).
    destruct (keys_DecodeMsgp r (q !!! i)) as [[tk r1]|];
      cbn [mbind option_bind]; [|done].
    specialize (IH r1 (vinsert i tk p) (vinsert i tk q)).
    destruct (partitions_DecodeMsgp idxs r1 (vinsert i tk p)) as [[p' r2]|],
      (partitions_DecodeMsgp idxs r1 (vinsert i tk q)) as [[q' r3]|];
      try done.
    destruct IH as (-> & Hin & Hout). split; [done|]. split.
    + intros j Hj. destruct (decide (j ∈ idxs)) as [Hj'|Hj']; [by apply Hin|].
      apply elem_of_cons in Hj as [->|?]; [|done].
      destruct (Hout i Hj') as [-> ->]. by rewrite !vlookup_insert.
    + intros j Hj. apply not_elem_of_cons in Hj as [Hji Hj].
      destruct (Hout j Hj) as [-> ->]. by rewrite !vlookup_insert_ne.
Qed.

(** X22: a successful [Decode] does not depend on what the receiver held:
    when decoding some bytes into one receiver returns no error and leaves
    the sketch [s], decoding the same bytes into any other receiver returns
    no error and leaves [s] as well.  The size, the error table and all six
    partitions are overwritten. *)
Theorem Decode_receiver r s0 s1 s :
  Decode r s0 = Some s -> Decode r s1 = Some s.
Proof.
  intros <-. unfold Decode, Stream_DecodeMsgp.
  destruct (ReadInt r) as [[n r1]|]; cbn [mbind option_bind]; [|done].
  destruct (ReadArrayHeader r1) as [[sz r2]|]; cbn [mbind option_bind];
    [|done].
  destruct (read_ints (Z.to_nat sz) r2) as [[alphas r3]|];
    cbn [mbind option_bind]; [|done].
  pose proof (partitions_DecodeMsgp_receiver partition_indices r3
                (s_p s1) (s_p s0)) as Hp.
  destruct (partitions_DecodeMsgp partition_indices r3 (s_p s1))
    as [[p' r4]|],
    (partitions_DecodeMsgp partition_indices r3 (s_p s0)) as [[q' r5]|];
    try done.
  destruct Hp as (-> & Hin & _). cbn [mbind option_bind].
  assert (p' = q') as ->; [|done].
  apply vec_eq. intros i. apply Hin, elem_of_partition_indices.
Qed.

End DecodeReceiver.

Section Streaming.

Context (W : Wire) (HW : Wire_laws W).

(** Decoding reads exactly the bytes that [Encode] wrote. *)
Lemma Stream_DecodeMsgp_wire s s0 out rest :
  (∃ hash, stream_wf hash s) ->
  s_n s * 6 < 2 ^ 32 ->
  (∀ i, Forall (λ e, short_key (Key e)) (tk_elts (s_p s !!! i))) ->
  Encode s out -> Stream_DecodeMsgp (out ++ rest) s0 = Some (s, rest).
Proof.
  intros [hash (Hn0 & Hn6 & Hlen & Hints & Hp)] Hsmall Hkeys
    (orders & Horders & ->).
  unfold Stream_DecodeMsgp, Stream_EncodeMsgp. rewrite <- !app_assoc.
  assert (is_int (s_n s)) by (unfold is_int, min_int, max_int; lia).
  rewrite (ReadInt_WriteInt W HW) by done. cbn [mbind option_bind].
  rewrite uint32_small by lia.
  rewrite (ReadArrayHeader_WriteArrayHeader W HW) by lia.
  cbn [mbind option_bind]. unfold len. rewrite Nat2Z.id.
  rewrite (read_ints_written W HW) by done. cbn [mbind option_bind].
  unfold partitions_EncodeMsgp.
  rewrite (partitions_roundtrip W HW); [|].
  - cbn [mbind option_bind]. rewrite partitions_refill. by destruct s.
  - intros i. destruct (Hp i) as (Hwf & Hcap & Hei & _).
    split; [done|]. split; [lia|]. split; [|done].
    apply Forall_forall. intros e He. split.
    + by apply (proj1 (Forall_forall _ _) (Hkeys i)).
    + by apply (proj1 (Forall_forall _ _) Hei).
Qed.

End Streaming.

Section CodecClaims.

Variable H : string -> Z.

(** X23: [DecodeMsgp] consumes exactly what [EncodeMsgp] wrote.  For a
    reachable sketch within the limits of the wire (an error table shorter
    than [2^32] entries, keys shorter than [2^32] bytes), decoding any
    encoding of it followed by further bytes [rest] rebuilds the sketch and
    leaves the reader at [rest], so sketches can be written one after
    another. *)
Theorem Stream_DecodeMsgp_Encode s out rest s0 :
  reachable H s ->
  s_n s * 6 < 2 ^ 32 ->
  (∀ i, Forall (λ e, short_key (Key e)) (tk_elts (s_p s !!! i))) ->
  Encode (W:=msgpack) s out ->
  Stream_DecodeMsgp (W:=msgpack) (out ++ rest) s0 = Some (s, rest).
Proof.
  intros Hr Hsmall Hkeys Hout.
  apply (Stream_DecodeMsgp_wire msgpack msgpack_laws); try done.
  exists H. by apply reachable_wf.
Qed.

End CodecClaims.

(** X24: [keys.DecodeMsgp] reads back what [keys.EncodeMsgp] wrote, in
    whatever order the map entries were visited, and leaves the reader
    right after it: for a [keys] whose slot map mirrors its array, with
    fewer than [2^32] elements and keys shorter than [2^32] bytes. *)
Theorem keys_DecodeMsgp_EncodeMsgp kvs tk tk0 rest :
  keys_wf tk -> len (tk_elts tk) < 2 ^ 32 ->
  Forall (λ e, short_key (Key e) ∧ elt_int e) (tk_elts tk) ->
  kvs ≡ₚ map_to_list (tk_m tk) ->
  keys_DecodeMsgp (W:=msgpack)
    (keys_EncodeMsgp (W:=msgpack) kvs tk ++ rest) tk0 = Some (tk, rest).
Proof. apply (keys_roundtrip msgpack msgpack_laws). Qed.

Lemma two_in_one_partition_short i :
  Forall (λ e, short_key (Key e)) (tk_elts (s_p two_in_one_partition !!! i)).
Proof.
  unfold nPartitions in i.
  inv_fin i; [|intros i; inv_fin i; [|intros i; inv_fin i;
    [|intros i; inv_fin i; [|intros i; inv_fin i;
      [|intros i; inv_fin i; [|intros i; inv_fin i]]]]]];
    repeat constructor.
Qed.

Lemma Stream_DecodeMsgp_Encode_witness :
  Stream_DecodeMsgp (W:=msgpack)
    (Stream_EncodeMsgp (W:=msgpack)
       (λ i, map_to_list (tk_m (s_p two_in_one_partition !!! i)))
       two_in_one_partition ++ [1; 2; 3]) new_two =
  Some (two_in_one_partition, [1; 2; 3]).
Proof.
  apply (Stream_DecodeMsgp_Encode demo_hash two_in_one_partition).
  - apply two_in_one_partition_reachable.
  - vm_compute. reflexivity.
  - apply two_in_one_partition_short.
  - by exists (λ i, map_to_list (tk_m (s_p two_in_one_partition !!! i))).
Defined.

Lemma keys_DecodeMsgp_EncodeMsgp_witness :
  keys_DecodeMsgp (W:=msgpack)
    (keys_EncodeMsgp (W:=msgpack)
       (map_to_list (tk_m (s_p two_in_one_partition !!! 1%fin)))
       (s_p two_in_one_partition !!! 1%fin) ++ [1; 2; 3]) empty_keys =
  Some (s_p two_in_one_partition !!! 1%fin, [1; 2; 3]).
Proof.
  destruct (reachable_wf demo_hash _ two_in_one_partition_reachable)
    as (_ & _ & _ & _ & Hp).
  destruct (Hp 1%fin) as (Hwf & _ & Hint & _).
  apply (keys_DecodeMsgp_EncodeMsgp _ (s_p two_in_one_partition !!! 1%fin)).
  - exact Hwf.
  - vm_compute. reflexivity.
  - apply Forall_forall. intros e He. split.
    + by apply (proj1 (Forall_forall _ _) (two_in_one_partition_short 1%fin)).
    + by apply (proj1 (Forall_forall _ _) Hint).
  - done.
Defined.

Lemma Decode_receiver_witness :
  Decode (W:=msgpack)
    (Stream_EncodeMsgp (W:=msgpack)
       (λ i, map_to_list (tk_m (s_p two_in_one_partition !!! i)))
       two_in_one_partition) one_full_partition =
  Some two_in_one_partition.
Proof.
  apply (Decode_receiver _ new_two one_full_partition).
  apply (Decode_Encode_wire msgpack msgpack_laws).
  - exists demo_hash. apply reachable_wf, two_in_one_partition_reachable.
  - vm_compute. reflexivity.
  - apply two_in_one_partition_short.
  - by exists (λ i, map_to_list (tk_m (s_p two_in_one_partition !!! i))).
Defined.
